(** * Tic-tac-toe engine: board, terminal-state detection and the three
      opponent strategies of [tic_tac_toe.py], as a shallow embedding.

    The Python object [self] is a record.  [make_move] and
    [switch_player] take the object and return the object they leave
    behind.  The methods that read and assign only [self.board]
    ([check_winner], [is_full] and the strategies) take the board and,
    where they assign to it, return the board they leave behind; the two
    symbols they read, [self.npc_symbol] and [self.player_symbol], are
    parameters.  Exceptions are a result type; the recursion of
    [minimax] is driven by a fuel counter and returns [None] only when
    the fuel runs out. *)

From Stdlib Require Import String List ZArith Lia Bool Arith.
Import ListNotations.

Set Implicit Arguments.

(* ================================================================== *)
(** ** Data model *)

(** The three strings a board cell holds: [" "], ["X"] and ["O"]. *)
Inductive cell : Set := Blank | X | O.

Definition cell_eqb (a b : cell) : bool :=
  match a, b with
  | Blank, Blank | X, X | O, O => true
  | _, _ => false
  end.

Definition cell_eq_dec (a b : cell) : {a = b} + {a <> b}.
Proof. decide equality. Defined.

(** [winner == symbol] where [winner] is an [Optional[str]]. *)
Definition opt_cell_eqb (w : option cell) (s : cell) : bool :=
  match w with
  | Some c => cell_eqb c s
  | None => false
  end.

Definition grid := list (list cell).

(** The attributes set by [__init__] (the lock is left out: one game is
    played by one thread). *)
Record TicTacToe : Type := mkTicTacToe {
  board : grid;
  current_player : cell;
  play_with_npc : bool;
  difficulty : string;
  player_symbol : cell;
  npc_symbol : cell
}.

Definition empty_grid : grid :=
  [[Blank; Blank; Blank]; [Blank; Blank; Blank]; [Blank; Blank; Blank]].

(** [TicTacToe(play_with_npc, difficulty)]; [difficulty] is taken
    already lower-cased. *)
Definition new_game (npc : bool) (diff : string) : TicTacToe :=
  mkTicTacToe empty_grid X npc diff X O.

(** Exceptions the methods can raise. *)
Inductive exn : Set :=
| InvalidMoveError (msg : string)
| IndexError (msg : string).

Inductive result (A : Type) : Type :=
| Ok (a : A)
| Raise (e : exn).
Arguments Ok {A} a.
Arguments Raise {A} e.

Definition OutOfBounds : exn := InvalidMoveError "Row or column is out of bounds".
Definition CellOccupied : exn := InvalidMoveError "Spot is already taken".

(** [sys.maxsize] of a 64-bit build; Python integers do not wrap. *)
Definition maxsize : Z := 9223372036854775807%Z.

Definition range3 : list nat := [0; 1; 2].

(* ------------------------------------------------------------------ *)
(** *** Grid access *)

(** [b[r][c]] for indices taken from [range(3)].  [__init__] builds three
    rows of three cells and the methods only assign cells, so the board
    is always [wf_grid] (below); the default [Blank] and the assignment
    that does nothing are what the definitions give outside a 3x3
    board, where Python would raise, and no property relies on them. *)
Definition get (b : grid) (r c : nat) : cell := nth c (nth r b []) Blank.

Fixpoint update (A : Type) (l : list A) (i : nat) (v : A) : list A :=
  match l, i with
  | [], _ => []
  | _ :: t, 0 => v :: t
  | x :: t, S i' => x :: update t i' v
  end.

(** [b[r][c] = v]. *)
Definition set_grid (b : grid) (r c : nat) (v : cell) : grid :=
  update b r (update (nth r b []) c v).

Definition set_cell (self : TicTacToe) (r c : nat) (v : cell) : TicTacToe :=
  mkTicTacToe (set_grid (board self) r c v) (current_player self)
              (play_with_npc self) (difficulty self)
              (player_symbol self) (npc_symbol self).

Definition wf_row (l : list cell) : Prop := length l = 3.
Definition wf_grid (b : grid) : Prop := length b = 3 /\ Forall wf_row b.

(* ------------------------------------------------------------------ *)
(** *** Loops *)

(** How the body of a [for] loop ends: falls through to the next
    iteration, executes [break], or executes [return r]. *)
Inductive signal (R : Type) : Type :=
| Normal
| Broke
| Returned (r : R).
Arguments Normal {R}.
Arguments Broke {R}.
Arguments Returned {R} r.

(** A [for x in xs] loop over a state [S]; the result carries the value
    of a [return] executed inside the loop, if any. *)
Fixpoint for_in (A S R : Type) (xs : list A)
         (body : A -> S -> S * signal R) (s : S) : S * option R :=
  match xs with
  | [] => (s, None)
  | x :: xs' =>
      match body x s with
      | (s', Normal) => for_in xs' body s'
      | (s', Broke) => (s', None)
      | (s', Returned r) => (s', Some r)
      end
  end.

(** The same loop for a body that may run out of fuel. *)
Fixpoint for_in_fuel (A S : Type) (xs : list A)
         (body : A -> S -> option (S * bool)) (s : S) : option S :=
  match xs with
  | [] => Some s
  | x :: xs' =>
      match body x s with
      | None => None
      | Some (s', true) => Some s'
      | Some (s', false) => for_in_fuel xs' body s'
      end
  end.

(* ================================================================== *)
(** ** Board operations *)

(** [make_move]: lines 39-46. *)
Definition make_move (self : TicTacToe) (row col : Z) : result bool * TicTacToe :=
  if negb ((0 <=? row)%Z && (row <? 3)%Z && ((0 <=? col)%Z && (col <? 3)%Z)) then
    (Raise OutOfBounds, self)
  else if negb (cell_eqb (get (board self) (Z.to_nat row) (Z.to_nat col)) Blank) then
    (Raise CellOccupied, self)
  else
    (Ok true, set_cell self (Z.to_nat row) (Z.to_nat col) (current_player self)).

(** [switch_player]: lines 48-49. *)
Definition switch_player (self : TicTacToe) : TicTacToe :=
  mkTicTacToe (board self)
              (if cell_eqb (current_player self) (player_symbol self)
               then npc_symbol self else player_symbol self)
              (play_with_npc self) (difficulty self)
              (player_symbol self) (npc_symbol self).

(** The list [lines] built by [check_winner]: rows, columns, diagonals. *)
Definition lines (b : grid) : list (list cell) :=
  map (fun i => nth i b []) range3
  ++ map (fun j => map (fun i => get b i j) range3) range3
  ++ [map (fun i => get b i i) range3;
      map (fun i => get b i (2 - i)) range3].

Definition count (l : list cell) (x : cell) : nat := count_occ cell_eq_dec l x.

(** The scan [for line in lines: if ...: return line[0]]. *)
Fixpoint scan_lines (ls : list (list cell)) : option cell :=
  match ls with
  | [] => None
  | line :: rest =>
      let h := nth 0 line Blank in
      if (count line h =? 3) && negb (cell_eqb h Blank) then Some h
      else scan_lines rest
  end.

(** [check_winner]: lines 51-64. *)
Definition check_winner (b : grid) : option cell := scan_lines (lines b).

(** [is_full]: lines 66-67. *)
Definition is_full (b : grid) : bool :=
  forallb (fun row => forallb (fun c => negb (cell_eqb c Blank)) row) b.

(** The outcome the turn loop derives after a move (lines 188-201):
    a winner ends the game, otherwise a full board is a tie, otherwise
    play goes on. *)
Inductive Outcome : Set :=
| InProgress
| Win (symbol : cell)
| Draw.

Definition evaluate (b : grid) : Outcome :=
  match check_winner b with
  | Some winner => Win winner
  | None => if is_full b then Draw else InProgress
  end.

(* ================================================================== *)
(** ** Strategies *)

(** [random.choice(seq)] with the generator's draw [rng] made explicit:
    it raises [IndexError] on an empty sequence. *)
Definition empty_sequence : exn := IndexError "Cannot choose from an empty sequence".

Definition random_choice (A : Type) (rng : nat) (seq : list A) : result A :=
  match seq with
  | [] => Raise empty_sequence
  | x :: _ => Ok (nth (rng mod length seq) seq x)
  end.

(** The comprehension of [random_move]. *)
Definition available_moves (b : grid) : list (nat * nat) :=
  flat_map (fun r =>
    flat_map (fun c => if cell_eqb (get b r c) Blank then [(r, c)] else [])
             range3) range3.

(** [random_move]: lines 80-82. *)
Definition random_move (rng : nat) (b : grid) : result (nat * nat) :=
  random_choice rng (available_moves b).

(** [find_best_move]: lines 109-118. *)
Definition find_best_move (b : grid) (symbol : cell) : grid * option (nat * nat) :=
  for_in range3 (fun row b =>
    match for_in range3 (fun col b =>
            if cell_eqb (get b row col) Blank then
              let b1 := set_grid b row col symbol in
              if opt_cell_eqb (check_winner b1) symbol then
                (set_grid b1 row col Blank, Returned (row, col))
              else
                (set_grid b1 row col Blank, Normal)
            else (b, Normal)) b
    with
    | (b', Some m) => (b', Returned m)
    | (b', None) => (b', Normal)
    end) b.

Definition corners : list (nat * nat) := [(0, 0); (0, 2); (2, 0); (2, 2)].
Definition sides : list (nat * nat) := [(0, 1); (1, 0); (1, 2); (2, 1)].

Definition available_among (b : grid) (cs : list (nat * nat)) : list (nat * nat) :=
  filter (fun rc => cell_eqb (get b (fst rc) (snd rc)) Blank) cs.

(** The folds of plain minimax over the scores of the empty cells; a
    score that is missing (no fuel) makes the result missing. *)
Definition fold_max (score : nat * nat -> option Z) (cells : list (nat * nat))
           (init : Z) : option Z :=
  fold_left (fun acc rc =>
      match acc, score rc with
      | Some m, Some e => Some (Z.max m e)
      | _, _ => None
      end) cells (Some init).

Definition fold_min (score : nat * nat -> option Z) (cells : list (nat * nat))
           (init : Z) : option Z :=
  fold_left (fun acc rc =>
      match acc, score rc with
      | Some m, Some e => Some (Z.min m e)
      | _, _ => None
      end) cells (Some init).

(** The first cell of strictly greatest score, with its score. *)
Definition fold_best (score : nat * nat -> option Z) (cells : list (nat * nat))
           (init : Z) (first : option (nat * nat)) : option (Z * option (nat * nat)) :=
  fold_left (fun acc rc =>
      match acc, score rc with
      | Some (best_score, best_move), Some s =>
          if (s >? best_score)%Z then Some (s, Some rc)
          else Some (best_score, best_move)
      | _, _ => None
      end) cells (Some (init, first)).

Section Strategies.

(** [self.npc_symbol] and [self.player_symbol]. *)
Variables npc player : cell.

(** [medium_move]: lines 84-107. *)
Definition medium_move (rng : nat) (b : grid) : result (nat * nat) * grid :=
  match find_best_move b npc with
  | (b1, Some move) => (Ok move, b1)
  | (b1, None) =>
      match find_best_move b1 player with
      | (b2, Some move) => (Ok move, b2)
      | (b2, None) =>
          if cell_eqb (get b2 1 1) Blank then (Ok (1, 1), b2)
          else
            match available_among b2 corners with
            | (_ :: _) as available_corners =>
                (random_choice rng available_corners, b2)
            | [] =>
                match available_among b2 sides with
                | (_ :: _) as available_sides =>
                    (random_choice rng available_sides, b2)
                | [] => (random_move rng b2, b2)
                end
            end
      end
  end.

(** The nest [for row in range(3): for col in range(3): ...] shared by
    [minimax] and [hard_move]: [cell_body row col] is the body of the
    inner loop, and the flag it returns says whether it ended in
    [break], which leaves the loop over [col] only. *)
Definition scan_rows (St : Type)
           (cell_body : nat -> nat -> St -> option (St * bool)) (st : St) : option St :=
  for_in_fuel range3 (fun row st =>
    match for_in_fuel range3 (cell_body row) st with
    | None => None
    | Some st' => Some (st', false)
    end) st.

Section SearchBodies.

(** The recursive call [self.minimax(...)] of the loop bodies. *)
Variable rec : grid -> Z -> bool -> Z -> Z -> option (Z * grid).

(** Lines 147-154: the loop state is the board with [max_eval] and
    [alpha]. *)
Definition max_cell (depth beta : Z) (row col : nat) (st : grid * Z * Z)
  : option (grid * Z * Z * bool) :=
  let '(b, max_eval, alpha) := st in
  if cell_eqb (get b row col) Blank then
    match rec (set_grid b row col npc) (depth + 1)%Z false alpha beta with
    | None => None
    | Some (eval, b1) =>
        let b2 := set_grid b1 row col Blank in
        let max_eval := Z.max max_eval eval in
        let alpha := Z.max alpha eval in
        Some ((b2, max_eval, alpha), (beta <=? alpha)%Z)
    end
  else Some (st, false).

(** Lines 160-167: the loop state is the board with [min_eval] and
    [beta]. *)
Definition min_cell (depth alpha : Z) (row col : nat) (st : grid * Z * Z)
  : option (grid * Z * Z * bool) :=
  let '(b, min_eval, beta) := st in
  if cell_eqb (get b row col) Blank then
    match rec (set_grid b row col player) (depth + 1)%Z true alpha beta with
    | None => None
    | Some (eval, b1) =>
        let b2 := set_grid b1 row col Blank in
        let min_eval := Z.min min_eval eval in
        let beta := Z.min beta eval in
        Some ((b2, min_eval, beta), (beta <=? alpha)%Z)
    end
  else Some (st, false).

(** Lines 125-131: the loop state is the board with [best_score] and
    [best_move]. *)
Definition hard_cell (row col : nat) (st : grid * Z * option (nat * nat))
  : option (grid * Z * option (nat * nat) * bool) :=
  let '(b, best_score, best_move) := st in
  if cell_eqb (get b row col) Blank then
    match rec (set_grid b row col npc) 0%Z false (- maxsize)%Z maxsize with
    | None => None
    | Some (score, b1) =>
        let b2 := set_grid b1 row col Blank in
        if (score >? best_score)%Z
        then Some ((b2, score, Some (row, col)), false)
        else Some ((b2, best_score, best_move), false)
    end
  else Some (st, false).

End SearchBodies.

(** [minimax]: lines 134-168. *)
Fixpoint minimax (fuel : nat) (b : grid) (depth : Z)
         (is_maximizing : bool) (alpha beta : Z) : option (Z * grid) :=
  match fuel with
  | 0 => None
  | S fuel' =>
      let winner := check_winner b in
      if opt_cell_eqb winner npc then Some ((10 - depth)%Z, b)
      else if opt_cell_eqb winner player then Some ((depth - 10)%Z, b)
      else if is_full b then Some (0%Z, b)
      else if is_maximizing then
        match scan_rows (max_cell (minimax fuel') depth beta) (b, (- maxsize)%Z, alpha) with
        | None => None
        | Some (b', max_eval, _) => Some (max_eval, b')
        end
      else
        match scan_rows (min_cell (minimax fuel') depth alpha) (b, maxsize, beta) with
        | None => None
        | Some (b', min_eval, _) => Some (min_eval, b')
        end
  end.

(** The loops of [hard_move], lines 121-131. *)
Definition hard_move_loop (fuel : nat) (b : grid)
  : option (grid * Z * option (nat * nat)) :=
  scan_rows (hard_cell (minimax fuel)) (b, (- maxsize)%Z, None).

(** [hard_move]: lines 120-132, with the fuel of its calls of
    [minimax]. *)
Definition hard_move_fuel (fuel : nat) (b : grid)
  : option (option (nat * nat) * grid) :=
  match hard_move_loop fuel b with
  | None => None
  | Some (b', _, best_move) => Some (best_move, b')
  end.

(** Plain minimax, the search of [minimax] without the two bounds and
    without the cutoffs: every empty cell of a node is searched, on a
    copy of the board. *)
Fixpoint plain_minimax (fuel : nat) (b : grid) (depth : Z)
         (is_maximizing : bool) : option Z :=
  match fuel with
  | 0 => None
  | S fuel' =>
      let winner := check_winner b in
      if opt_cell_eqb winner npc then Some (10 - depth)%Z
      else if opt_cell_eqb winner player then Some (depth - 10)%Z
      else if is_full b then Some 0%Z
      else if is_maximizing then
        fold_max (fun rc => plain_minimax fuel' (set_grid b (fst rc) (snd rc) npc)
                                          (depth + 1)%Z false)
                 (available_moves b) (- maxsize)%Z
      else
        fold_min (fun rc => plain_minimax fuel' (set_grid b (fst rc) (snd rc) player)
                                          (depth + 1)%Z true)
                 (available_moves b) maxsize
  end.

(** Top-level selection over plain minimax: the first empty cell, in
    row-major order, of strictly greatest score. *)
Definition plain_hard_move (fuel : nat) (b : grid) : option (option (nat * nat)) :=
  match
    fold_best (fun rc => plain_minimax fuel (set_grid b (fst rc) (snd rc) npc) 0%Z false)
              (available_moves b) (- maxsize)%Z None
  with
  | Some (_, best_move) => Some best_move
  | None => None
  end.

End Strategies.

(** Nine cells bound the depth of the recursion. *)
Definition search_fuel : nat := 10.

Definition hard_move (npc player : cell) (b : grid) : option (option (nat * nat) * grid) :=
  hard_move_fuel npc player search_fuel b.

(** [npc_move]: lines 69-78.  The call returns a cell, returns [None]
    (which [hard_move] can do) or raises. *)
Definition returned (r : result (nat * nat)) : result (option (nat * nat)) :=
  match r with
  | Ok m => Ok (Some m)
  | Raise e => Raise e
  end.

Definition npc_move (npc player : cell) (difficulty : string) (rng : nat) (b : grid)
  : option (result (option (nat * nat)) * grid) :=
  if String.eqb difficulty "easy" then Some (returned (random_move rng b), b)
  else if String.eqb difficulty "medium" then
    let (r, b') := medium_move npc player rng b in Some (returned r, b')
  else if String.eqb difficulty "hard" then
    match hard_move npc player b with
    | Some (m, b') => Some (Ok m, b')
    | None => None
    end
  else Some (returned (random_move rng b), b).

(* ================================================================== *)
(** ** The turn loop *)

Definition with_board (self : TicTacToe) (b : grid) : TicTacToe :=
  mkTicTacToe b (current_player self) (play_with_npc self) (difficulty self)
              (player_symbol self) (npc_symbol self).

(** What an iteration of [play_game] does after a successful
    [make_move] (lines 188-202): a winner or a full board ends the game,
    otherwise the turn passes. *)
Definition after_move (self : TicTacToe) : TicTacToe :=
  match evaluate (board self) with
  | InProgress => switch_player self
  | _ => self
  end.

(** One accepted move; a move that raises is reported and the same turn
    is asked again, so it is no turn. *)
Definition turn (self : TicTacToe) (row col : Z) : option TicTacToe :=
  match make_move self row col with
  | (Ok _, self') => Some (after_move self')
  | (Raise _, _) => None
  end.

(** The controlled mutation path: an accepted [make_move] followed by
    [switch_player]. *)
Inductive reachable (g0 : TicTacToe) : TicTacToe -> Prop :=
| reach_init : reachable g0 g0
| reach_move (g : TicTacToe) (row col : Z) (g' : TicTacToe) :
    reachable g0 g ->
    make_move g row col = (Ok true, g') ->
    reachable g0 (switch_player g').

(** Legal play: turns are taken while the game is in progress. *)
Inductive legal_play (g0 : TicTacToe) : TicTacToe -> Prop :=
| legal_start : legal_play g0 g0
| legal_turn (g : TicTacToe) (row col : Z) (g' : TicTacToe) :
    legal_play g0 g ->
    evaluate (board g) = InProgress ->
    turn g row col = Some g' ->
    legal_play g0 g'.

(** Legal play in which the cell of every turn of [npc_symbol] is the
    one [hard_move] returns; the other side plays any accepted move. *)
Inductive hard_play (g0 : TicTacToe) : TicTacToe -> Prop :=
| hard_start : hard_play g0 g0
| hard_npc_turn (g : TicTacToe) (r c : nat) (b' : grid) (g' : TicTacToe) :
    hard_play g0 g ->
    evaluate (board g) = InProgress ->
    current_player g = npc_symbol g ->
    hard_move (npc_symbol g) (player_symbol g) (board g) = Some (Some (r, c), b') ->
    turn (with_board g b') (Z.of_nat r) (Z.of_nat c) = Some g' ->
    hard_play g0 g'
| hard_other_turn (g : TicTacToe) (row col : Z) (g' : TicTacToe) :
    hard_play g0 g ->
    evaluate (board g) = InProgress ->
    current_player g <> npc_symbol g ->
    turn g row col = Some g' ->
    hard_play g0 g'.

(** The object with the two symbols exchanged: the strategy then owns
    the symbol that moves first. *)
Definition swap_roles (self : TicTacToe) : TicTacToe :=
  mkTicTacToe (board self) (current_player self) (play_with_npc self)
              (difficulty self) (npc_symbol self) (player_symbol self).

(** A turn in which the side to move, whichever it is, takes the cell
    [hard_move] returns when that side owns the maximizing role. *)
Definition hard_turn_of_mover (g : TicTacToe) : option TicTacToe :=
  let me := current_player g in
  let other := if cell_eqb me (player_symbol g) then npc_symbol g else player_symbol g in
  match hard_move me other (board g) with
  | Some (Some (r, c), b') => turn (with_board g b') (Z.of_nat r) (Z.of_nat c)
  | _ => None
  end.

(** At most [n] turns of a game in which both sides play [hard_move]. *)
Fixpoint hard_vs_hard (n : nat) (g : TicTacToe) : option TicTacToe :=
  match n with
  | 0 => Some g
  | S n' =>
      match evaluate (board g) with
      | InProgress =>
          match hard_turn_of_mover g with
          | Some g' => hard_vs_hard n' g'
          | None => None
          end
      | _ => Some g
      end
  end.

(* ================================================================== *)
(** ** Notions the properties are stated with *)

Definition count_cells (b : grid) (s : cell) : nat := count (concat b) s.

Definition count_empty (b : grid) : nat := length (available_moves b).

(** The eight lines as cell coordinates: rows 0, 1, 2, columns 0, 1, 2,
    main diagonal, anti-diagonal. *)
Definition line_coords : list (list (nat * nat)) :=
  [ [(0, 0); (0, 1); (0, 2)];
    [(1, 0); (1, 1); (1, 2)];
    [(2, 0); (2, 1); (2, 2)];
    [(0, 0); (1, 0); (2, 0)];
    [(0, 1); (1, 1); (2, 1)];
    [(0, 2); (1, 2); (2, 2)];
    [(0, 0); (1, 1); (2, 2)];
    [(0, 2); (1, 1); (2, 0)] ].

(** The three cells of line [l] hold the non-empty symbol [s]. *)
Definition line_holds (b : grid) (s : cell) (l : list (nat * nat)) : Prop :=
  s <> Blank /\ forall rc, In rc l -> get b (fst rc) (snd rc) = s.

Definition no_complete_line (b : grid) : Prop :=
  forall k s, k < 8 -> ~ line_holds b s (nth k line_coords []).

(** The nine cells in row-major order. *)
Definition cells_row_major : list (nat * nat) :=
  [(0, 0); (0, 1); (0, 2); (1, 0); (1, 1); (1, 2); (2, 0); (2, 1); (2, 2)].

Definition move_eqb (a b : nat * nat) : bool :=
  (fst a =? fst b) && (snd a =? snd b).

(** Cell [rc] is empty and some line through it holds [s] in its two
    other cells. *)
Definition completes (b : grid) (s : cell) (rc : nat * nat) : bool :=
  cell_eqb (get b (fst rc) (snd rc)) Blank
  && existsb (fun l =>
        existsb (move_eqb rc) l
        && forallb (fun rc' => move_eqb rc rc' || cell_eqb (get b (fst rc') (snd rc')) s) l)
      line_coords.

Definition first_completing (b : grid) (s : cell) : option (nat * nat) :=
  find (completes b s) cells_row_major.

(** [forallb] and [existsb] that stop at the first element that decides
    the answer. *)
Fixpoint every (A : Type) (f : A -> bool) (l : list A) : bool :=
  match l with
  | [] => true
  | x :: l' => if f x then every f l' else false
  end.

Fixpoint some (A : Type) (f : A -> bool) (l : list A) : bool :=
  match l with
  | [] => false
  | x :: l' => if f x then true else some f l'
  end.

Section GameValue.

Variables npc player : cell.

(** The side [player] can force a win within [n] further moves. *)
Fixpoint forces_win_within (n : nat) (b : grid) (npc_turn : bool) : bool :=
  match check_winner b with
  | Some w => cell_eqb w player
  | None =>
      match n with
      | 0 => false
      | S n' =>
          if is_full b then false
          else if npc_turn then
            every (fun rc =>
                forces_win_within n' (set_grid b (fst rc) (snd rc) npc) false)
              (available_moves b)
          else
            some (fun rc =>
                forces_win_within n' (set_grid b (fst rc) (snd rc) player) true)
              (available_moves b)
      end
  end.

Definition opponent_forces_win (b : grid) (npc_turn : bool) : bool :=
  forces_win_within (count_empty b) b npc_turn.

(** The score the loop of [hard_move] gives the empty cell [rc], for the
    search [rec]. *)
Definition score_with (rec : grid -> Z -> bool -> Z -> Z -> option (Z * grid))
           (b : grid) (rc : nat * nat) : option Z :=
  match rec (set_grid b (fst rc) (snd rc) npc) 0%Z false (- maxsize)%Z maxsize with
  | Some (score, _) => Some score
  | None => None
  end.

(** The score [hard_move] gives the empty cell [rc]. *)
Definition candidate_score (b : grid) (rc : nat * nat) : option Z :=
  score_with (minimax npc player search_fuel) b rc.

End GameValue.

(** The test of [check_winner] on one line. *)
Definition full_line (line : list cell) (s : cell) : Prop :=
  s <> Blank /\ nth 0 line Blank = s /\ count line s = 3.

(** What holds along the path from a new game: the board stays 3x3, the
    two symbols stay [X] and [O], and the counts follow the turn. *)
Definition path_invariant (g : TicTacToe) : Prop :=
  wf_grid (board g)
  /\ player_symbol g = X /\ npc_symbol g = O
  /\ ((current_player g = X /\ count_cells (board g) X = count_cells (board g) O)
      \/ (current_player g = O /\ count_cells (board g) X = S (count_cells (board g) O))).

(** A search that returns, returns the board it was given. *)
Definition restores (rec : grid -> Z -> bool -> Z -> Z -> option (Z * grid)) : Prop :=
  forall b depth m alpha beta v b',
    rec b depth m alpha beta = Some (v, b') -> b' = b.

(** A search that returns with more fuel what it returns with less. *)
Definition extends (rec1 rec2 : grid -> Z -> bool -> Z -> Z -> option (Z * grid)) : Prop :=
  forall b depth m alpha beta r,
    rec1 b depth m alpha beta = Some r -> rec2 b depth m alpha beta = Some r.

(** The two symbols are the two marks, one each. *)
Definition roles (npc player : cell) : Prop :=
  (npc = O /\ player = X) \/ (npc = X /\ player = O).

(* ------------------------------------------------------------------ *)
(** *** Enumeration of the 3x3 boards *)

Definition all_cells : list cell := [Blank; X; O].

Definition all_rows : list (list cell) :=
  flat_map (fun a => flat_map (fun b => map (fun c => [a; b; c]) all_cells) all_cells)
           all_cells.

Definition all_grids : list grid :=
  flat_map (fun r0 => flat_map (fun r1 => map (fun r2 => [r0; r1; r2]) all_rows) all_rows)
           all_rows.

Definition opt_move_eqb (a b : option (nat * nat)) : bool :=
  match a, b with
  | Some m, Some m' => move_eqb m m'
  | None, None => true
  | _, _ => false
  end.

Fixpoint row_eqb (a b : list cell) : bool :=
  match a, b with
  | [], [] => true
  | x :: a', y :: b' => cell_eqb x y && row_eqb a' b'
  | _, _ => false
  end.

Fixpoint grid_eqb (a b : grid) : bool :=
  match a, b with
  | [], [] => true
  | x :: a', y :: b' => row_eqb x y && grid_eqb a' b'
  | _, _ => false
  end.


(** [find_best_move] on a board without a complete line: the board comes
    back and the cell is the first one that completes a line. *)
Definition find_best_move_check (symbol : cell) (b : grid) : bool :=
  match check_winner b with
  | Some _ => true
  | None =>
      let (b', m) := find_best_move b symbol in
      grid_eqb b' b && opt_move_eqb m (first_completing b symbol)
  end.

(* ------------------------------------------------------------------ *)
(** *** Play and search *)

(** The counts say that the symbol [s] is to move ([X] moves first). *)
Definition to_move (s : cell) (b : grid) : bool :=
  match s with
  | X => count_cells b X =? count_cells b O
  | O => count_cells b X =? S (count_cells b O)
  | Blank => false
  end.

(** The value a search gives an empty cell, 0 standing for a missing
    one. *)
Definition value_of (score : nat * nat -> option Z) (rc : nat * nat) : Z :=
  match score rc with
  | Some t => t
  | None => 0%Z
  end.

(** What the result [v] of a search between the bounds [alpha] and
    [beta] says of the plain value [t]: a result at or below [alpha]
    bounds it above by [alpha], a result at or above [beta] bounds it
    below by [beta], and a result strictly between is the value. *)
Definition window_ok (alpha beta v t : Z) : Prop :=
  ((v <= alpha)%Z -> (t <= alpha)%Z)
  /\ ((beta <= v)%Z -> (beta <= t)%Z)
  /\ ((alpha < v < beta)%Z -> v = t).

(** The loop state of a maximizing node, after cells of plain value at
    most [T] (the fold of plain minimax over them). *)
Definition max_state (alpha beta m a T : Z) : Prop :=
  a = Z.max alpha m
  /\ ((a < beta)%Z -> ((m <= alpha)%Z -> (T <= alpha)%Z) /\ ((alpha < m)%Z -> m = T))
  /\ ((beta <= a)%Z -> (beta <= T)%Z).

(** The loop state of a minimizing node. *)
Definition min_state (alpha beta m bb T : Z) : Prop :=
  bb = Z.min beta m
  /\ ((alpha < bb)%Z -> ((beta <= m)%Z -> (beta <= T)%Z) /\ ((m < beta)%Z -> m = T))
  /\ ((bb <= alpha)%Z -> (T <= alpha)%Z).

(** The empty cells among [cells]. *)
Definition blank_cells (b : grid) (cells : list (nat * nat)) : list (nat * nat) :=
  filter (fun rc => cell_eqb (get b (fst rc) (snd rc)) Blank) cells.

(** The plain value, folded over the empty cells among [pre], of a
    maximizing and of a minimizing node. *)
Definition max_over (score : nat * nat -> option Z) (b : grid)
           (pre : list (nat * nat)) : Z :=
  fold_left Z.max (map (value_of score) (blank_cells b pre)) (- maxsize)%Z.

Definition min_over (score : nat * nat -> option Z) (b : grid)
           (pre : list (nat * nat)) : Z :=
  fold_left Z.min (map (value_of score) (blank_cells b pre)) maxsize.

(** What holds along a game in which [npc_symbol] plays [hard_move]:
    the other side has not won, and while the game is in progress the
    counts follow the turn and the other side cannot force a win. *)
Definition hard_invariant (g : TicTacToe) : Prop :=
  wf_grid (board g)
  /\ roles (npc_symbol g) (player_symbol g)
  /\ check_winner (board g) <> Some (player_symbol g)
  /\ (evaluate (board g) = InProgress ->
      to_move (current_player g) (board g) = true
      /\ opponent_forces_win (npc_symbol g) (player_symbol g) (board g)
           (cell_eqb (current_player g) (npc_symbol g)) = false).

(** The turns of a list of moves, each taken while the game is in
    progress. *)
Fixpoint play_moves (g : TicTacToe) (moves : list (Z * Z)) : option TicTacToe :=
  match moves with
  | [] => Some g
  | (row, col) :: rest =>
      match evaluate (board g) with
      | InProgress =>
          match turn g row col with
          | Some g' => play_moves g' rest
          | None => None
          end
      | _ => None
      end
  end.

(* ================================================================== *)
(** ** Rendering, and further notions the properties are stated with *)

(** The string a cell holds. *)
Definition cell_str (c : cell) : string :=
  match c with
  | Blank => " "
  | X => "X"
  | O => "O"
  end.




(** The first answer of [q] along a list. *)
Fixpoint first_some (A R : Type) (q : A -> option R) (xs : list A) : option R :=
  match xs with
  | [] => None
  | x :: xs' =>
      match q x with
      | Some r => Some r
      | None => first_some q xs'
      end
  end.

(** Cell [rc] is empty and [check_winner] reports [s] once [s] is placed
    there: the test of [find_best_move]. *)
Definition winning_cell (b : grid) (s : cell) (rc : nat * nat) : bool :=
  cell_eqb (get b (fst rc) (snd rc)) Blank
  && opt_cell_eqb (check_winner (set_grid b (fst rc) (snd rc) s)) s.

Section ForcedWin.

Variables npc player : cell.

(** The side [npc] can force a win within [n] further moves. *)
Fixpoint wins_within (n : nat) (b : grid) (npc_turn : bool) : bool :=
  match check_winner b with
  | Some w => cell_eqb w npc
  | None =>
      match n with
      | 0 => false
      | S n' =>
          if is_full b then false
          else if npc_turn then
            some (fun rc => wins_within n' (set_grid b (fst rc) (snd rc) npc) false)
                 (available_moves b)
          else
            every (fun rc => wins_within n' (set_grid b (fst rc) (snd rc) player) true)
                  (available_moves b)
      end
  end.

Definition strategy_forces_win (b : grid) (npc_turn : bool) : bool :=
  wins_within (count_empty b) b npc_turn.

End ForcedWin.

(** What holds along a game in which [npc_symbol] plays [hard_move] from
    a board where it can force a win: the game is in progress with the
    win still forced, or it is won. *)
Definition winning_invariant (g : TicTacToe) : Prop :=
  wf_grid (board g)
  /\ roles (npc_symbol g) (player_symbol g)
  /\ match evaluate (board g) with
     | InProgress =>
         to_move (current_player g) (board g) = true
         /\ strategy_forces_win (npc_symbol g) (player_symbol g) (board g)
              (cell_eqb (current_player g) (npc_symbol g)) = true
     | Win w => w = npc_symbol g
     | Draw => False
     end.

(** What the turns of a game keep: a 3x3 board and three symbols that
    are marks. *)
Definition marks_invariant (g : TicTacToe) : Prop :=
  wf_grid (board g)
  /\ current_player g <> Blank /\ player_symbol g <> Blank /\ npc_symbol g <> Blank.


(** What holds after [n] turns of a game started from a new game: the
    counts of the two symbols, the number of empty cells and, while the
    game goes on, the side to move. *)
Definition moves_invariant (n : nat) (g : TicTacToe) : Prop :=
  wf_grid (board g)
  /\ player_symbol g = X /\ npc_symbol g = O
  /\ count_cells (board g) X = Nat.div2 (S n)
  /\ count_cells (board g) O = Nat.div2 n
  /\ count_empty (board g) + n = 9
  /\ (evaluate (board g) = InProgress ->
      current_player g = if Nat.even n then X else O).

(** The message with which [play_game] ends the game after a move
    (lines 189-201); [None] when the game goes on. *)
Definition announce (self : TicTacToe) : option string :=
  match check_winner (board self) with
  | Some winner =>
      if cell_eqb winner (player_symbol self) then
        Some "Congratulations! You win!"%string
      else if cell_eqb winner (npc_symbol self) then
        Some "NPC wins! Better luck next time."%string
      else Some ("Player " ++ cell_str winner ++ " wins!")%string
  | None =>
      if is_full (board self) then Some "It's a tie!"%string else None
  end.

(** The test of [play_game] that gives the turn to the strategy
    (line 174). *)
Definition npc_to_move (self : TicTacToe) : bool :=
  play_with_npc self && cell_eqb (current_player self) (npc_symbol self).
(* ================================================================== *)
(** ** Shape of a board *)

Lemma wf_grid_shape (b : grid) :
  wf_grid b ->
  exists a0 a1 a2 a3 a4 a5 a6 a7 a8,
    b = [[a0; a1; a2]; [a3; a4; a5]; [a6; a7; a8]].
Proof.
  intros [Hlen Hrows].
  destruct b as [|r0 [|r1 [|r2 [|r3 b]]]]; simpl in Hlen; try discriminate.
  inversion Hrows as [|? ? H0 Hrows1]; subst.
  inversion Hrows1 as [|? ? H1 Hrows2]; subst.
  inversion Hrows2 as [|? ? H2 _]; subst.
  unfold wf_row in *.
  destruct r0 as [|a0 [|a1 [|a2 [|? ?]]]]; simpl in H0; try discriminate.
  destruct r1 as [|a3 [|a4 [|a5 [|? ?]]]]; simpl in H1; try discriminate.
  destruct r2 as [|a6 [|a7 [|a8 [|? ?]]]]; simpl in H2; try discriminate.
  now exists a0, a1, a2, a3, a4, a5, a6, a7, a8.
Qed.

Lemma shape_wf_grid (a0 a1 a2 a3 a4 a5 a6 a7 a8 : cell) :
  wf_grid [[a0; a1; a2]; [a3; a4; a5]; [a6; a7; a8]].
Proof. split; [reflexivity | repeat constructor]. Qed.

(** Replace a well-formed board by its nine cells. *)
Ltac open_grid b H :=
  let a0 := fresh "a0" in let a1 := fresh "a1" in let a2 := fresh "a2" in
  let a3 := fresh "a3" in let a4 := fresh "a4" in let a5 := fresh "a5" in
  let a6 := fresh "a6" in let a7 := fresh "a7" in let a8 := fresh "a8" in
  destruct (wf_grid_shape H) as (a0 & a1 & a2 & a3 & a4 & a5 & a6 & a7 & a8 & ->).

Lemma range3_lt (i : nat) : In i range3 <-> i < 3.
Proof.
  unfold range3; simpl; split.
  - intros [<-|[<-|[<-|[]]]]; lia.
  - intros H. destruct i as [|[|[|i]]]; auto; lia.
Qed.

(** Split an index below 3 into its three values. *)
Ltac index_cases i H :=
  destruct i as [|[|[|i]]]; [ | | | exfalso; clear - H; lia ].

Lemma cell_eqb_eq (a b : cell) : cell_eqb a b = true <-> a = b.
Proof. destruct a, b; simpl; split; intros; congruence. Qed.

Lemma cell_eqb_neq (a b : cell) : cell_eqb a b = false <-> a <> b.
Proof. destruct a, b; simpl; split; intros; congruence. Qed.

Lemma cell_eqb_refl (a : cell) : cell_eqb a a = true.
Proof. now destruct a. Qed.

Lemma set_grid_wf (b : grid) (r c : nat) (v : cell) :
  wf_grid b -> wf_grid (set_grid b r c v).
Proof.
  intros H. open_grid b H.
  destruct r as [|[|[|r]]]; destruct c as [|[|[|c]]]; apply shape_wf_grid.
Qed.

Lemma get_set_same (b : grid) (r c : nat) (v : cell) :
  wf_grid b -> r < 3 -> c < 3 -> get (set_grid b r c v) r c = v.
Proof.
  intros H Hr Hc. open_grid b H.
  index_cases r Hr; index_cases c Hc; reflexivity.
Qed.

Lemma get_set_other (b : grid) (r c r' c' : nat) (v : cell) :
  (r', c') <> (r, c) -> get (set_grid b r c v) r' c' = get b r' c'.
Proof.
  intros Hne. unfold get, set_grid.
  assert (Hupd : forall (A : Type) (l : list A) i j (x d : A),
             i <> j -> nth j (update l i x) d = nth j l d).
  { induction l as [|y l IH]; intros i j x d Hij; [reflexivity|].
    destruct i, j; simpl; try congruence; auto. }
  assert (Hsame : forall (A : Type) (l : list A) i (x d : A),
             i < length l -> nth i (update l i x) d = x).
  { induction l as [|y l IH]; intros i x d Hi; simpl in Hi; [lia|].
    destruct i; simpl; [reflexivity | apply IH; lia]. }
  assert (Hout : forall (A : Type) (l : list A) i (x : A),
             length l <= i -> update l i x = l).
  { induction l as [|y l IH]; intros i x Hi; [reflexivity|].
    destruct i; simpl in *; [lia | f_equal; apply IH; lia]. }
  destruct (Nat.eq_dec r' r) as [->|Hr].
  - destruct (Nat.lt_ge_cases r (length b)) as [Hlt|Hge].
    + rewrite Hsame by assumption. apply Hupd. congruence.
    + now rewrite Hout by assumption.
  - now rewrite Hupd by congruence.
Qed.

(** Undoing a placement on an empty cell gives the board back, whatever
    the shape of the lists. *)
Lemma set_grid_undo (b : grid) (r c : nat) (v : cell) :
  get b r c = Blank -> set_grid (set_grid b r c v) r c Blank = b.
Proof.
  unfold get, set_grid.
  assert (Hnth : forall (A : Type) (l : list A) i (x d : A),
             i < length l -> nth i (update l i x) d = x).
  { induction l as [|y l IH]; intros i x d Hi; simpl in Hi; [lia|].
    destruct i; simpl; [reflexivity | apply IH; lia]. }
  assert (Hout : forall (A : Type) (l : list A) i (x : A),
             length l <= i -> update l i x = l).
  { induction l as [|y l IH]; intros i x Hi; [reflexivity|].
    destruct i; simpl in *; [lia | f_equal; apply IH; lia]. }
  assert (Hupd2 : forall (A : Type) (l : list A) i (x y : A),
             update (update l i x) i y = update l i y).
  { induction l as [|z l IH]; intros i x y; [reflexivity|].
    destruct i; simpl; [reflexivity | f_equal; apply IH]. }
  assert (Hid : forall (A : Type) (l : list A) i (d : A),
             i < length l -> update l i (nth i l d) = l).
  { induction l as [|z l IH]; intros i d Hi; simpl in Hi; [lia|].
    destruct i; simpl; [reflexivity | f_equal; apply IH; lia]. }
  intros Hblank.
  destruct (Nat.lt_ge_cases r (length b)) as [Hr|Hr].
  - rewrite Hnth by assumption. rewrite !Hupd2.
    destruct (Nat.lt_ge_cases c (length (nth r b []))) as [Hc|Hc].
    + rewrite <- Hblank at 1. rewrite Hid by assumption.
      now apply Hid.
    + rewrite (Hout _ (nth r b [])) by assumption. now apply Hid.
  - now rewrite !(Hout _ b) by assumption.
Qed.

(* ================================================================== *)
(** ** [make_move] *)

Lemma in_bounds_dec (row col : Z) :
  ((0 <=? row)%Z && (row <? 3)%Z && ((0 <=? col)%Z && (col <? 3)%Z)) = true
  <-> (0 <= row < 3 /\ 0 <= col < 3)%Z.
Proof. rewrite !andb_true_iff, !Z.leb_le, !Z.ltb_lt. lia. Qed.

Lemma make_move_ok (g : TicTacToe) (row col : Z) (v : bool) (g' : TicTacToe) :
  make_move g row col = (Ok v, g') ->
  v = true /\ (0 <= row < 3 /\ 0 <= col < 3)%Z
  /\ get (board g) (Z.to_nat row) (Z.to_nat col) = Blank
  /\ g' = set_cell g (Z.to_nat row) (Z.to_nat col) (current_player g).
Proof.
  unfold make_move.
  destruct ((0 <=? row)%Z && (row <? 3)%Z && ((0 <=? col)%Z && (col <? 3)%Z)) eqn:Hb;
    simpl; [|discriminate].
  destruct (cell_eqb (get (board g) (Z.to_nat row) (Z.to_nat col)) Blank) eqn:Hc;
    simpl; [|discriminate].
  intros [= <- <-]. apply in_bounds_dec in Hb. apply cell_eqb_eq in Hc. auto.
Qed.

(** C5: [make_move] raises the out-of-bounds error when [row] or [col]
    is outside [0,3), raises the occupied-cell error when the target in
    bounds is not empty, and is accepted when the target in bounds is
    empty: it then returns [True] with the current player's symbol
    written in the target cell.  It leaves the object as it was whenever
    it raises, and on success has written the current player's symbol in
    the target cell and changed nothing else. *)
Theorem make_move_contract (g : TicTacToe) (row col : Z) :
  wf_grid (board g) ->
  (~ (0 <= row < 3 /\ 0 <= col < 3)%Z ->
     make_move g row col = (Raise OutOfBounds, g))
  /\ ((0 <= row < 3 /\ 0 <= col < 3)%Z ->
      get (board g) (Z.to_nat row) (Z.to_nat col) <> Blank ->
      make_move g row col = (Raise CellOccupied, g))
  /\ ((0 <= row < 3 /\ 0 <= col < 3)%Z ->
      get (board g) (Z.to_nat row) (Z.to_nat col) = Blank ->
      make_move g row col
      = (Ok true, set_cell g (Z.to_nat row) (Z.to_nat col) (current_player g)))
  /\ (forall e g', make_move g row col = (Raise e, g') -> g' = g)
  /\ (forall v g', make_move g row col = (Ok v, g') ->
        v = true
        /\ (0 <= row < 3 /\ 0 <= col < 3)%Z
        /\ get (board g) (Z.to_nat row) (Z.to_nat col) = Blank
        /\ get (board g') (Z.to_nat row) (Z.to_nat col) = current_player g
        /\ (forall r' c', (r', c') <> (Z.to_nat row, Z.to_nat col) ->
                          get (board g') r' c' = get (board g) r' c')
        /\ g' = with_board g (board g')
        /\ wf_grid (board g')).
Proof.
  intros Hwf. split; [|split; [|split; [|split]]].
  - intros Hout. unfold make_move.
    destruct ((0 <=? row)%Z && (row <? 3)%Z && ((0 <=? col)%Z && (col <? 3)%Z)) eqn:Hb;
      [apply in_bounds_dec in Hb; contradiction | reflexivity].
  - intros Hin Hocc. unfold make_move.
    apply in_bounds_dec in Hin. rewrite Hin. simpl.
    apply cell_eqb_neq in Hocc. now rewrite Hocc.
  - intros Hin Hblank. unfold make_move.
    apply in_bounds_dec in Hin. rewrite Hin, Hblank. reflexivity.
  - intros e g'. unfold make_move.
    destruct (negb _); [now intros [= _ <-]|].
    destruct (negb _); [now intros [= _ <-]|discriminate].
  - intros v g' H. apply make_move_ok in H.
    destruct H as (Hv & Hin & Hblank & ->). simpl.
    split; [assumption|]. split; [assumption|]. split; [assumption|].
    split; [apply get_set_same; [assumption| |]; lia|].
    split; [intros r' c' Hne; now apply get_set_other|].
    split; [reflexivity | now apply set_grid_wf].
Qed.

(** On a new game: the call (3,0) is out of bounds; the call (1,1) is
    accepted and writes [X] there and nowhere else; the same call on the
    object it leaves finds the cell taken. *)
Lemma make_move_contract_witness :
  let g := new_game true "hard" in
  let g1 := set_cell g 1 1 X in
  wf_grid (board g)
  /\ make_move g 3 0 = (Raise OutOfBounds, g)
  /\ make_move g 1 1 = (Ok true, g1)
  /\ get (board g1) 1 1 = X
  /\ (forall r' c', (r', c') <> (1, 1) -> get (board g1) r' c' = get (board g) r' c')
  /\ make_move g1 1 1 = (Raise CellOccupied, g1).
Proof.
  pose proof (make_move_contract (new_game true "hard") 3 0
                (shape_wf_grid _ _ _ _ _ _ _ _ _)) as (Hout & _).
  pose proof (make_move_contract (new_game true "hard") 1 1
                (shape_wf_grid _ _ _ _ _ _ _ _ _)) as (_ & _ & Hok & _ & Hdone).
  pose proof (make_move_contract (set_cell (new_game true "hard") 1 1 X) 1 1
                (shape_wf_grid _ _ _ _ _ _ _ _ _)) as (_ & Hocc & _).
  assert (Hcall : make_move (new_game true "hard") 1 1
                  = (Ok true, set_cell (new_game true "hard") 1 1 X))
    by (apply Hok; [lia | reflexivity]).
  destruct (Hdone _ _ Hcall) as (_ & _ & _ & Hcell & Hothers & _).
  split; [apply shape_wf_grid|]. split; [apply Hout; lia|].
  split; [exact Hcall|]. split; [exact Hcell|]. split; [exact Hothers|].
  apply Hocc; [lia | discriminate].
Defined.

(* ================================================================== *)
(** ** Counting cells *)

Lemma count_update (l : list cell) (i : nat) (v s : cell) :
  i < length l ->
  count (update l i v) s + (if cell_eq_dec (nth i l Blank) s then 1 else 0)
  = count l s + (if cell_eq_dec v s then 1 else 0).
Proof.
  unfold count. revert i.
  induction l as [|y l IH]; intros i Hi; simpl in Hi; [lia|].
  destruct i; simpl.
  - destruct (cell_eq_dec v s), (cell_eq_dec y s); lia.
  - specialize (IH i ltac:(lia)). destruct (cell_eq_dec y s); lia.
Qed.

Lemma count_concat_update (b : grid) (r : nat) (row : list cell) (s : cell) :
  r < length b ->
  count (concat (update b r row)) s + count (nth r b []) s
  = count (concat b) s + count row s.
Proof.
  unfold count. revert r.
  induction b as [|y b IH]; intros r Hr; simpl in Hr; [lia|].
  destruct r; simpl; rewrite !count_occ_app.
  - lia.
  - specialize (IH r ltac:(lia)). lia.
Qed.

Lemma count_cells_set (b : grid) (r c : nat) (v s : cell) :
  wf_grid b -> r < 3 -> c < 3 -> get b r c = Blank ->
  count_cells (set_grid b r c v) s + (if cell_eq_dec Blank s then 1 else 0)
  = count_cells b s + (if cell_eq_dec v s then 1 else 0).
Proof.
  intros Hwf Hr Hc Hblank. unfold count_cells, set_grid.
  assert (Hlen : r < length b) by (destruct Hwf as [-> _]; assumption).
  assert (Hrow : c < length (nth r b [])).
  { destruct Hwf as [_ Hrows]. rewrite Forall_forall in Hrows.
    rewrite (Hrows (nth r b [])); [assumption | now apply nth_In]. }
  pose proof (count_concat_update b (update (nth r b []) c v) s Hlen) as H1.
  pose proof (count_update (nth r b []) v s Hrow) as H2.
  unfold get in Hblank. rewrite Hblank in H2. lia.
Qed.

(* ================================================================== *)
(** ** The controlled mutation path *)

Lemma path_invariant_init (p : bool) (d : string) : path_invariant (new_game p d).
Proof.
  unfold path_invariant, new_game; simpl.
  repeat split; [repeat constructor | left; split; reflexivity].
Qed.

Lemma path_invariant_step (g : TicTacToe) (row col : Z) (g' : TicTacToe) :
  path_invariant g -> make_move g row col = (Ok true, g') ->
  path_invariant (switch_player g').
Proof.
  intros (Hwf & Hp & Hn & Hc) Hmove.
  apply make_move_ok in Hmove. destruct Hmove as (_ & Hin & Hblank & ->).
  assert (Hr : Z.to_nat row < 3) by lia.
  assert (Hcol : Z.to_nat col < 3) by lia.
  pose proof (count_cells_set (current_player g) X Hwf Hr Hcol Hblank) as HX.
  pose proof (count_cells_set (current_player g) O Hwf Hr Hcol Hblank) as HO.
  unfold path_invariant, switch_player; simpl.
  split; [now apply set_grid_wf|]. split; [assumption|]. split; [assumption|].
  rewrite Hp, Hn.
  destruct Hc as [[Hcur Heq]|[Hcur Heq]]; rewrite Hcur in *; simpl in *.
  - right. split; [reflexivity|]. lia.
  - left. split; [reflexivity|]. lia.
Qed.

Lemma reachable_invariant (p : bool) (d : string) (g : TicTacToe) :
  reachable (new_game p d) g -> path_invariant g.
Proof.
  induction 1 as [|g row col g' _ IH Hmove].
  - apply path_invariant_init.
  - eapply path_invariant_step; eassumption.
Qed.

(** C9: in every state reached from a new game by accepted moves, each
    followed by [switch_player], the board holds as many [X] as [O], or
    exactly one [X] more. *)
Theorem counts_balanced (p : bool) (d : string) (g : TicTacToe) :
  reachable (new_game p d) g ->
  count_cells (board g) X = count_cells (board g) O
  \/ count_cells (board g) X = count_cells (board g) O + 1.
Proof.
  intros H. apply reachable_invariant in H.
  destruct H as (_ & _ & _ & [[_ H]|[_ H]]); [left | right]; lia.
Qed.

Lemma counts_balanced_witness :
  let g1 := set_cell (new_game true "hard") 1 1 X in
  reachable (new_game true "hard") (switch_player g1)
  /\ (count_cells (board (switch_player g1)) X = count_cells (board (switch_player g1)) O
      \/ count_cells (board (switch_player g1)) X
         = count_cells (board (switch_player g1)) O + 1).
Proof.
  assert (H : reachable (new_game true "hard")
                (switch_player (set_cell (new_game true "hard") 1 1 X))).
  { apply (@reach_move _ (new_game true "hard") 1%Z 1%Z); [constructor | reflexivity]. }
  split; [exact H|].
  exact (counts_balanced H).
Defined.

(* ================================================================== *)
(** ** Terminal-state detection *)

Lemma scan_lines_head (line : list cell) (rest : list (list cell)) :
  (exists s, full_line line s /\ scan_lines (line :: rest) = Some s)
  \/ ((forall s, ~ full_line line s) /\ scan_lines (line :: rest) = scan_lines rest).
Proof.
  simpl.
  destruct (count line (nth 0 line Blank) =? 3) eqn:Hc; simpl.
  - destruct (cell_eqb (nth 0 line Blank) Blank) eqn:Hb; simpl.
    + right. split; [|reflexivity]. intros s (Hs & Hh & _).
      apply cell_eqb_eq in Hb. congruence.
    + left. exists (nth 0 line Blank). split; [|reflexivity].
      apply Nat.eqb_eq in Hc. apply cell_eqb_neq in Hb. now repeat split.
  - right. split; [|reflexivity]. intros s (_ & Hh & Hn).
    apply Nat.eqb_neq in Hc. congruence.
Qed.

Lemma full_line_unique (line : list cell) (s s' : cell) :
  full_line line s -> full_line line s' -> s = s'.
Proof. intros (_ & H & _) (_ & H' & _). congruence. Qed.

Lemma scan_lines_some (ls : list (list cell)) (s : cell) :
  scan_lines ls = Some s <->
  exists k, k < length ls /\ full_line (nth k ls []) s
            /\ forall j s', j < k -> ~ full_line (nth j ls []) s'.
Proof.
  induction ls as [|line rest IH].
  - simpl. split; [discriminate | intros (k & Hk & _); lia].
  - destruct (scan_lines_head line rest) as [(s0 & Hfull & ->)|(Hnone & ->)].
    + split.
      * intros [= <-]. exists 0. simpl. repeat split; try apply Hfull; lia.
      * intros (k & _ & Hk & Hfirst). f_equal.
        destruct k as [|k]; [exact (full_line_unique Hfull Hk)|].
        exfalso. apply (Hfirst 0 s0); [lia | exact Hfull].
    + rewrite IH. split.
      * intros (k & Hlt & Hk & Hfirst). exists (S k). simpl.
        split; [lia|]. split; [assumption|].
        intros [|j] s' Hj; [apply Hnone | apply Hfirst; lia].
      * intros (k & Hlt & Hk & Hfirst).
        destruct k as [|k]; [exfalso; exact (Hnone _ Hk)|].
        exists k. simpl in Hlt, Hk. split; [lia|]. split; [assumption|].
        intros j s' Hj. apply (Hfirst (S j) s'). lia.
Qed.

Lemma scan_lines_none (ls : list (list cell)) :
  scan_lines ls = None <-> forall k s, k < length ls -> ~ full_line (nth k ls []) s.
Proof.
  induction ls as [|line rest IH].
  - simpl. split; [intros _ k s Hk; lia | reflexivity].
  - destruct (scan_lines_head line rest) as [(s0 & Hfull & ->)|(Hnone & ->)].
    + split; [discriminate|]. intros H. exfalso.
      apply (H 0 s0); [simpl; lia | exact Hfull].
    + rewrite IH. split.
      * intros H [|k] s Hk; [apply Hnone | apply H; simpl in Hk; lia].
      * intros H k s Hk. apply (H (S k) s). simpl. lia.
Qed.

(** On a 3x3 board the list [lines] is the eight coordinate lines read
    off the board. *)
Lemma lines_coords (b : grid) :
  wf_grid b ->
  lines b = map (map (fun rc => get b (fst rc) (snd rc))) line_coords.
Proof. intros H. open_grid b H. reflexivity. Qed.

Lemma full_line_three (b : grid) (p q r : nat * nat) (s : cell) :
  full_line (map (fun rc => get b (fst rc) (snd rc)) [p; q; r]) s
  <-> line_holds b s [p; q; r].
Proof.
  unfold full_line, line_holds, count. simpl.
  split.
  - intros (Hs & Hp & Hn). split; [assumption|].
    destruct (cell_eq_dec (get b (fst p) (snd p)) s);
      destruct (cell_eq_dec (get b (fst q) (snd q)) s);
      destruct (cell_eq_dec (get b (fst r) (snd r)) s); try discriminate.
    intros rc [<-|[<-|[<-|[]]]]; assumption.
  - intros (Hs & H). split; [assumption|].
    rewrite (H p), (H q), (H r) by auto.
    split; [reflexivity|]. destruct (cell_eq_dec s s); congruence.
Qed.

Lemma full_line_coords (b : grid) (k : nat) (s : cell) :
  k < 8 ->
  full_line (nth k (map (map (fun rc => get b (fst rc) (snd rc))) line_coords) []) s
  <-> line_holds b s (nth k line_coords []).
Proof.
  intros Hk.
  do 8 (destruct k as [|k]; [apply full_line_three|]). lia.
Qed.

Lemma check_winner_some (b : grid) (s : cell) :
  wf_grid b ->
  check_winner b = Some s <->
  exists k, k < 8 /\ line_holds b s (nth k line_coords [])
            /\ forall j s', j < k -> ~ line_holds b s' (nth j line_coords []).
Proof.
  intros Hwf. unfold check_winner. rewrite (lines_coords Hwf), scan_lines_some.
  split; intros (k & Hk & Hfull & Hfirst); exists k; simpl in Hk.
  - split; [assumption|]. split; [now apply full_line_coords|].
    intros j s' Hj Hl. apply (Hfirst j s' Hj). apply full_line_coords; [lia | assumption].
  - split; [assumption|]. split; [now apply full_line_coords|].
    intros j s' Hj Hl. apply (Hfirst j s' Hj). apply full_line_coords in Hl; [assumption | lia].
Qed.

Lemma check_winner_none (b : grid) :
  wf_grid b -> check_winner b = None <-> no_complete_line b.
Proof.
  intros Hwf. unfold check_winner, no_complete_line.
  rewrite (lines_coords Hwf), scan_lines_none. simpl.
  split; intros H k s Hk Hl; apply (H k s Hk).
  - now apply full_line_coords.
  - now apply full_line_coords in Hl.
Qed.

Lemma check_winner_symbol (b : grid) (s : cell) :
  check_winner b = Some s -> s <> Blank.
Proof.
  unfold check_winner. rewrite scan_lines_some.
  intros (k & _ & (Hs & _) & _). exact Hs.
Qed.

Lemma is_full_spec (b : grid) :
  wf_grid b ->
  is_full b = true <-> forall r c, r < 3 -> c < 3 -> get b r c <> Blank.
Proof.
  intros Hwf. open_grid b Hwf. unfold is_full, get. simpl.
  rewrite !andb_true_iff, !negb_true_iff, !cell_eqb_neq.
  split.
  - intros H r c Hr Hc. index_cases r Hr; index_cases c Hc; simpl; tauto.
  - intros H.
    pose proof (H 0 0). pose proof (H 0 1). pose proof (H 0 2).
    pose proof (H 1 0). pose proof (H 1 1). pose proof (H 1 2).
    pose proof (H 2 0). pose proof (H 2 1). pose proof (H 2 2).
    simpl in *. repeat split; auto.
Qed.

(** C2: on every 3x3 board [check_winner] returns the symbol of the
    first of the eight lines (rows 0, 1, 2, columns 0, 1, 2, main
    diagonal, anti-diagonal) whose three cells hold one non-empty symbol,
    and no winner when there is no such line; the outcome is a draw
    exactly when there is no such line and the board is full, and the
    game is in progress exactly when there is no such line and an empty
    cell remains. *)
Theorem check_winner_first_line (b : grid) :
  wf_grid b ->
  (forall s, check_winner b = Some s <->
     exists k, k < 8 /\ line_holds b s (nth k line_coords [])
               /\ forall j s', j < k -> ~ line_holds b s' (nth j line_coords []))
  /\ (check_winner b = None <-> no_complete_line b)
  /\ (is_full b = true <-> forall r c, r < 3 -> c < 3 -> get b r c <> Blank)
  /\ (forall s, evaluate b = Win s <-> check_winner b = Some s)
  /\ (evaluate b = Draw <-> no_complete_line b /\ is_full b = true)
  /\ (evaluate b = InProgress <-> no_complete_line b /\ is_full b = false).
Proof.
  intros Hwf.
  split; [intros s; now apply check_winner_some|].
  split; [now apply check_winner_none|].
  split; [now apply is_full_spec|].
  pose proof (check_winner_none Hwf) as Hnone.
  unfold evaluate.
  destruct (check_winner b) as [w|] eqn:Hw.
  - split; [intros s; split; congruence|].
    split; (split; [discriminate|]); intros [H _]; apply Hnone in H; discriminate.
  - assert (Hno : no_complete_line b) by now apply Hnone.
    split; [intros s; destruct (is_full b); split; discriminate|].
    destruct (is_full b); split; split; auto; try discriminate; intros [_ H]; discriminate.
Qed.

(** A board with two complete lines: the row of [X] is found before the
    row of [O]. *)
Lemma check_winner_first_line_witness :
  let b := [[X; X; X]; [O; O; O]; [Blank; Blank; Blank]] in
  wf_grid b /\ check_winner b = Some X
  /\ exists k, k < 8 /\ line_holds b X (nth k line_coords [])
               /\ forall j s', j < k -> ~ line_holds b s' (nth j line_coords []).
Proof.
  split; [apply shape_wf_grid|]. split; [reflexivity|].
  apply (proj1 (check_winner_first_line (shape_wf_grid X X X O O O Blank Blank Blank))).
  reflexivity.
Defined.

(* ================================================================== *)
(** ** Loops *)

Section LoopLemmas.

Variables A St : Type.

Lemma for_in_fuel_total (I : St -> Prop) (xs : list A)
      (body : A -> St -> option (St * bool)) (s : St) :
  I s ->
  (forall x s, In x xs -> I s -> exists s' f, body x s = Some (s', f) /\ I s') ->
  exists s', for_in_fuel xs body s = Some s' /\ I s'.
Proof.
  revert s. induction xs as [|x xs IH]; intros s Hs Hbody; simpl.
  - now exists s.
  - destruct (Hbody x s (or_introl eq_refl) Hs) as (s' & f & -> & Hs').
    destruct f; [now exists s'|].
    apply IH; [assumption|]. intros y t Hy. apply Hbody. now right.
Qed.

Lemma for_in_fuel_post (I : St -> Prop) (xs : list A)
      (body : A -> St -> option (St * bool)) (s s' : St) :
  I s ->
  (forall x s s' f, I s -> body x s = Some (s', f) -> I s') ->
  for_in_fuel xs body s = Some s' -> I s'.
Proof.
  intros Hs Hbody. revert s Hs.
  induction xs as [|x xs IH]; intros s Hs; simpl.
  - now intros [= <-].
  - destruct (body x s) as [[t f]|] eqn:Hb; [|discriminate].
    pose proof (Hbody x s t f Hs Hb) as Ht.
    destruct f; [now intros [= <-] | now apply IH].
Qed.

Lemma for_in_fuel_mono (xs : list A) (body1 body2 : A -> St -> option (St * bool))
      (s r : St) :
  (forall x s r, body1 x s = Some r -> body2 x s = Some r) ->
  for_in_fuel xs body1 s = Some r -> for_in_fuel xs body2 s = Some r.
Proof.
  intros Hbody. revert s.
  induction xs as [|x xs IH]; intros s; simpl; [auto|].
  destruct (body1 x s) as [[t f]|] eqn:Hb; [|discriminate].
  rewrite (Hbody _ _ _ Hb). destruct f; auto.
Qed.

End LoopLemmas.

Section ScanLemmas.

Variable St : Type.

Lemma scan_rows_total (I : St -> Prop)
      (body : nat -> nat -> St -> option (St * bool)) (s : St) :
  I s ->
  (forall row col s, row < 3 -> col < 3 -> I s ->
     exists s' f, body row col s = Some (s', f) /\ I s') ->
  exists s', scan_rows body s = Some s' /\ I s'.
Proof.
  intros Hs Hbody. unfold scan_rows.
  apply for_in_fuel_total; [assumption|].
  intros row t Hrow Ht. apply range3_lt in Hrow.
  destruct (@for_in_fuel_total nat St I range3 (body row) t Ht) as (t' & -> & Ht').
  - intros col u Hcol. apply range3_lt in Hcol. now apply Hbody.
  - now exists t', false.
Qed.

Lemma scan_rows_post (I : St -> Prop)
      (body : nat -> nat -> St -> option (St * bool)) (s s' : St) :
  I s ->
  (forall row col s s' f, I s -> body row col s = Some (s', f) -> I s') ->
  scan_rows body s = Some s' -> I s'.
Proof.
  intros Hs Hbody. unfold scan_rows.
  apply for_in_fuel_post; [assumption|].
  intros row t t' f Ht.
  destruct (for_in_fuel range3 (body row) t) as [u|] eqn:Hin; [|discriminate].
  intros [= <- _].
  eapply for_in_fuel_post; [exact Ht | | exact Hin].
  intros col; apply Hbody.
Qed.

Lemma scan_rows_mono (body1 body2 : nat -> nat -> St -> option (St * bool)) (s r : St) :
  (forall row col s r, body1 row col s = Some r -> body2 row col s = Some r) ->
  scan_rows body1 s = Some r -> scan_rows body2 s = Some r.
Proof.
  intros Hbody. unfold scan_rows. apply for_in_fuel_mono.
  intros row t [t' f].
  destruct (for_in_fuel range3 (body1 row) t) as [u|] eqn:Hin; [|discriminate].
  intros [= <- <-].
  now rewrite (@for_in_fuel_mono _ _ range3 (body1 row) (body2 row) t u (Hbody row) Hin).
Qed.

End ScanLemmas.

Lemma for_in_state (A St R : Type) (I : St -> Prop) (xs : list A)
      (body : A -> St -> St * signal R) (s : St) :
  I s -> (forall x s, I s -> I (fst (body x s))) -> I (fst (for_in xs body s)).
Proof.
  intros Hs Hbody. revert s Hs.
  induction xs as [|x xs IH]; intros s Hs; simpl; [assumption|].
  pose proof (Hbody x s Hs) as Ht.
  destruct (body x s) as [t [| |r]]; simpl in *; auto.
Qed.

(* ================================================================== *)
(** ** The strategies leave the board as they found it *)

Lemma find_best_move_board (b : grid) (symbol : cell) :
  fst (find_best_move b symbol) = b.
Proof.
  unfold find_best_move.
  apply (@for_in_state nat grid (nat * nat) (fun b' => b' = b)); [reflexivity|].
  intros row b1 ->.
  assert (H : fst (for_in range3 (fun col b0 =>
            if cell_eqb (get b0 row col) Blank then
              if opt_cell_eqb (check_winner (set_grid b0 row col symbol)) symbol
              then (set_grid (set_grid b0 row col symbol) row col Blank, Returned (row, col))
              else (set_grid (set_grid b0 row col symbol) row col Blank, Normal)
            else (b0, @Normal (nat * nat))) b) = b).
  { apply (@for_in_state nat grid (nat * nat) (fun b' => b' = b)); [reflexivity|].
    intros col b1 ->.
    destruct (cell_eqb (get b row col) Blank) eqn:Hc; [|reflexivity].
    apply cell_eqb_eq in Hc.
    destruct (opt_cell_eqb _ _); simpl; now apply set_grid_undo. }
  cbv zeta.
  destruct (for_in range3 _ b) as [b' [m|]]; simpl in *; assumption.
Qed.

Lemma medium_move_board (npc player : cell) (rng : nat) (b : grid) :
  snd (medium_move npc player rng b) = b.
Proof.
  unfold medium_move.
  pose proof (find_best_move_board b npc) as H1.
  destruct (find_best_move b npc) as [b1 [m|]]; simpl in H1; subst b1; [reflexivity|].
  pose proof (find_best_move_board b player) as H2.
  destruct (find_best_move b player) as [b2 [m|]]; simpl in H2; subst b2; [reflexivity|].
  destruct (cell_eqb (get b 1 1) Blank); [reflexivity|].
  destruct (available_among b corners); [|reflexivity].
  destruct (available_among b sides); reflexivity.
Qed.

Lemma minimax_S (npc player : cell) (fuel : nat) (b : grid) (depth : Z)
      (m : bool) (alpha beta : Z) :
  minimax npc player (S fuel) b depth m alpha beta
  = if opt_cell_eqb (check_winner b) npc then Some ((10 - depth)%Z, b)
    else if opt_cell_eqb (check_winner b) player then Some ((depth - 10)%Z, b)
    else if is_full b then Some (0%Z, b)
    else if m then
      match scan_rows (max_cell npc (minimax npc player fuel) depth beta)
                      (b, (- maxsize)%Z, alpha) with
      | None => None
      | Some (b', max_eval, _) => Some (max_eval, b')
      end
    else
      match scan_rows (min_cell player (minimax npc player fuel) depth alpha)
                      (b, maxsize, beta) with
      | None => None
      | Some (b', min_eval, _) => Some (min_eval, b')
      end.
Proof. reflexivity. Qed.

Section SearchFrame.

Variables npc player : cell.

Lemma max_cell_board rec depth beta row col b st st' f :
  restores rec -> fst (fst st) = b ->
  max_cell npc rec depth beta row col st = Some (st', f) -> fst (fst st') = b.
Proof.
  intros Hrec Hst. destruct st as [[b0 m] a]; simpl in Hst; subst b0.
  unfold max_cell.
  destruct (cell_eqb (get b row col) Blank) eqn:Hc; [|now intros [= <- _]].
  destruct (rec _ _ _ _ _) as [[e b1]|] eqn:Hr; [|discriminate].
  apply Hrec in Hr. subst b1. intros [= <- _]. simpl.
  apply set_grid_undo. now apply cell_eqb_eq.
Qed.

Lemma min_cell_board rec depth alpha row col b st st' f :
  restores rec -> fst (fst st) = b ->
  min_cell player rec depth alpha row col st = Some (st', f) -> fst (fst st') = b.
Proof.
  intros Hrec Hst. destruct st as [[b0 m] a]; simpl in Hst; subst b0.
  unfold min_cell.
  destruct (cell_eqb (get b row col) Blank) eqn:Hc; [|now intros [= <- _]].
  destruct (rec _ _ _ _ _) as [[e b1]|] eqn:Hr; [|discriminate].
  apply Hrec in Hr. subst b1. intros [= <- _]. simpl.
  apply set_grid_undo. now apply cell_eqb_eq.
Qed.

Lemma hard_cell_board rec row col b st st' f :
  restores rec -> fst (fst st) = b ->
  hard_cell npc rec row col st = Some (st', f) -> fst (fst st') = b.
Proof.
  intros Hrec Hst. destruct st as [[b0 m] a]; simpl in Hst; subst b0.
  unfold hard_cell.
  destruct (cell_eqb (get b row col) Blank) eqn:Hc; [|now intros [= <- _]].
  destruct (rec _ _ _ _ _) as [[e b1]|] eqn:Hr; [|discriminate].
  apply Hrec in Hr. subst b1. apply cell_eqb_eq in Hc.
  destruct (e >? m)%Z; intros [= <- _]; simpl; now apply set_grid_undo.
Qed.

Lemma minimax_restores (fuel : nat) : restores (minimax npc player fuel).
Proof.
  induction fuel as [|fuel IH]; intros b depth m alpha beta v b';
    [discriminate|].
  rewrite minimax_S.
  destruct (opt_cell_eqb (check_winner b) npc); [now intros [= _ <-]|].
  destruct (opt_cell_eqb (check_winner b) player); [now intros [= _ <-]|].
  destruct (is_full b); [now intros [= _ <-]|].
  destruct m.
  - destruct (scan_rows _ _) as [[[b1 me] a]|] eqn:Hs; [|discriminate].
    intros [= _ <-].
    apply (scan_rows_post (fun st => fst (fst st) = b)) in Hs; [exact Hs|reflexivity|].
    intros row col s s' f Hb. now apply max_cell_board.
  - destruct (scan_rows _ _) as [[[b1 me] a]|] eqn:Hs; [|discriminate].
    intros [= _ <-].
    apply (scan_rows_post (fun st => fst (fst st) = b)) in Hs; [exact Hs|reflexivity|].
    intros row col s s' f Hb. now apply min_cell_board.
Qed.

Lemma hard_move_fuel_board (fuel : nat) (b : grid) m b' :
  hard_move_fuel npc player fuel b = Some (m, b') -> b' = b.
Proof.
  unfold hard_move_fuel, hard_move_loop.
  destruct (scan_rows _ _) as [[[b1 bs] bm]|] eqn:Hs; [|discriminate].
  intros [= _ <-].
  apply (scan_rows_post (fun st => fst (fst st) = b)) in Hs; [exact Hs|reflexivity|].
  intros row col s s' f Hb. apply hard_cell_board; [apply minimax_restores | exact Hb].
Qed.

End SearchFrame.

(* ================================================================== *)
(** ** Termination of the search *)

Lemma blank_cell_length (a : cell) (rc : nat * nat) :
  length (if cell_eqb a Blank then [rc] else []) = if cell_eq_dec a Blank then 1 else 0.
Proof. destruct a; reflexivity. Qed.

Lemma count_empty_blank (b : grid) :
  wf_grid b -> count_empty b = count_cells b Blank.
Proof.
  intros H. open_grid b H.
  unfold count_empty, available_moves, count_cells, count, get. simpl.
  rewrite !length_app, !blank_cell_length.
  repeat match goal with |- context [cell_eq_dec ?a Blank] => destruct (cell_eq_dec a Blank) end;
    reflexivity.
Qed.

Lemma count_empty_set (b : grid) (r c : nat) (s : cell) :
  wf_grid b -> r < 3 -> c < 3 -> get b r c = Blank -> s <> Blank ->
  S (count_empty (set_grid b r c s)) = count_empty b.
Proof.
  intros Hwf Hr Hc Hblank Hs.
  rewrite !count_empty_blank by (try apply set_grid_wf; assumption).
  pose proof (count_cells_set s Blank Hwf Hr Hc Hblank) as H.
  destruct (cell_eq_dec Blank Blank); [|congruence].
  destruct (cell_eq_dec s Blank); [contradiction|]. lia.
Qed.

Lemma count_empty_le (b : grid) : count_empty b <= 9.
Proof.
  unfold count_empty, available_moves. simpl.
  rewrite !length_app.
  repeat match goal with |- context [cell_eqb ?a Blank] => destruct (cell_eqb a Blank) end;
    simpl; lia.
Qed.

Section SearchTermination.

Variables npc player : cell.
Hypothesis npc_mark : npc <> Blank.
Hypothesis player_mark : player <> Blank.

Lemma minimax_total (fuel : nat) :
  forall b, wf_grid b -> count_empty b < fuel ->
  forall depth m alpha beta,
    exists v, minimax npc player fuel b depth m alpha beta = Some (v, b).
Proof.
  induction fuel as [|fuel IH]; intros b Hwf Hfuel depth m alpha beta; [lia|].
  rewrite minimax_S.
  destruct (opt_cell_eqb (check_winner b) npc); [eauto|].
  destruct (opt_cell_eqb (check_winner b) player); [eauto|].
  destruct (is_full b); [eauto|].
  destruct m.
  - destruct (@scan_rows_total (grid * Z * Z) (fun st => fst (fst st) = b)
                (max_cell npc (minimax npc player fuel) depth beta)
                (b, (- maxsize)%Z, alpha) eq_refl) as ([[b1 me] a] & -> & Hb).
    + intros row col [[b0 me] a] Hrow Hcol Hb; simpl in Hb; subst b0.
      unfold max_cell.
      destruct (cell_eqb (get b row col) Blank) eqn:Hc; [|eauto].
      apply cell_eqb_eq in Hc.
      pose proof (count_empty_set Hwf Hrow Hcol Hc npc_mark) as Hn.
      destruct (IH (set_grid b row col npc) (set_grid_wf row col npc Hwf)
                   ltac:(lia) (depth + 1)%Z false a beta) as (e & ->).
      eexists _, _. split; [reflexivity|]. simpl. now apply set_grid_undo.
    + simpl in Hb. subst b1. eauto.
  - destruct (@scan_rows_total (grid * Z * Z) (fun st => fst (fst st) = b)
                (min_cell player (minimax npc player fuel) depth alpha)
                (b, maxsize, beta) eq_refl) as ([[b1 me] a] & -> & Hb).
    + intros row col [[b0 me] a] Hrow Hcol Hb; simpl in Hb; subst b0.
      unfold min_cell.
      destruct (cell_eqb (get b row col) Blank) eqn:Hc; [|eauto].
      apply cell_eqb_eq in Hc.
      pose proof (count_empty_set Hwf Hrow Hcol Hc player_mark) as Hn.
      destruct (IH (set_grid b row col player) (set_grid_wf row col player Hwf)
                   ltac:(lia) (depth + 1)%Z true alpha a) as (e & ->).
      eexists _, _. split; [reflexivity|]. simpl. now apply set_grid_undo.
    + simpl in Hb. subst b1. eauto.
Qed.

Lemma hard_move_fuel_total (fuel : nat) (b : grid) :
  wf_grid b -> count_empty b <= fuel ->
  exists m, hard_move_fuel npc player fuel b = Some (m, b).
Proof.
  intros Hwf Hfuel. unfold hard_move_fuel, hard_move_loop.
  destruct (@scan_rows_total (grid * Z * option (nat * nat)) (fun st => fst (fst st) = b)
              (hard_cell npc (minimax npc player fuel))
              (b, (- maxsize)%Z, None) eq_refl) as ([[b1 bs] bm] & -> & Hb).
  - intros row col [[b0 bs] bm] Hrow Hcol Hb; simpl in Hb; subst b0.
    unfold hard_cell.
    destruct (cell_eqb (get b row col) Blank) eqn:Hc; [|eauto].
    apply cell_eqb_eq in Hc.
    pose proof (count_empty_set Hwf Hrow Hcol Hc npc_mark) as Hn.
    destruct (@minimax_total fuel (set_grid b row col npc) (set_grid_wf row col npc Hwf)
                 ltac:(lia) 0%Z false (- maxsize)%Z maxsize) as (e & ->).
    destruct (e >? bs)%Z; eexists _, _; (split; [reflexivity|]); simpl;
      now apply set_grid_undo.
  - simpl in Hb. subst b1. eauto.
Qed.

End SearchTermination.

Section FuelIndependence.

Variables npc player : cell.

Lemma max_cell_extends rec1 rec2 depth beta row col st r :
  extends rec1 rec2 ->
  max_cell npc rec1 depth beta row col st = Some r ->
  max_cell npc rec2 depth beta row col st = Some r.
Proof.
  intros Hrec. destruct st as [[b m] a]. unfold max_cell.
  destruct (cell_eqb (get b row col) Blank); [|auto].
  destruct (rec1 _ _ _ _ _) as [[e b1]|] eqn:Hr; [|discriminate].
  now rewrite (Hrec _ _ _ _ _ _ Hr).
Qed.

Lemma min_cell_extends rec1 rec2 depth alpha row col st r :
  extends rec1 rec2 ->
  min_cell player rec1 depth alpha row col st = Some r ->
  min_cell player rec2 depth alpha row col st = Some r.
Proof.
  intros Hrec. destruct st as [[b m] a]. unfold min_cell.
  destruct (cell_eqb (get b row col) Blank); [|auto].
  destruct (rec1 _ _ _ _ _) as [[e b1]|] eqn:Hr; [|discriminate].
  now rewrite (Hrec _ _ _ _ _ _ Hr).
Qed.

Lemma hard_cell_extends rec1 rec2 row col st r :
  extends rec1 rec2 ->
  hard_cell npc rec1 row col st = Some r ->
  hard_cell npc rec2 row col st = Some r.
Proof.
  intros Hrec. destruct st as [[b m] a]. unfold hard_cell.
  destruct (cell_eqb (get b row col) Blank); [|auto].
  destruct (rec1 _ _ _ _ _) as [[e b1]|] eqn:Hr; [|discriminate].
  now rewrite (Hrec _ _ _ _ _ _ Hr).
Qed.

Lemma minimax_fuel_step (fuel : nat) :
  extends (minimax npc player fuel) (minimax npc player (S fuel)).
Proof.
  induction fuel as [|fuel IH]; intros b depth m alpha beta r; [discriminate|].
  rewrite !minimax_S.
  destruct (opt_cell_eqb (check_winner b) npc); [auto|].
  destruct (opt_cell_eqb (check_winner b) player); [auto|].
  destruct (is_full b); [auto|].
  destruct m.
  - destruct (scan_rows (max_cell npc (minimax npc player fuel) depth beta) _)
      as [st|] eqn:Hs; [|discriminate].
    apply (@scan_rows_mono _ _ (max_cell npc (minimax npc player (S fuel)) depth beta)) in Hs.
    + now rewrite Hs.
    + intros row col s0 r0. now apply max_cell_extends.
  - destruct (scan_rows (min_cell player (minimax npc player fuel) depth alpha) _)
      as [st|] eqn:Hs; [|discriminate].
    apply (@scan_rows_mono _ _ (min_cell player (minimax npc player (S fuel)) depth alpha)) in Hs.
    + now rewrite Hs.
    + intros row col s0 r0. now apply min_cell_extends.
Qed.

Lemma minimax_fuel_le (fuel fuel' : nat) :
  fuel <= fuel' -> extends (minimax npc player fuel) (minimax npc player fuel').
Proof.
  induction 1 as [|k _ IH]; intros b depth m alpha beta r Hr; [assumption|].
  apply minimax_fuel_step. now apply IH.
Qed.

End FuelIndependence.

Lemma hard_move_fuel_le (npc player : cell) (fuel fuel' : nat) (b : grid) r :
  fuel <= fuel' ->
  hard_move_fuel npc player fuel b = Some r ->
  hard_move_fuel npc player fuel' b = Some r.
Proof.
  intros Hle. unfold hard_move_fuel, hard_move_loop.
  destruct (scan_rows (hard_cell npc (minimax npc player fuel)) _) as [st|] eqn:Hs;
    [|discriminate].
  apply (@scan_rows_mono _ _ (hard_cell npc (minimax npc player fuel'))) in Hs.
  - now rewrite Hs.
  - intros row col s0 r0. apply hard_cell_extends. now apply minimax_fuel_le.
Qed.

(** C10: [minimax] returns on every 3x3 board, for every depth and every
    pair of bounds: a recursive call is made on a board with one empty
    cell less, there are at most nine, and any fuel above the number of
    empty cells gives the same result; so [hard_move] returns too, and
    [medium_move] is a total function. *)
Theorem minimax_terminates (npc player : cell) (b : grid) :
  wf_grid b -> npc <> Blank -> player <> Blank ->
  count_empty b <= 9
  /\ (forall r c s, r < 3 -> c < 3 -> get b r c = Blank -> s <> Blank ->
        count_empty (set_grid b r c s) < count_empty b)
  /\ (forall depth m alpha beta,
        exists v, forall fuel, count_empty b < fuel ->
          minimax npc player fuel b depth m alpha beta = Some (v, b))
  /\ (exists mv, hard_move npc player b = Some (mv, b)
        /\ forall fuel, count_empty b <= fuel ->
             hard_move_fuel npc player fuel b = Some (mv, b))
  /\ (forall rng, exists r, medium_move npc player rng b = (r, b)).
Proof.
  intros Hwf Hn Hp.
  split; [apply count_empty_le|].
  split.
  { intros r c s Hr Hc Hblank Hs.
    pose proof (count_empty_set Hwf Hr Hc Hblank Hs). lia. }
  split.
  { intros depth m alpha beta.
    destruct (@minimax_total npc player Hn Hp (S (count_empty b)) b Hwf
                ltac:(lia) depth m alpha beta) as (v & Hv).
    exists v. intros fuel Hfuel.
    apply (@minimax_fuel_le npc player (S (count_empty b)) fuel); [lia | exact Hv]. }
  split.
  { destruct (@hard_move_fuel_total npc player Hn Hp (count_empty b) b Hwf (le_n _))
      as (mv & Hmv).
    exists mv. split.
    - unfold hard_move.
      apply (@hard_move_fuel_le npc player (count_empty b)); [|exact Hmv].
      pose proof (count_empty_le b). unfold search_fuel. lia.
    - intros fuel Hfuel.
      now apply (@hard_move_fuel_le npc player (count_empty b)). }
  intros rng. exists (fst (medium_move npc player rng b)).
  pose proof (medium_move_board npc player rng b) as H.
  destruct (medium_move npc player rng b) as [r0 b0]. simpl in *. now subst b0.
Qed.

Lemma minimax_terminates_witness :
  wf_grid empty_grid /\ O <> Blank /\ X <> Blank
  /\ exists v, forall fuel, count_empty empty_grid < fuel ->
       minimax O X fuel empty_grid 0%Z true (- maxsize)%Z maxsize = Some (v, empty_grid).
Proof.
  split; [apply shape_wf_grid|]. split; [discriminate|]. split; [discriminate|].
  apply (@minimax_terminates O X empty_grid (shape_wf_grid _ _ _ _ _ _ _ _ _));
    discriminate.
Defined.

(** C7: the decision procedures return with the board they were called
    on: [find_best_move], [medium_move], every call of [minimax] (for
    every pair of bounds, so with or without cutoffs) and [hard_move]
    have undone each placement they made. *)
Theorem strategies_restore_board (npc player : cell) (b : grid) :
  wf_grid b -> npc <> Blank -> player <> Blank ->
  (forall symbol, fst (find_best_move b symbol) = b)
  /\ (forall rng, snd (medium_move npc player rng b) = b)
  /\ (forall fuel depth m alpha beta,
        count_empty b < fuel ->
        exists v, minimax npc player fuel b depth m alpha beta = Some (v, b))
  /\ (exists mv, hard_move npc player b = Some (mv, b))
  /\ (forall difficulty rng r b',
        npc_move npc player difficulty rng b = Some (r, b') -> b' = b).
Proof.
  intros Hwf Hn Hp.
  split; [intros s; apply find_best_move_board|].
  split; [intros rng; apply medium_move_board|].
  split; [intros fuel depth m alpha beta Hfuel; now apply minimax_total|].
  split.
  { unfold hard_move. apply hard_move_fuel_total; try assumption.
    pose proof (count_empty_le b). unfold search_fuel. lia. }
  intros difficulty rng r b'. unfold npc_move.
  destruct (String.eqb difficulty "easy"); [now intros [= _ <-]|].
  destruct (String.eqb difficulty "medium").
  { pose proof (medium_move_board npc player rng b) as H.
    destruct (medium_move npc player rng b) as [r0 b0]. simpl in H.
    now intros [= _ <-]. }
  destruct (String.eqb difficulty "hard"); [|now intros [= _ <-]].
  destruct (hard_move npc player b) as [[mv b0]|] eqn:Hh; [|discriminate].
  intros [= _ <-]. now apply hard_move_fuel_board in Hh.
Qed.

(** A call whose bounds are crossed from the start cuts off in every
    row, and still hands the board back. *)
Lemma strategies_restore_board_witness :
  wf_grid empty_grid /\ O <> Blank /\ X <> Blank
  /\ exists v, minimax O X search_fuel empty_grid 0%Z true 5%Z (-5)%Z = Some (v, empty_grid).
Proof.
  split; [apply shape_wf_grid|]. split; [discriminate|]. split; [discriminate|].
  apply (@strategies_restore_board O X empty_grid (shape_wf_grid _ _ _ _ _ _ _ _ _));
    try discriminate.
  unfold search_fuel. pose proof (count_empty_le empty_grid). lia.
Defined.

(* ================================================================== *)
(** ** The strategies on a full board *)

Lemma full_cells (a0 a1 a2 a3 a4 a5 a6 a7 a8 : cell) :
  is_full [[a0; a1; a2]; [a3; a4; a5]; [a6; a7; a8]] = true ->
  a0 <> Blank /\ a1 <> Blank /\ a2 <> Blank /\ a3 <> Blank /\ a4 <> Blank
  /\ a5 <> Blank /\ a6 <> Blank /\ a7 <> Blank /\ a8 <> Blank.
Proof.
  unfold is_full. simpl.
  rewrite !andb_true_iff, !negb_true_iff, !cell_eqb_neq. tauto.
Qed.

(** Split a full 3x3 board into the 512 boards it can be. *)
Ltac full_cases b Hwf Hfull :=
  open_grid b Hwf;
  destruct (full_cells _ _ _ _ _ _ _ _ _ Hfull) as (? & ? & ? & ? & ? & ? & ? & ? & ?);
  clear Hfull;
  repeat match goal with
         | H : ?a <> Blank |- _ =>
             is_var a; destruct a; [exfalso; apply H; reflexivity | clear H | clear H]
         end.

(** C8, as the code has it: on a full board [random_move] and
    [medium_move] raise the error of [random.choice] on an empty
    sequence, and [hard_move] raises nothing: it returns [None].  No
    strategy returns a cell. *)
Theorem full_board_no_move (npc player : cell) (b : grid) :
  wf_grid b -> is_full b = true ->
  (forall rng, random_move rng b = Raise empty_sequence)
  /\ (forall rng, medium_move npc player rng b = (Raise empty_sequence, b))
  /\ hard_move npc player b = Some (None, b)
  /\ (forall difficulty rng,
        npc_move npc player difficulty rng b = Some (Raise empty_sequence, b)
        \/ npc_move npc player difficulty rng b = Some (Ok None, b)).
Proof.
  intros Hwf Hfull.
  assert (Hr : forall rng, random_move rng b = Raise empty_sequence).
  { intros rng. full_cases b Hwf Hfull; reflexivity. }
  assert (Hm : forall rng, medium_move npc player rng b = (Raise empty_sequence, b)).
  { intros rng. full_cases b Hwf Hfull; reflexivity. }
  assert (Hh : hard_move npc player b = Some (None, b)).
  { full_cases b Hwf Hfull; reflexivity. }
  split; [exact Hr|]. split; [exact Hm|]. split; [exact Hh|].
  intros difficulty rng. unfold npc_move.
  rewrite Hr, Hm, Hh.
  destruct (String.eqb difficulty "easy"); [now left|].
  destruct (String.eqb difficulty "medium"); [now left|].
  destruct (String.eqb difficulty "hard"); [now right | now left].
Qed.

Lemma full_board_no_move_witness :
  let b := [[X; O; X]; [X; O; O]; [O; X; X]] in
  wf_grid b /\ is_full b = true /\ hard_move O X b = Some (None, b).
Proof.
  split; [apply shape_wf_grid|]. split; [reflexivity|].
  apply (@full_board_no_move O X [[X; O; X]; [X; O; O]; [O; X; X]]
           (shape_wf_grid _ _ _ _ _ _ _ _ _) eq_refl).
Defined.

(** C8 as stated fails: on a full board the call of [hard_move] does
    not raise. *)
Lemma full_board_counterexample :
  ~ (forall difficulty rng b, wf_grid b -> is_full b = true ->
       exists e b', npc_move O X difficulty rng b = Some (Raise e, b')).
Proof.
  intros H.
  destruct (H "hard"%string 0 [[X; O; X]; [X; O; O]; [O; X; X]]
              (shape_wf_grid _ _ _ _ _ _ _ _ _) eq_refl) as (e & b' & He).
  vm_compute in He. discriminate He.
Qed.

(* ================================================================== *)
(** ** Checking a property on every 3x3 board *)

Lemma In_all_cells (c : cell) : In c all_cells.
Proof. destruct c; simpl; auto. Qed.

Lemma In_all_rows (a b c : cell) : In [a; b; c] all_rows.
Proof.
  unfold all_rows.
  apply in_flat_map. exists a. split; [apply In_all_cells|].
  apply in_flat_map. exists b. split; [apply In_all_cells|].
  apply (in_map (fun c => [a; b; c])). apply In_all_cells.
Qed.

Lemma In_all_grids (b : grid) : wf_grid b -> In b all_grids.
Proof.
  intros H. open_grid b H. unfold all_grids.
  apply in_flat_map. exists [a0; a1; a2]. split; [apply In_all_rows|].
  apply in_flat_map. exists [a3; a4; a5]. split; [apply In_all_rows|].
  apply (in_map (fun r2 => [[a0; a1; a2]; [a3; a4; a5]; r2])). apply In_all_rows.
Qed.

Lemma all_grids_forall (P : grid -> bool) :
  forallb P all_grids = true -> forall b, wf_grid b -> P b = true.
Proof.
  intros H b Hwf. rewrite forallb_forall in H. apply H. now apply In_all_grids.
Qed.

Lemma row_eqb_eq (a b : list cell) : row_eqb a b = true -> a = b.
Proof.
  revert b. induction a as [|x a IH]; intros [|y b]; simpl; try discriminate; auto.
  rewrite andb_true_iff, cell_eqb_eq. intros [-> H]. f_equal. now apply IH.
Qed.

Lemma grid_eqb_eq (a b : grid) : grid_eqb a b = true -> a = b.
Proof.
  revert b. induction a as [|x a IH]; intros [|y b]; simpl; try discriminate; auto.
  rewrite andb_true_iff. intros [Hr H]. apply row_eqb_eq in Hr. subst. f_equal. now apply IH.
Qed.

Lemma move_eqb_eq (a b : nat * nat) : move_eqb a b = true <-> a = b.
Proof.
  destruct a, b. unfold move_eqb. simpl.
  rewrite andb_true_iff, !Nat.eqb_eq. split; [intros [-> ->] | intros [= -> ->]]; auto.
Qed.

Lemma opt_move_eqb_eq (a b : option (nat * nat)) : opt_move_eqb a b = true -> a = b.
Proof.
  destruct a, b; simpl; try discriminate; auto.
  intros H. f_equal. now apply move_eqb_eq.
Qed.

(* ================================================================== *)
(** ** The heuristic strategy *)

Lemma find_best_move_checked :
  forallb (find_best_move_check X) all_grids
  && forallb (find_best_move_check O) all_grids = true.
Proof. vm_cast_no_check (@eq_refl bool true). Qed.

Lemma find_best_move_first (b : grid) (symbol : cell) :
  wf_grid b -> symbol <> Blank -> check_winner b = None ->
  find_best_move b symbol = (b, first_completing b symbol).
Proof.
  intros Hwf Hs Hw.
  pose proof find_best_move_checked as H. apply andb_true_iff in H.
  assert (Hc : find_best_move_check symbol b = true).
  { destruct symbol; [congruence | |].
    - exact (all_grids_forall (find_best_move_check X) (proj1 H) Hwf).
    - exact (all_grids_forall (find_best_move_check O) (proj2 H) Hwf). }
  unfold find_best_move_check in Hc. rewrite Hw in Hc.
  destruct (find_best_move b symbol) as [b' m].
  apply andb_true_iff in Hc. destruct Hc as [Hb Hm].
  apply grid_eqb_eq in Hb. apply opt_move_eqb_eq in Hm. congruence.
Qed.

Lemma random_choice_in (A : Type) (rng : nat) (seq : list A) :
  seq <> [] -> exists x, random_choice rng seq = Ok x /\ In x seq.
Proof.
  destruct seq as [|y seq]; [congruence|]. intros _.
  eexists. split; [reflexivity|].
  apply nth_In. apply Nat.mod_upper_bound. simpl. lia.
Qed.

Lemma available_among_in (b : grid) (cs : list (nat * nat)) (m : nat * nat) :
  In m (available_among b cs) <-> In m cs /\ get b (fst m) (snd m) = Blank.
Proof. unfold available_among. now rewrite filter_In, cell_eqb_eq. Qed.

(** The centre, the corners and the sides are the nine cells. *)
Lemma no_position_no_move (b : grid) :
  wf_grid b ->
  cell_eqb (get b 1 1) Blank = false ->
  available_among b corners = [] -> available_among b sides = [] ->
  available_moves b = [].
Proof.
  intros Hwf. open_grid b Hwf.
  unfold available_among, available_moves, corners, sides, get. simpl.
  destruct (cell_eqb a0 Blank), (cell_eqb a1 Blank), (cell_eqb a2 Blank),
    (cell_eqb a3 Blank), (cell_eqb a4 Blank), (cell_eqb a5 Blank),
    (cell_eqb a6 Blank), (cell_eqb a7 Blank), (cell_eqb a8 Blank);
    simpl; intros; congruence.
Qed.

(** C3, on a board that has no complete line yet: [medium_move] returns
    the first cell in row-major order that completes a line of its own
    symbol; failing that, the first one that completes a line of the
    opponent; failing that, the centre if it is empty; failing that, an
    empty corner; failing that, an empty side. *)
Theorem medium_move_priority (npc player : cell) (rng : nat) (b : grid) :
  wf_grid b -> npc <> Blank -> player <> Blank ->
  check_winner b = None -> available_moves b <> [] ->
  match first_completing b npc with
  | Some m => medium_move npc player rng b = (Ok m, b)
  | None =>
      match first_completing b player with
      | Some m => medium_move npc player rng b = (Ok m, b)
      | None =>
          if cell_eqb (get b 1 1) Blank then
            medium_move npc player rng b = (Ok (1, 1), b)
          else if existsb (fun rc => cell_eqb (get b (fst rc) (snd rc)) Blank) corners then
            exists m, medium_move npc player rng b = (Ok m, b)
                      /\ In m corners /\ get b (fst m) (snd m) = Blank
          else
            exists m, medium_move npc player rng b = (Ok m, b)
                      /\ In m sides /\ get b (fst m) (snd m) = Blank
      end
  end.
Proof.
  intros Hwf Hn Hp Hw Hav. unfold medium_move.
  rewrite (find_best_move_first Hwf Hn Hw).
  destruct (first_completing b npc) as [m|]; [reflexivity|].
  rewrite (find_best_move_first Hwf Hp Hw).
  destruct (first_completing b player) as [m|]; [reflexivity|].
  destruct (cell_eqb (get b 1 1) Blank) eqn:Hc; [reflexivity|].
  destruct (existsb _ corners) eqn:Hex.
  - apply existsb_exists in Hex. destruct Hex as (c & Hin & Hb).
    assert (Hne : available_among b corners <> []).
    { intros He. assert (Hc' : In c (available_among b corners))
        by (apply available_among_in; split; [assumption | now apply cell_eqb_eq]).
      rewrite He in Hc'. contradiction. }
    destruct (random_choice_in rng Hne) as (m & Hm & Him).
    apply available_among_in in Him.
    destruct (available_among b corners) as [|x l] eqn:Hl; [congruence|].
    exists m. cbv beta iota zeta. rewrite Hm. tauto.
  - assert (Hcor : available_among b corners = []).
    { destruct (available_among b corners) as [|x l] eqn:Hl; [reflexivity|].
      assert (Hx : In x (available_among b corners)) by (rewrite Hl; now left).
      apply available_among_in in Hx. destruct Hx as [Hx1 Hx2].
      assert (Ht : existsb (fun rc => cell_eqb (get b (fst rc) (snd rc)) Blank) corners = true).
      { apply existsb_exists. exists x. split; [assumption | now apply cell_eqb_eq]. }
      congruence. }
    rewrite Hcor.
    assert (Hne : available_among b sides <> []).
    { intros He. apply Hav. now apply no_position_no_move. }
    destruct (random_choice_in rng Hne) as (m & Hm & Him).
    apply available_among_in in Him.
    destruct (available_among b sides) as [|x l] eqn:Hl; [congruence|].
    exists m. cbv beta iota zeta. rewrite Hm. tauto.
Qed.

(** The two boards of the specification, with the strategy playing [X]:
    it wins at (0,2) on the first and blocks at (0,2) on the second. *)
Lemma medium_move_priority_witness :
  (forall rng, medium_move X O rng [[X; X; Blank]; [O; O; Blank]; [Blank; Blank; Blank]]
               = (Ok (0, 2), [[X; X; Blank]; [O; O; Blank]; [Blank; Blank; Blank]]))
  /\ (forall rng, medium_move X O rng [[O; O; Blank]; [X; Blank; Blank]; [Blank; Blank; Blank]]
                  = (Ok (0, 2), [[O; O; Blank]; [X; Blank; Blank]; [Blank; Blank; Blank]])).
Proof.
  split; intros rng.
  - apply (@medium_move_priority X O rng
             [[X; X; Blank]; [O; O; Blank]; [Blank; Blank; Blank]]
             (shape_wf_grid _ _ _ _ _ _ _ _ _)); try discriminate; reflexivity.
  - apply (@medium_move_priority X O rng
             [[O; O; Blank]; [X; Blank; Blank]; [Blank; Blank; Blank]]
             (shape_wf_grid _ _ _ _ _ _ _ _ _)); try discriminate; reflexivity.
Defined.

(** C3 as stated fails on a board that already has a complete line: the
    row of [X] hides the line that [O] completes at (2,0), and the cell
    returned is (1,0). *)
Lemma medium_move_counterexample :
  let b := [[X; X; X]; [Blank; Blank; Blank]; [Blank; O; O]] in
  wf_grid b /\ available_moves b <> []
  /\ first_completing b O = Some (2, 0)
  /\ forall rng, fst (medium_move O X rng b) = Ok (1, 0).
Proof.
  split; [apply shape_wf_grid|]. split; [discriminate|]. split; [reflexivity|].
  intros rng. reflexivity.
Qed.

(* ================================================================== *)
(** ** Scores and top-level selection of the optimal strategy *)


(** Without [break] the two nested loops visit the nine cells in
    row-major order. *)
Lemma scan_rows_flat (St : Type) (body : nat -> nat -> St -> option (St * bool)) (s : St) :
  (forall row col s s' f, body row col s = Some (s', f) -> f = false) ->
  scan_rows body s
  = for_in_fuel cells_row_major (fun rc s => body (fst rc) (snd rc) s) s.
Proof.
  intros Hflag. unfold scan_rows, cells_row_major, range3.
  cbn [for_in_fuel fst snd].
  repeat match goal with
         | |- context [body ?r ?c ?s] =>
             let E := fresh "E" in
             destruct (body r c s) as [[? []]|] eqn:E;
             [ apply Hflag in E; discriminate E | clear E | reflexivity ]
         end.
  reflexivity.
Qed.

Section HardSelection.

Variables npc player : cell.
Variable rec : grid -> Z -> bool -> Z -> Z -> option (Z * grid).
Hypothesis rec_restores : restores rec.
Variable b : grid.

Lemma hard_cell_no_break row col st st' f :
  hard_cell npc rec row col st = Some (st', f) -> f = false.
Proof.
  destruct st as [[b0 bs] bm]. unfold hard_cell.
  destruct (cell_eqb (get b0 row col) Blank); [|now intros [= _ <-]].
  destruct (rec _ _ _ _ _) as [[e b1]|]; [|discriminate].
  destruct (e >? bs)%Z; now intros [= _ <-].
Qed.

Lemma hard_fold_spec (cells : list (nat * nat)) :
  forall bs bm bs' bm' b',
    for_in_fuel cells (fun rc st => hard_cell npc rec (fst rc) (snd rc) st) (b, bs, bm)
    = Some (b', bs', bm') ->
    b' = b /\ (bs <= bs')%Z
    /\ (forall rc, In rc cells -> get b (fst rc) (snd rc) = Blank ->
          exists v, score_with npc rec b rc = Some v /\ (v <= bs')%Z)
    /\ ((bs' = bs /\ bm' = bm)
        \/ exists pre rc post,
             cells = pre ++ rc :: post /\ bm' = Some rc
             /\ get b (fst rc) (snd rc) = Blank
             /\ score_with npc rec b rc = Some bs' /\ (bs < bs')%Z
             /\ forall rc', In rc' pre -> get b (fst rc') (snd rc') = Blank ->
                  exists v, score_with npc rec b rc' = Some v /\ (v < bs')%Z).
Proof.
  induction cells as [|[r c] cells IH]; intros bs bm bs' bm' b'.
  - simpl. intros [= <- <- <-].
    split; [reflexivity|]. split; [lia|]. split; [intros rc []|now left].
  - cbn [for_in_fuel fst snd].
    destruct (hard_cell npc rec r c (b, bs, bm)) as [[st f]|] eqn:Hcell;
      [|discriminate].
    pose proof (hard_cell_no_break _ _ _ Hcell) as ->.
    unfold hard_cell in Hcell.
    destruct (cell_eqb (get b r c) Blank) eqn:Hblank.
    + apply cell_eqb_eq in Hblank.
      destruct (rec _ _ _ _ _) as [[e b1]|] eqn:Hrec; [|discriminate].
      pose proof (rec_restores Hrec) as Hb1. subst b1.
      rewrite (@set_grid_undo b r c npc Hblank) in Hcell.
      assert (Hscore : score_with npc rec b (r, c) = Some e)
        by (unfold score_with; cbn [fst snd]; now rewrite Hrec).
      destruct (e >? bs)%Z eqn:Hgt; inversion Hcell as [Hst]; clear Hcell; intros Hrest;
        destruct (IH _ _ _ _ _ Hrest) as (Hb & Hle & Hall & Hsel).
      * apply Z.gtb_lt in Hgt.
        split; [assumption|]. split; [lia|]. split.
        { intros rc' [<-|Hin] Hbl; [exists e; split; [assumption | lia] | now apply Hall]. }
        right. destruct Hsel as [[-> ->]|(pre & rc1 & post & -> & -> & Hbl & Hsc & Hlt & Hpre)].
        { exists [], (r, c), cells.
          split; [reflexivity|]. split; [reflexivity|]. split; [assumption|].
          split; [assumption|]. split; [assumption|]. intros rc' []. }
        { exists ((r, c) :: pre), rc1, post.
          split; [reflexivity|]. split; [reflexivity|]. split; [assumption|].
          split; [assumption|]. split; [lia|].
          intros rc' [<-|Hin] Hbl'; [exists e; split; [assumption | lia] | now apply Hpre]. }
      * assert (Hle' : (e <= bs)%Z).
        { destruct (Z.gtb_spec e bs); [discriminate | lia]. }
        split; [assumption|]. split; [lia|]. split.
        { intros rc' [<-|Hin] Hbl; [exists e; split; [assumption | lia] | now apply Hall]. }
        destruct Hsel as [[-> ->]|(pre & rc1 & post & -> & -> & Hbl & Hsc & Hlt & Hpre)];
          [now left|].
        right. exists ((r, c) :: pre), rc1, post.
        split; [reflexivity|]. split; [reflexivity|]. split; [assumption|].
        split; [assumption|]. split; [assumption|].
        intros rc' [<-|Hin] Hbl'; [exists e; split; [assumption | lia] | now apply Hpre].
    + apply cell_eqb_neq in Hblank.
      inversion Hcell as [Hst]; clear Hcell. intros Hrest.
      destruct (IH _ _ _ _ _ Hrest) as (Hb & Hle & Hall & Hsel).
      split; [assumption|]. split; [assumption|]. split.
      { intros rc' [<-|Hin] Hbl; [contradiction | now apply Hall]. }
      destruct Hsel as [[-> ->]|(pre & rc1 & post & -> & -> & Hbl & Hsc & Hlt & Hpre)];
        [now left|].
      right. exists ((r, c) :: pre), rc1, post.
      split; [reflexivity|]. split; [reflexivity|]. split; [assumption|].
      split; [assumption|]. split; [assumption|].
      intros rc' [<-|Hin] Hbl'; [contradiction | now apply Hpre].
Qed.

End HardSelection.

(** The cell [hard_move] returns scores strictly more than every empty
    cell before it and at least as much as every empty cell after it. *)
Lemma hard_move_first_best (npc player : cell) (b : grid) (rc : nat * nat) (b' : grid) :
  hard_move npc player b = Some (Some rc, b') ->
  exists pre post v,
    cells_row_major = pre ++ rc :: post
    /\ get b (fst rc) (snd rc) = Blank
    /\ candidate_score npc player b rc = Some v
    /\ (forall rc', In rc' pre -> get b (fst rc') (snd rc') = Blank ->
          exists v', candidate_score npc player b rc' = Some v' /\ (v' < v)%Z)
    /\ (forall rc', In rc' post -> get b (fst rc') (snd rc') = Blank ->
          exists v', candidate_score npc player b rc' = Some v' /\ (v' <= v)%Z).
Proof.
  unfold hard_move, hard_move_fuel, hard_move_loop.
  rewrite scan_rows_flat by (intros row col s s' f; apply hard_cell_no_break).
  destruct (for_in_fuel _ _ _) as [[[b1 bs] bm]|] eqn:Hfold; [|discriminate].
  intros [= -> <-].
  apply (@hard_fold_spec npc (minimax npc player search_fuel)
           (@minimax_restores npc player search_fuel) b cells_row_major) in Hfold.
  destruct Hfold as (_ & _ & Hall & [[_ Hbm]|(pre & rc1 & post & Hsplit & Hbm & Hbl & Hsc & _ & Hpre)]);
    [discriminate|].
  injection Hbm as <-.
  exists pre, post, bs. repeat split; auto.
  intros rc' Hin Hbl'. apply Hall; [|assumption].
  rewrite Hsplit. apply in_or_app. right. now right.
Qed.

(* ================================================================== *)
(** ** Plain minimax *)

Lemma available_moves_in (b : grid) (r c : nat) :
  In (r, c) (available_moves b) <-> r < 3 /\ c < 3 /\ get b r c = Blank.
Proof.
  unfold available_moves. rewrite in_flat_map. split.
  - intros (r' & Hr & Hin). rewrite in_flat_map in Hin.
    destruct Hin as (c' & Hc & Hin).
    destruct (cell_eqb (get b r' c') Blank) eqn:Hb; [|contradiction].
    destruct Hin as [[= <- <-]|[]].
    apply range3_lt in Hr. apply range3_lt in Hc. apply cell_eqb_eq in Hb. auto.
  - intros (Hr & Hc & Hb). exists r. split; [now apply range3_lt|].
    rewrite in_flat_map. exists c. split; [now apply range3_lt|].
    apply cell_eqb_eq in Hb. rewrite Hb. now left.
Qed.

Lemma full_no_moves (b : grid) :
  wf_grid b -> is_full b = true -> available_moves b = [].
Proof.
  intros Hwf Hfull. destruct (available_moves b) as [|[r c] l] eqn:Hav; [reflexivity|].
  assert (Hin : In (r, c) (available_moves b)) by (rewrite Hav; now left).
  apply available_moves_in in Hin. destruct Hin as (Hr & Hc & Hb).
  exfalso. exact (proj1 (is_full_spec Hwf) Hfull r c Hr Hc Hb).
Qed.

Lemma not_full_moves (b : grid) :
  wf_grid b -> is_full b = false -> available_moves b <> [].
Proof.
  intros Hwf Hfull Hav.
  assert (H : is_full b = true); [|congruence].
  apply (is_full_spec Hwf). intros r c Hr Hc Hb.
  assert (Hin : In (r, c) (available_moves b)) by now apply available_moves_in.
  now rewrite Hav in Hin.
Qed.

(** The empty cells are the cells in row-major order that are empty. *)
Lemma available_moves_blank (b : grid) :
  available_moves b = blank_cells b cells_row_major.
Proof.
  unfold available_moves, blank_cells, cells_row_major, range3. simpl.
  repeat match goal with
         | |- context [cell_eqb (get b ?r ?c) Blank] =>
             destruct (cell_eqb (get b r c) Blank)
         end; reflexivity.
Qed.

Section Folds.

Variable score : nat * nat -> option Z.

Lemma fold_max_spec (cells : list (nat * nat)) (init : Z) :
  (forall rc, In rc cells -> exists e, score rc = Some e) ->
  fold_max score cells init
  = Some (fold_left Z.max (map (value_of score) cells) init).
Proof.
  unfold fold_max. revert init.
  induction cells as [|rc cells IH]; intros init Hall; [reflexivity|].
  simpl. destruct (Hall rc (or_introl eq_refl)) as (e & He).
  unfold value_of at 2. rewrite He. apply IH. intros rc' Hin. apply Hall. now right.
Qed.

Lemma fold_min_spec (cells : list (nat * nat)) (init : Z) :
  (forall rc, In rc cells -> exists e, score rc = Some e) ->
  fold_min score cells init
  = Some (fold_left Z.min (map (value_of score) cells) init).
Proof.
  unfold fold_min. revert init.
  induction cells as [|rc cells IH]; intros init Hall; [reflexivity|].
  simpl. destruct (Hall rc (or_introl eq_refl)) as (e & He).
  unfold value_of at 2. rewrite He. apply IH. intros rc' Hin. apply Hall. now right.
Qed.

Lemma fold_none (A : Type) (step : option A -> nat * nat -> option A)
      (cells : list (nat * nat)) :
  (forall rc, step None rc = None) -> fold_left step cells None = None.
Proof. intros H. induction cells as [|rc cells IH]; simpl; [reflexivity | now rewrite H]. Qed.

Lemma fold_max_scores (cells : list (nat * nat)) (init t : Z) :
  fold_max score cells init = Some t ->
  forall rc, In rc cells -> exists e, score rc = Some e.
Proof.
  unfold fold_max. revert init.
  induction cells as [|rc cells IH]; intros init Hf rc' Hin; [destruct Hin|].
  simpl in Hf. destruct (score rc) as [e|] eqn:He.
  - destruct Hin as [<-|Hin]; [eauto | eapply IH; eassumption].
  - rewrite fold_none in Hf; [discriminate | now intros rc0].
Qed.

Lemma fold_min_scores (cells : list (nat * nat)) (init t : Z) :
  fold_min score cells init = Some t ->
  forall rc, In rc cells -> exists e, score rc = Some e.
Proof.
  unfold fold_min. revert init.
  induction cells as [|rc cells IH]; intros init Hf rc' Hin; [destruct Hin|].
  simpl in Hf. destruct (score rc) as [e|] eqn:He.
  - destruct Hin as [<-|Hin]; [eauto | eapply IH; eassumption].
  - rewrite fold_none in Hf; [discriminate | now intros rc0].
Qed.

End Folds.

Lemma fold_max_le (l : list Z) (i c : Z) :
  (fold_left Z.max l i <= c)%Z <-> (i <= c)%Z /\ forall x, In x l -> (x <= c)%Z.
Proof.
  revert i. induction l as [|y l IH]; intros i; simpl.
  - split; [intros H; split; [assumption | intros x []] | tauto].
  - rewrite IH. split.
    + intros [Hm Hl]. split; [lia|]. intros x [<-|Hin]; [lia | auto].
    + intros [Hi Hl]. split; [|auto]. pose proof (Hl y (or_introl eq_refl)). lia.
Qed.

Lemma fold_max_ge (l : list Z) (i c : Z) :
  (c <= fold_left Z.max l i)%Z <-> (c <= i)%Z \/ exists x, In x l /\ (c <= x)%Z.
Proof.
  revert i. induction l as [|y l IH]; intros i; simpl.
  - split; [auto | intros [H|(x & [] & _)]; assumption].
  - rewrite IH. split.
    + intros [Hm|(x & Hin & Hx)]; [|right; eauto].
      destruct (Z.max_spec i y) as [[_ Hy]|[_ Hy]]; rewrite Hy in Hm; [right; eauto | now left].
    + intros [Hi|(x & [<-|Hin] & Hx)]; [left; lia | left; lia | right; eauto].
Qed.

Lemma fold_min_ge (l : list Z) (i c : Z) :
  (c <= fold_left Z.min l i)%Z <-> (c <= i)%Z /\ forall x, In x l -> (c <= x)%Z.
Proof.
  revert i. induction l as [|y l IH]; intros i; simpl.
  - split; [intros H; split; [assumption | intros x []] | tauto].
  - rewrite IH. split.
    + intros [Hm Hl]. split; [lia|]. intros x [<-|Hin]; [lia | auto].
    + intros [Hi Hl]. split; [|auto]. pose proof (Hl y (or_introl eq_refl)). lia.
Qed.

Lemma fold_min_le (l : list Z) (i c : Z) :
  (fold_left Z.min l i <= c)%Z <-> (i <= c)%Z \/ exists x, In x l /\ (x <= c)%Z.
Proof.
  revert i. induction l as [|y l IH]; intros i; simpl.
  - split; [auto | intros [H|(x & [] & _)]; assumption].
  - rewrite IH. split.
    + intros [Hm|(x & Hin & Hx)]; [|right; eauto].
      destruct (Z.min_spec i y) as [[_ Hy]|[_ Hy]]; rewrite Hy in Hm; [now left | right; eauto].
    + intros [Hi|(x & [<-|Hin] & Hx)]; [left; lia | left; lia | right; eauto].
Qed.

Lemma plain_minimax_S (npc player : cell) (fuel : nat) (b : grid) (depth : Z) (m : bool) :
  plain_minimax npc player (S fuel) b depth m
  = if opt_cell_eqb (check_winner b) npc then Some (10 - depth)%Z
    else if opt_cell_eqb (check_winner b) player then Some (depth - 10)%Z
    else if is_full b then Some 0%Z
    else if m then
      fold_max (fun rc => plain_minimax npc player fuel (set_grid b (fst rc) (snd rc) npc)
                                        (depth + 1)%Z false)
               (available_moves b) (- maxsize)%Z
    else
      fold_min (fun rc => plain_minimax npc player fuel (set_grid b (fst rc) (snd rc) player)
                                        (depth + 1)%Z true)
               (available_moves b) maxsize.
Proof. reflexivity. Qed.

Section PlainSearch.

Variables npc player : cell.
Hypothesis npc_mark : npc <> Blank.
Hypothesis player_mark : player <> Blank.

Lemma plain_minimax_total (fuel : nat) :
  forall b, wf_grid b -> count_empty b < fuel ->
  forall depth m, exists t, plain_minimax npc player fuel b depth m = Some t.
Proof.
  induction fuel as [|fuel IH]; intros b Hwf Hfuel depth m; [lia|].
  rewrite plain_minimax_S.
  destruct (opt_cell_eqb (check_winner b) npc); [eauto|].
  destruct (opt_cell_eqb (check_winner b) player); [eauto|].
  destruct (is_full b); [eauto|].
  destruct m.
  - rewrite fold_max_spec; [eauto|].
    intros [r c] Hin. apply available_moves_in in Hin. destruct Hin as (Hr & Hc & Hb).
    pose proof (count_empty_set Hwf Hr Hc Hb npc_mark).
    apply IH; [now apply set_grid_wf | simpl; lia].
  - rewrite fold_min_spec; [eauto|].
    intros [r c] Hin. apply available_moves_in in Hin. destruct Hin as (Hr & Hc & Hb).
    pose proof (count_empty_set Hwf Hr Hc Hb player_mark).
    apply IH; [now apply set_grid_wf | simpl; lia].
Qed.

(** The value of a node lies within ten plus the depth of its deepest
    leaf. *)
Lemma plain_minimax_bound (fuel : nat) :
  forall b depth m t,
    wf_grid b -> (10 + Z.abs depth + Z.of_nat fuel <= maxsize)%Z ->
    plain_minimax npc player fuel b depth m = Some t ->
    (Z.abs t <= 10 + Z.abs depth + Z.of_nat fuel)%Z.
Proof.
  induction fuel as [|fuel IH]; intros b depth m t Hwf Hmax; [discriminate|].
  rewrite plain_minimax_S.
  destruct (opt_cell_eqb (check_winner b) npc);
    [intros H; assert (t = 10 - depth)%Z by congruence; lia|].
  destruct (opt_cell_eqb (check_winner b) player);
    [intros H; assert (t = depth - 10)%Z by congruence; lia|].
  destruct (is_full b) eqn:Hfull; [intros H; assert (t = 0)%Z by congruence; lia|].
  pose proof (not_full_moves Hwf Hfull) as Hne.
  assert (Hchild : forall s m' rc e,
             In rc (available_moves b) ->
             plain_minimax npc player fuel (set_grid b (fst rc) (snd rc) s)
                           (depth + 1)%Z m' = Some e ->
             (Z.abs e <= 10 + Z.abs depth + Z.of_nat (S fuel))%Z).
  { intros s m' rc e Hin He.
    apply IH in He; [lia | now apply set_grid_wf | lia]. }
  destruct m; intros Hf.
  - pose proof (fold_max_scores _ _ _ Hf) as Hall.
    rewrite (@fold_max_spec _ _ (- maxsize)%Z Hall) in Hf.
    assert (Ht : fold_left Z.max
                     (map (value_of (fun rc => plain_minimax npc player fuel
                        (set_grid b (fst rc) (snd rc) npc) (depth + 1)%Z false))
                          (available_moves b)) (- maxsize)%Z = t) by congruence.
    clear Hf.
    assert (Hup : (fold_left Z.max
                     (map (value_of (fun rc => plain_minimax npc player fuel
                        (set_grid b (fst rc) (snd rc) npc) (depth + 1)%Z false))
                          (available_moves b)) (- maxsize)
                   <= 10 + Z.abs depth + Z.of_nat (S fuel))%Z).
    { apply fold_max_le. split; [lia|].
      intros x Hx. apply in_map_iff in Hx. destruct Hx as (rc & <- & Hin).
      destruct (Hall rc Hin) as (e & He). unfold value_of. rewrite He.
      pose proof (Hchild _ _ _ _ Hin He). lia. }
    assert (Hlo : (- (10 + Z.abs depth + Z.of_nat (S fuel))
                   <= fold_left Z.max
                     (map (value_of (fun rc => plain_minimax npc player fuel
                        (set_grid b (fst rc) (snd rc) npc) (depth + 1)%Z false))
                          (available_moves b)) (- maxsize))%Z).
    { apply fold_max_ge. right.
      destruct (available_moves b) as [|rc l] eqn:Hav; [congruence|].
      destruct (Hall rc (or_introl eq_refl)) as (e & He).
      exists e. split; [left; unfold value_of; now rewrite He|].
      pose proof (Hchild _ _ _ _ (or_introl eq_refl) He). lia. }
    lia.
  - pose proof (fold_min_scores _ _ _ Hf) as Hall.
    rewrite (@fold_min_spec _ _ maxsize Hall) in Hf.
    assert (Ht : fold_left Z.min
                     (map (value_of (fun rc => plain_minimax npc player fuel
                        (set_grid b (fst rc) (snd rc) player) (depth + 1)%Z true))
                          (available_moves b)) maxsize = t) by congruence.
    clear Hf.
    assert (Hlo : (- (10 + Z.abs depth + Z.of_nat (S fuel))
                   <= fold_left Z.min
                     (map (value_of (fun rc => plain_minimax npc player fuel
                        (set_grid b (fst rc) (snd rc) player) (depth + 1)%Z true))
                          (available_moves b)) maxsize)%Z).
    { apply fold_min_ge. split; [lia|].
      intros x Hx. apply in_map_iff in Hx. destruct Hx as (rc & <- & Hin).
      destruct (Hall rc Hin) as (e & He). unfold value_of. rewrite He.
      pose proof (Hchild _ _ _ _ Hin He). lia. }
    assert (Hup : (fold_left Z.min
                     (map (value_of (fun rc => plain_minimax npc player fuel
                        (set_grid b (fst rc) (snd rc) player) (depth + 1)%Z true))
                          (available_moves b)) maxsize
                   <= 10 + Z.abs depth + Z.of_nat (S fuel))%Z).
    { apply fold_min_le. right.
      destruct (available_moves b) as [|rc l] eqn:Hav; [congruence|].
      destruct (Hall rc (or_introl eq_refl)) as (e & He).
      exists e. split; [left; unfold value_of; now rewrite He|].
      pose proof (Hchild _ _ _ _ (or_introl eq_refl) He). lia. }
    lia.
Qed.

End PlainSearch.

(* ================================================================== *)
(** ** Loops that may skip *)

Section PrefixLoops.

Variables A St : Type.
Variable J : list A -> St -> Prop.
Variable stop : St -> Prop.
Variable dom : A -> Prop.
Variable body : A -> St -> option (St * bool).

Hypothesis step : forall pre x s s1 f,
    dom x -> J pre s -> body x s = Some (s1, f) ->
    J (pre ++ [x]) s1 /\ (f = true -> stop s1).
Hypothesis skip : forall pre x s, J pre s -> stop s -> J (pre ++ [x]) s.

Lemma skip_rest (xs : list A) :
  forall pre s, J pre s -> stop s -> J (pre ++ xs) s.
Proof.
  induction xs as [|x xs IH]; intros pre s Hj Hs.
  - now rewrite app_nil_r.
  - replace (pre ++ x :: xs) with ((pre ++ [x]) ++ xs)
      by (rewrite <- app_assoc; reflexivity).
    apply IH; [now apply skip | assumption].
Qed.

(** The invariant [J] holds of the whole list when the loop is over,
    whether it ran to the end or was left by [break]. *)
Lemma for_in_fuel_prefix (xs : list A) :
  (forall x, In x xs -> dom x) ->
  forall pre s s', J pre s -> for_in_fuel xs body s = Some s' -> J (pre ++ xs) s'.
Proof.
  induction xs as [|x xs IH]; intros Hdom pre s s' Hj; simpl.
  - intros [= <-]. now rewrite app_nil_r.
  - destruct (body x s) as [[s1 f]|] eqn:Hb; [|discriminate].
    destruct (step (Hdom x (or_introl eq_refl)) Hj Hb) as [Hj1 Hstop].
    replace (pre ++ x :: xs) with ((pre ++ [x]) ++ xs)
      by (rewrite <- app_assoc; reflexivity).
    destruct f.
    + intros [= <-]. apply skip_rest; auto.
    + apply IH; [|assumption]. intros y Hy. apply Hdom. now right.
Qed.

End PrefixLoops.

(** The same for the nest of [scan_rows], over the nine cells. *)
Lemma scan_rows_prefix (St : Type) (J : list (nat * nat) -> St -> Prop)
      (stop : St -> Prop) (body : nat -> nat -> St -> option (St * bool)) (s s' : St) :
  (forall pre row col s s1 f,
      row < 3 -> col < 3 -> J pre s -> body row col s = Some (s1, f) ->
      J (pre ++ [(row, col)]) s1 /\ (f = true -> stop s1)) ->
  (forall pre rc s, J pre s -> stop s -> J (pre ++ [rc]) s) ->
  J [] s -> scan_rows body s = Some s' -> J cells_row_major s'.
Proof.
  intros Hstep Hskip Hinit Hscan. unfold scan_rows in Hscan.
  change cells_row_major
    with ([] ++ flat_map (fun r => map (pair r) range3) range3).
  pose (Jrow := fun (rows : list nat) (st : St) =>
                  J (flat_map (fun r => map (pair r) range3) rows) st).
  change (Jrow ([] ++ range3) s').
  apply (@for_in_fuel_prefix nat St Jrow (fun _ => False) (fun r => r < 3)
           (fun row st =>
              match for_in_fuel range3 (body row) st with
              | Some st' => Some (st', false)
              | None => None
              end)) with (s := s); [| |apply range3_lt|exact Hinit|exact Hscan].
  - intros pre row t t1 f Hrow Hj.
    destruct (for_in_fuel range3 (body row) t) as [u|] eqn:Hin; [|discriminate].
    intros [= <- <-]. split; [|discriminate].
    unfold Jrow in *. rewrite flat_map_app. cbn [flat_map]. rewrite app_nil_r.
    pose (Jcol := fun (cols : list nat) (st : St) =>
                    J (flat_map (fun r => map (pair r) range3) pre
                         ++ map (pair row) cols) st).
    change (Jcol ([] ++ range3) u).
    apply (@for_in_fuel_prefix nat St Jcol stop (fun c => c < 3) (body row))
      with (s := t); [| |apply range3_lt| |exact Hin].
    + intros cols col u0 u1 f0 Hcol Hj0 Hb. unfold Jcol in *.
      rewrite map_app, app_assoc. simpl. now apply (Hstep _ row col u0).
    + intros cols col u0 Hj0 Hs. unfold Jcol in *.
      rewrite map_app, app_assoc. simpl. now apply Hskip.
    + unfold Jcol. simpl. now rewrite app_nil_r.
  - intros pre x t _ [].
Qed.

(* ================================================================== *)
(** ** The bounds of the search *)

Lemma window_ok_same (alpha beta v : Z) : window_ok alpha beta v v.
Proof. unfold window_ok. lia. Qed.

Lemma max_state_init (alpha beta : Z) :
  (- maxsize <= alpha)%Z -> (alpha < beta)%Z ->
  max_state alpha beta (- maxsize) alpha (- maxsize).
Proof. unfold max_state. lia. Qed.

Lemma max_state_step (alpha beta m a T e tx : Z) :
  (alpha < beta)%Z -> max_state alpha beta m a T ->
  ((a < beta)%Z -> window_ok a beta e tx) ->
  max_state alpha beta (Z.max m e) (Z.max a e) (Z.max T tx).
Proof. unfold max_state, window_ok. lia. Qed.

Lemma max_state_skip (alpha beta m a T tx : Z) :
  max_state alpha beta m a T -> (beta <= a)%Z ->
  max_state alpha beta m a (Z.max T tx).
Proof. unfold max_state. lia. Qed.

Lemma max_state_final (alpha beta v a T : Z) :
  (alpha < beta)%Z -> max_state alpha beta v a T -> window_ok alpha beta v T.
Proof. unfold max_state, window_ok. lia. Qed.

Lemma min_state_init (alpha beta : Z) :
  (beta <= maxsize)%Z -> (alpha < beta)%Z ->
  min_state alpha beta maxsize beta maxsize.
Proof. unfold min_state. lia. Qed.

Lemma min_state_step (alpha beta m bb T e tx : Z) :
  (alpha < beta)%Z -> min_state alpha beta m bb T ->
  ((alpha < bb)%Z -> window_ok alpha bb e tx) ->
  min_state alpha beta (Z.min m e) (Z.min bb e) (Z.min T tx).
Proof. unfold min_state, window_ok. lia. Qed.

Lemma min_state_skip (alpha beta m bb T tx : Z) :
  min_state alpha beta m bb T -> (bb <= alpha)%Z ->
  min_state alpha beta m bb (Z.min T tx).
Proof. unfold min_state. lia. Qed.

Lemma min_state_final (alpha beta v bb T : Z) :
  (alpha < beta)%Z -> min_state alpha beta v bb T -> window_ok alpha beta v T.
Proof. unfold min_state, window_ok. lia. Qed.

(* ================================================================== *)
(** ** The search with bounds against plain minimax *)

Lemma blank_cells_snoc (b : grid) (pre : list (nat * nat)) (rc : nat * nat) :
  blank_cells b (pre ++ [rc])
  = blank_cells b pre
      ++ (if cell_eqb (get b (fst rc) (snd rc)) Blank then [rc] else []).
Proof. unfold blank_cells. rewrite filter_app. reflexivity. Qed.

Section Bounds.

Variables npc player : cell.
Hypothesis npc_mark : npc <> Blank.
Hypothesis player_mark : player <> Blank.

Lemma max_over_snoc score b pre rc :
  max_over score b (pre ++ [rc])
  = if cell_eqb (get b (fst rc) (snd rc)) Blank
    then Z.max (max_over score b pre) (value_of score rc)
    else max_over score b pre.
Proof.
  unfold max_over. rewrite blank_cells_snoc.
  destruct (cell_eqb (get b (fst rc) (snd rc)) Blank).
  - now rewrite map_app, fold_left_app.
  - now rewrite app_nil_r.
Qed.

Lemma min_over_snoc score b pre rc :
  min_over score b (pre ++ [rc])
  = if cell_eqb (get b (fst rc) (snd rc)) Blank
    then Z.min (min_over score b pre) (value_of score rc)
    else min_over score b pre.
Proof.
  unfold min_over. rewrite blank_cells_snoc.
  destruct (cell_eqb (get b (fst rc) (snd rc)) Blank).
  - now rewrite map_app, fold_left_app.
  - now rewrite app_nil_r.
Qed.

(** With [alpha < beta], the result of [minimax] between the two bounds
    is the plain value when it lies strictly between them, and a bound on
    it on the side where it falls otherwise. *)
Lemma minimax_window (fuel : nat) :
  forall b, wf_grid b -> count_empty b < fuel ->
  forall depth m alpha beta v b' t,
    (- maxsize <= alpha)%Z -> (beta <= maxsize)%Z -> (alpha < beta)%Z ->
    minimax npc player fuel b depth m alpha beta = Some (v, b') ->
    plain_minimax npc player fuel b depth m = Some t ->
    window_ok alpha beta v t.
Proof.
  induction fuel as [|fuel IH];
    intros b Hwf Hfuel depth m alpha beta v b' t Hlo Hhi Hab; [lia|].
  rewrite minimax_S, plain_minimax_S.
  destruct (opt_cell_eqb (check_winner b) npc);
    [intros H1 H2; assert (v = t) by congruence; subst; apply window_ok_same|].
  destruct (opt_cell_eqb (check_winner b) player);
    [intros H1 H2; assert (v = t) by congruence; subst; apply window_ok_same|].
  destruct (is_full b);
    [intros H1 H2; assert (v = t) by congruence; subst; apply window_ok_same|].
  destruct m.
  - (* maximizing *)
    destruct (scan_rows _ _) as [[[b1 me] a]|] eqn:Hscan; [|discriminate].
    intros Hv Hplain. assert (me = v) by congruence. subst me. clear Hv.
    set (score := fun rc : nat * nat =>
                    plain_minimax npc player fuel (set_grid b (fst rc) (snd rc) npc)
                                  (depth + 1)%Z false) in *.
    pose proof (fold_max_scores _ _ _ Hplain) as Hall.
    rewrite (@fold_max_spec _ _ (- maxsize)%Z Hall) in Hplain.
    rewrite available_moves_blank in Hplain.
    assert (Ht : max_over score b cells_row_major = t) by (unfold max_over; congruence).
    clear Hplain.
    apply (@scan_rows_prefix (grid * Z * Z)
             (fun pre st => fst (fst st) = b
                            /\ max_state alpha beta (snd (fst st)) (snd st)
                                         (max_over score b pre))
             (fun st => (beta <= snd st)%Z)) in Hscan.
    + destruct Hscan as [_ Hstate]. simpl in Hstate. rewrite Ht in Hstate.
      exact (max_state_final Hab Hstate).
    + intros pre row col [[b0 m0] a0] s1 f Hrow Hcol [Hb0 Hst]. simpl in Hb0, Hst.
      subst b0. unfold max_cell. rewrite max_over_snoc. cbn [fst snd].
      destruct (cell_eqb (get b row col) Blank) eqn:Hblank.
      * apply cell_eqb_eq in Hblank.
        destruct (minimax npc player fuel (set_grid b row col npc) (depth + 1)%Z
                          false a0 beta) as [[e b2]|] eqn:Hrec; [|discriminate].
        pose proof (minimax_restores _ _ _ _ _ _ _ _ Hrec) as Hb2. subst b2.
        intros Hs. assert (Hs1 : s1 = (set_grid (set_grid b row col npc) row col Blank,
                                       Z.max m0 e, Z.max a0 e)) by congruence.
        assert (Hf : f = (beta <=? Z.max a0 e)%Z) by congruence.
        clear Hs. subst s1 f. cbn [fst snd].
        split; [|intros Hflag; now apply Z.leb_le].
        split; [now apply set_grid_undo|].
        apply (max_state_step Hab Hst). intros Ha0.
        assert (Hin : In (row, col) (available_moves b)) by now apply available_moves_in.
        destruct (Hall _ Hin) as (tx & Htx).
        unfold value_of. rewrite Htx. unfold score in Htx. cbn [fst snd] in Htx.
        pose proof (count_empty_set Hwf Hrow Hcol Hblank npc_mark) as Hcount.
        assert (Ha_lo : (- maxsize <= a0)%Z) by (unfold max_state in Hst; lia).
        exact (IH (set_grid b row col npc) (set_grid_wf row col npc Hwf) ltac:(lia)
                  (depth + 1)%Z false a0 beta e _ tx Ha_lo Hhi Ha0 Hrec Htx).
      * intros Hs. assert (Hs1 : s1 = (b, m0, a0)) by congruence.
        assert (Hf : f = false) by congruence. subst s1 f. cbn [fst snd].
        split; [split; [reflexivity | assumption] | discriminate].
    + intros pre rc [[b0 m0] a0] [Hb0 Hst] Hstop. simpl in *.
      split; [assumption|]. rewrite max_over_snoc.
      destruct (cell_eqb _ _); [now apply max_state_skip | assumption].
    + simpl. split; [reflexivity|]. now apply max_state_init.
  - (* minimizing *)
    destruct (scan_rows _ _) as [[[b1 me] bb]|] eqn:Hscan; [|discriminate].
    intros Hv Hplain. assert (me = v) by congruence. subst me. clear Hv.
    set (score := fun rc : nat * nat =>
                    plain_minimax npc player fuel (set_grid b (fst rc) (snd rc) player)
                                  (depth + 1)%Z true) in *.
    pose proof (fold_min_scores _ _ _ Hplain) as Hall.
    rewrite (@fold_min_spec _ _ maxsize Hall) in Hplain.
    rewrite available_moves_blank in Hplain.
    assert (Ht : min_over score b cells_row_major = t) by (unfold min_over; congruence).
    clear Hplain.
    apply (@scan_rows_prefix (grid * Z * Z)
             (fun pre st => fst (fst st) = b
                            /\ min_state alpha beta (snd (fst st)) (snd st)
                                         (min_over score b pre))
             (fun st => (snd st <= alpha)%Z)) in Hscan.
    + destruct Hscan as [_ Hstate]. simpl in Hstate. rewrite Ht in Hstate.
      exact (min_state_final Hab Hstate).
    + intros pre row col [[b0 m0] bb0] s1 f Hrow Hcol [Hb0 Hst]. simpl in Hb0, Hst.
      subst b0. unfold min_cell. rewrite min_over_snoc. cbn [fst snd].
      destruct (cell_eqb (get b row col) Blank) eqn:Hblank.
      * apply cell_eqb_eq in Hblank.
        destruct (minimax npc player fuel (set_grid b row col player) (depth + 1)%Z
                          true alpha bb0) as [[e b2]|] eqn:Hrec; [|discriminate].
        pose proof (minimax_restores _ _ _ _ _ _ _ _ Hrec) as Hb2. subst b2.
        intros Hs. assert (Hs1 : s1 = (set_grid (set_grid b row col player) row col Blank,
                                       Z.min m0 e, Z.min bb0 e)) by congruence.
        assert (Hf : f = (Z.min bb0 e <=? alpha)%Z) by congruence.
        clear Hs. subst s1 f. cbn [fst snd].
        split; [|intros Hflag; now apply Z.leb_le].
        split; [now apply set_grid_undo|].
        apply (min_state_step Hab Hst). intros Hbb0.
        assert (Hin : In (row, col) (available_moves b)) by now apply available_moves_in.
        destruct (Hall _ Hin) as (tx & Htx).
        unfold value_of. rewrite Htx. unfold score in Htx. cbn [fst snd] in Htx.
        pose proof (count_empty_set Hwf Hrow Hcol Hblank player_mark) as Hcount.
        assert (Hb_hi : (bb0 <= maxsize)%Z) by (unfold min_state in Hst; lia).
        exact (IH (set_grid b row col player) (set_grid_wf row col player Hwf) ltac:(lia)
                  (depth + 1)%Z true alpha bb0 e _ tx Hlo Hb_hi Hbb0 Hrec Htx).
      * intros Hs. assert (Hs1 : s1 = (b, m0, bb0)) by congruence.
        assert (Hf : f = false) by congruence. subst s1 f. cbn [fst snd].
        split; [split; [reflexivity | assumption] | discriminate].
    + intros pre rc [[b0 m0] bb0] [Hb0 Hst] Hstop. simpl in *.
      split; [assumption|]. rewrite min_over_snoc.
      destruct (cell_eqb _ _); [now apply min_state_skip | assumption].
    + simpl. split; [reflexivity|]. now apply min_state_init.
Qed.

End Bounds.

(* ================================================================== *)
(** ** The choice of [hard_move] is that of plain minimax *)

Section RootChoice.

Variables npc player : cell.
Hypothesis npc_mark : npc <> Blank.
Hypothesis player_mark : player <> Blank.

(** At the root the bounds are the widest, and the score is the plain
    value. *)
Lemma root_score (b : grid) (rc : nat * nat) :
  wf_grid b -> In rc (available_moves b) ->
  exists t,
    minimax npc player search_fuel (set_grid b (fst rc) (snd rc) npc)
            0%Z false (- maxsize)%Z maxsize
    = Some (t, set_grid b (fst rc) (snd rc) npc)
    /\ plain_minimax npc player search_fuel (set_grid b (fst rc) (snd rc) npc) 0%Z false
       = Some t
    /\ (Z.abs t <= 20)%Z.
Proof.
  intros Hwf Hin. destruct rc as [r c]. cbn [fst snd].
  apply available_moves_in in Hin. destruct Hin as (Hr & Hc & Hb).
  pose proof (count_empty_set Hwf Hr Hc Hb npc_mark) as Hcount.
  pose proof (count_empty_le b) as Hle.
  pose proof (set_grid_wf r c npc Hwf) as Hwf'.
  assert (Hfuel : count_empty (set_grid b r c npc) < search_fuel)
    by (unfold search_fuel; lia).
  destruct (@minimax_total npc player npc_mark player_mark search_fuel _ Hwf' Hfuel
              0%Z false (- maxsize)%Z maxsize) as (v & Hv).
  destruct (@plain_minimax_total npc player npc_mark player_mark search_fuel _ Hwf' Hfuel
              0%Z false) as (t & Ht).
  assert (Hbound : (Z.abs t <= 10 + Z.abs 0 + Z.of_nat search_fuel)%Z).
  { apply (@plain_minimax_bound npc player search_fuel _ 0%Z false t Hwf'); [|exact Ht].
    unfold maxsize, search_fuel. simpl. lia. }
  assert (Hwin : window_ok (- maxsize) maxsize v t).
  { eapply (@minimax_window npc player npc_mark player_mark search_fuel _ Hwf' Hfuel);
      [ | | | exact Hv | exact Ht]; unfold maxsize; lia. }
  assert (Hb20 : (Z.abs t <= 20)%Z) by (unfold search_fuel in Hbound; simpl in Hbound; lia).
  assert (Hvt : v = t).
  { unfold window_ok, maxsize in *. lia. }
  subst v. exists t. auto.
Qed.

Lemma hard_fold_plain (b : grid) (cells : list (nat * nat)) :
  wf_grid b ->
  (forall rc, In rc cells -> fst rc < 3 /\ snd rc < 3) ->
  forall bs bm,
  exists bs' bm',
    for_in_fuel cells
      (fun rc st => hard_cell npc (minimax npc player search_fuel) (fst rc) (snd rc) st)
      (b, bs, bm) = Some (b, bs', bm')
    /\ fold_best (fun rc => plain_minimax npc player search_fuel
                              (set_grid b (fst rc) (snd rc) npc) 0%Z false)
                 (blank_cells b cells) bs bm = Some (bs', bm').
Proof.
  intros Hwf. induction cells as [|[r c] cells IH]; intros Hdom bs bm.
  - exists bs, bm. split; reflexivity.
  - assert (Hdom' : forall rc, In rc cells -> fst rc < 3 /\ snd rc < 3)
      by (intros rc Hin; apply Hdom; now right).
    destruct (Hdom (r, c) (or_introl eq_refl)) as [Hr Hc]. cbn [fst snd] in Hr, Hc.
    cbn [for_in_fuel fst snd]. unfold hard_cell at 1, blank_cells.
    cbn [filter fst snd].
    destruct (cell_eqb (get b r c) Blank) eqn:Hblank.
    + apply cell_eqb_eq in Hblank.
      assert (Hin : In (r, c) (available_moves b)) by now apply available_moves_in.
      destruct (@root_score b (r, c) Hwf Hin) as (t & Hm & Hp & _). cbn [fst snd] in Hm, Hp.
      rewrite Hm, (@set_grid_undo b r c npc Hblank).
      unfold fold_best. cbn [fold_left fst snd]. rewrite Hp.
      destruct (t >? bs)%Z.
      * destruct (IH Hdom' t (Some (r, c))) as (bs' & bm' & H1 & H2).
        exists bs', bm'. split; assumption.
      * destruct (IH Hdom' bs bm) as (bs' & bm' & H1 & H2).
        exists bs', bm'. split; assumption.
    + destruct (IH Hdom' bs bm) as (bs' & bm' & H1 & H2).
      exists bs', bm'. split; assumption.
Qed.

Lemma cells_row_major_lt (rc : nat * nat) :
  In rc cells_row_major -> fst rc < 3 /\ snd rc < 3.
Proof.
  unfold cells_row_major. simpl.
  intros H; repeat (destruct H as [<-|H]; [simpl; lia|]); destruct H.
Qed.

(** [hard_move] returns what the selection over plain minimax returns,
    on every 3x3 board; with an empty cell it is a cell. *)
Lemma hard_move_plain (b : grid) :
  wf_grid b ->
  exists mv, hard_move npc player b = Some (mv, b)
             /\ plain_hard_move npc player search_fuel b = Some mv
             /\ (available_moves b <> [] -> mv <> None).
Proof.
  intros Hwf.
  destruct (@hard_fold_plain b cells_row_major Hwf cells_row_major_lt
              (- maxsize)%Z None) as (bs & bm & Hh & Hp).
  exists bm. split; [|split].
  - unfold hard_move, hard_move_fuel, hard_move_loop.
    rewrite scan_rows_flat by (intros row col s s' f; apply hard_cell_no_break).
    now rewrite Hh.
  - unfold plain_hard_move. rewrite available_moves_blank. now rewrite Hp.
  - intros Hav ->.
    apply (@hard_fold_spec npc (minimax npc player search_fuel)
             (@minimax_restores npc player search_fuel) b cells_row_major) in Hh.
    destruct Hh as (_ & _ & Hall & [[Hbs _]|(pre & rc & post & _ & Hbm & _)]);
      [|discriminate].
    destruct (available_moves b) as [|rc l] eqn:Hl; [congruence|].
    assert (Hin : In rc (available_moves b)) by (rewrite Hl; now left).
    destruct (@root_score b rc Hwf Hin) as (t & Hm & _ & Hb20).
    destruct rc as [r c]. pose proof Hin as Hin'. apply available_moves_in in Hin'.
    destruct Hin' as (Hr & Hc & Hblank).
    destruct (Hall (r, c)) as (v & Hv & Hle).
    + rewrite available_moves_blank in Hin. unfold blank_cells in Hin.
      now apply filter_In in Hin.
    + exact Hblank.
    + unfold score_with in Hv. rewrite Hm in Hv.
      assert (v = t) by congruence. subst. unfold maxsize in *. lia.
Qed.

End RootChoice.
(* ================================================================== *)
(** ** The scores of [hard_move] *)

Section RootScores.

Variables npc player : cell.
Hypothesis npc_mark : npc <> Blank.
Hypothesis player_mark : player <> Blank.


End RootScores.




(* ================================================================== *)
(** ** Pruned and plain search choose the same cell *)

(** C4: on every board reached from a new game that has an empty cell,
    [hard_move], which searches with the two bounds and the cutoffs,
    returns the cell that the selection over plain minimax returns. *)
Theorem pruning_preserves_choice (p : bool) (d : string) (g : TicTacToe) :
  reachable (new_game p d) g ->
  available_moves (board g) <> [] ->
  exists rc,
    hard_move (npc_symbol g) (player_symbol g) (board g) = Some (Some rc, board g)
    /\ plain_hard_move (npc_symbol g) (player_symbol g) search_fuel (board g)
       = Some (Some rc).
Proof.
  intros Hreach Hav. apply reachable_invariant in Hreach.
  destruct Hreach as (Hwf & -> & -> & _).
  destruct (@hard_move_plain O X ltac:(discriminate) ltac:(discriminate) (board g) Hwf)
    as (mv & Hh & Hp & Hsome).
  destruct mv as [rc|]; [now exists rc|].
  exfalso. now apply Hsome.
Qed.

Lemma pruning_preserves_choice_witness :
  let g := switch_player (set_cell (new_game true "hard") 1 1 X) in
  reachable (new_game true "hard") g
  /\ available_moves (board g) <> []
  /\ exists rc,
       hard_move (npc_symbol g) (player_symbol g) (board g) = Some (Some rc, board g)
       /\ plain_hard_move (npc_symbol g) (player_symbol g) search_fuel (board g)
          = Some (Some rc).
Proof.
  assert (H : reachable (new_game true "hard")
                (switch_player (set_cell (new_game true "hard") 1 1 X))).
  { apply (@reach_move _ (new_game true "hard") 1%Z 1%Z); [constructor | reflexivity]. }
  split; [exact H|]. split; [discriminate|].
  apply (pruning_preserves_choice H). discriminate.
Defined.


(* ================================================================== *)
(** ** The optimal strategy does not lose *)

Lemma every_true (A : Type) (f : A -> bool) (l : list A) :
  every f l = true <-> forall x, In x l -> f x = true.
Proof.
  induction l as [|y l IH]; simpl; [split; [intros _ x [] | reflexivity]|].
  destruct (f y) eqn:Hy.
  - rewrite IH. split; [intros H x [<-|Hin]; auto | intros H x Hin; apply H; now right].
  - split; [discriminate|]. intros H. rewrite <- Hy. apply H. now left.
Qed.

Lemma every_false (A : Type) (f : A -> bool) (l : list A) :
  every f l = false -> exists x, In x l /\ f x = false.
Proof.
  induction l as [|y l IH]; simpl; [discriminate|].
  destruct (f y) eqn:Hy; [|exists y; auto].
  intros H. destruct (IH H) as (x & Hin & Hx). exists x. auto.
Qed.

Lemma some_true (A : Type) (f : A -> bool) (l : list A) :
  some f l = true <-> exists x, In x l /\ f x = true.
Proof.
  induction l as [|y l IH]; simpl; [split; [discriminate | intros (x & [] & _)]|].
  destruct (f y) eqn:Hy.
  - split; [intros _; exists y; auto | reflexivity].
  - rewrite IH. split; intros (x & Hin & Hx); [exists x; auto|].
    destruct Hin as [<-|Hin]; [congruence | exists x; auto].
Qed.

Lemma some_false (A : Type) (f : A -> bool) (l : list A) (x : A) :
  some f l = false -> In x l -> f x = false.
Proof.
  induction l as [|y l IH]; simpl; [intros _ []|].
  destruct (f y) eqn:Hy; [discriminate|].
  intros H [<-|Hin]; auto.
Qed.

Lemma forces_win_within_S (npc player : cell) (n : nat) (b : grid) (t : bool) :
  forces_win_within npc player (S n) b t
  = match check_winner b with
    | Some w => cell_eqb w player
    | None =>
        if is_full b then false
        else if t then
          every (fun rc => forces_win_within npc player n
                             (set_grid b (fst rc) (snd rc) npc) false)
                (available_moves b)
        else
          some (fun rc => forces_win_within npc player n
                            (set_grid b (fst rc) (snd rc) player) true)
               (available_moves b)
    end.
Proof. reflexivity. Qed.

Lemma forces_win_winner (npc player : cell) (n : nat) (b : grid) (t : bool) (w : cell) :
  check_winner b = Some w -> forces_win_within npc player n b t = cell_eqb w player.
Proof. intros Hw. destruct n; simpl; now rewrite Hw. Qed.

Lemma not_forced_not_won (npc player : cell) (n : nat) (b : grid) (t : bool) :
  forces_win_within npc player n b t = false -> check_winner b <> Some player.
Proof.
  intros H Hw. destruct n; simpl in H; rewrite Hw in H;
    now rewrite cell_eqb_refl in H.
Qed.

Lemma evaluate_in_progress (b : grid) :
  evaluate b = InProgress <-> check_winner b = None /\ is_full b = false.
Proof.
  unfold evaluate. destruct (check_winner b); [split; [discriminate | intros [H _]; discriminate]|].
  destruct (is_full b); split; try discriminate; auto. intros [_ H]; discriminate.
Qed.

Lemma to_move_symbol (s : cell) (b : grid) : to_move s b = true -> s = X \/ s = O.
Proof. destruct s; simpl; auto; discriminate. Qed.

(** After a move of the side to move, the counts say that the other side
    is to move. *)
Lemma to_move_next (s s' : cell) (b : grid) (r c : nat) :
  roles s s' -> wf_grid b -> r < 3 -> c < 3 -> get b r c = Blank ->
  to_move s b = true -> to_move s' (set_grid b r c s) = true.
Proof.
  intros Hroles Hwf Hr Hc Hblank Hto.
  pose proof (count_cells_set s X Hwf Hr Hc Hblank) as HX.
  pose proof (count_cells_set s O Hwf Hr Hc Hblank) as HO.
  destruct Hroles as [[-> ->]|[-> ->]]; simpl in *;
    apply Nat.eqb_eq in Hto; apply Nat.eqb_eq; lia.
Qed.

Lemma roles_marks (npc player : cell) :
  roles npc player -> npc <> Blank /\ player <> Blank /\ npc <> player.
Proof. intros [[-> ->]|[-> ->]]; repeat split; discriminate. Qed.

Lemma count_empty_zero (b : grid) : count_empty b = 0 -> available_moves b = [].
Proof. unfold count_empty. now destruct (available_moves b). Qed.

Section GameValueOfSearch.

Variables npc player : cell.
Hypothesis symbols : roles npc player.

(** The plain value of a node is negative exactly when the other side
    can force a win from it. *)
Lemma plain_sign (fuel : nat) :
  forall b depth m t,
    wf_grid b -> count_empty b < fuel ->
    (depth + Z.of_nat (count_empty b) <= 9)%Z ->
    plain_minimax npc player fuel b depth m = Some t ->
    ((t < 0)%Z <-> forces_win_within npc player (count_empty b) b m = true).
Proof.
  destruct (roles_marks symbols) as (Hn & Hp & Hnp).
  induction fuel as [|fuel IH]; intros b depth m t Hwf Hfuel Hdepth; [lia|].
  rewrite plain_minimax_S.
  destruct (check_winner b) as [w|] eqn:Hw.
  - rewrite (forces_win_winner npc player _ _ m Hw). cbn [opt_cell_eqb].
    destruct (cell_eqb w npc) eqn:E1.
    + apply cell_eqb_eq in E1. subst w.
      assert (E : cell_eqb npc player = false) by now apply cell_eqb_neq.
      rewrite E. intros H. assert (t = 10 - depth)%Z by congruence.
      split; [lia | discriminate].
    + destruct (cell_eqb w player) eqn:E2.
      * intros H. assert (t = depth - 10)%Z by congruence.
        split; [reflexivity | lia].
      * exfalso. apply cell_eqb_neq in E1. apply cell_eqb_neq in E2.
        pose proof (check_winner_symbol _ Hw) as Hmark.
        destruct symbols as [[-> ->]|[-> ->]]; destruct w; congruence.
  - cbn [opt_cell_eqb]. destruct (is_full b) eqn:Hfull.
    + intros H. assert (t = 0)%Z by congruence. subst t.
      pose proof (full_no_moves Hwf Hfull) as Hav.
      unfold count_empty. rewrite Hav. simpl. rewrite Hw.
      split; [lia | discriminate].
    + pose proof (not_full_moves Hwf Hfull) as Hav.
      destruct (count_empty b) as [|n] eqn:Hcount;
        [apply count_empty_zero in Hcount; contradiction|].
      rewrite forces_win_within_S, Hw, Hfull.
      assert (Hchild : forall s m' rc e,
                 s <> Blank -> In rc (available_moves b) ->
                 plain_minimax npc player fuel (set_grid b (fst rc) (snd rc) s)
                               (depth + 1)%Z m' = Some e ->
                 ((e < 0)%Z <->
                  forces_win_within npc player n (set_grid b (fst rc) (snd rc) s) m' = true)).
      { intros s m' [r c] e Hs Hin He. cbn [fst snd] in *.
        apply available_moves_in in Hin. destruct Hin as (Hr & Hc & Hb).
        pose proof (count_empty_set Hwf Hr Hc Hb Hs) as Hset.
        assert (Hn' : count_empty (set_grid b r c s) = n) by lia.
        rewrite <- Hn'. apply (IH _ (depth + 1)%Z); auto.
        - now apply set_grid_wf.
        - lia.
        - lia. }
      destruct m; intros Hf.
      * pose proof (fold_max_scores _ _ _ Hf) as Hall.
        rewrite (@fold_max_spec _ _ (- maxsize)%Z Hall) in Hf.
        assert (Ht : fold_left Z.max
                       (map (value_of (fun rc => plain_minimax npc player fuel
                          (set_grid b (fst rc) (snd rc) npc) (depth + 1)%Z false))
                            (available_moves b)) (- maxsize)%Z = t) by congruence.
        clear Hf. rewrite every_true.
        assert (Hiff : (t < 0)%Z <-> (t <= -1)%Z) by lia.
        rewrite Hiff, <- Ht, fold_max_le. split.
        -- intros [_ Hle] rc Hin. destruct (Hall rc Hin) as (e & He).
           apply (Hchild npc false rc e Hn Hin He).
           assert (Hx : (value_of (fun rc => plain_minimax npc player fuel
                          (set_grid b (fst rc) (snd rc) npc) (depth + 1)%Z false) rc
                         <= -1)%Z) by (apply Hle; now apply in_map).
           unfold value_of in Hx. rewrite He in Hx. lia.
        -- intros Hevery. split; [unfold maxsize; lia|].
           intros x Hx. apply in_map_iff in Hx. destruct Hx as (rc & <- & Hin).
           destruct (Hall rc Hin) as (e & He). unfold value_of. rewrite He.
           pose proof (proj2 (Hchild npc false rc e Hn Hin He) (Hevery rc Hin)). lia.
      * pose proof (fold_min_scores _ _ _ Hf) as Hall.
        rewrite (@fold_min_spec _ _ maxsize Hall) in Hf.
        assert (Ht : fold_left Z.min
                       (map (value_of (fun rc => plain_minimax npc player fuel
                          (set_grid b (fst rc) (snd rc) player) (depth + 1)%Z true))
                            (available_moves b)) maxsize = t) by congruence.
        clear Hf. rewrite some_true.
        assert (Hiff : (t < 0)%Z <-> (t <= -1)%Z) by lia.
        rewrite Hiff, <- Ht, fold_min_le. split.
        -- intros [Hmax|(x & Hx & Hle)]; [unfold maxsize in Hmax; lia|].
           apply in_map_iff in Hx. destruct Hx as (rc & <- & Hin).
           destruct (Hall rc Hin) as (e & He). unfold value_of in Hle. rewrite He in Hle.
           exists rc. split; [assumption|].
           apply (Hchild player true rc e Hp Hin He). lia.
        -- intros (rc & Hin & Hforce). right.
           destruct (Hall rc Hin) as (e & He).
           exists e. split.
           ++ apply in_map_iff. exists rc. split; [|assumption].
              unfold value_of. now rewrite He.
           ++ pose proof (proj2 (Hchild player true rc e Hp Hin He) Hforce). lia.
Qed.

(** On a board in progress where the other side cannot force a win,
    [hard_move] returns an empty cell after which it still cannot. *)
Lemma safe_step (b : grid) :
  wf_grid b -> evaluate b = InProgress ->
  opponent_forces_win npc player b true = false ->
  exists r c, hard_move npc player b = Some (Some (r, c), b)
              /\ r < 3 /\ c < 3 /\ get b r c = Blank
              /\ opponent_forces_win npc player (set_grid b r c npc) false = false.
Proof.
  destruct (roles_marks symbols) as (Hn & Hp & Hnp).
  intros Hwf Hprog Hsafe.
  apply evaluate_in_progress in Hprog. destruct Hprog as [Hw Hfull].
  pose proof (not_full_moves Hwf Hfull) as Hav.
  pose proof (count_empty_le b) as Hle9.
  unfold opponent_forces_win in Hsafe.
  destruct (count_empty b) as [|n] eqn:Hcount;
    [apply count_empty_zero in Hcount; contradiction|].
  rewrite forces_win_within_S, Hw, Hfull in Hsafe.
  apply every_false in Hsafe. destruct Hsafe as ([r0 c0] & Hin0 & Hf0).
  cbn [fst snd] in Hf0.
  (* the value of a cell and what it says of the board after it *)
  assert (Hvalue : forall r c, In (r, c) (available_moves b) ->
            exists t, candidate_score npc player b (r, c) = Some t
                      /\ ((t < 0)%Z <->
                          forces_win_within npc player n (set_grid b r c npc) false = true)).
  { intros r c Hin. destruct (@root_score npc player Hn Hp b (r, c) Hwf Hin)
      as (t & Hm & Hpl & _). cbn [fst snd] in Hm, Hpl.
    exists t. split.
    - unfold candidate_score, score_with. cbn [fst snd]. now rewrite Hm.
    - apply available_moves_in in Hin. destruct Hin as (Hr & Hc & Hb).
      pose proof (count_empty_set Hwf Hr Hc Hb Hn) as Hset.
      assert (Hn' : count_empty (set_grid b r c npc) = n) by lia.
      rewrite <- Hn'.
      apply (@plain_sign search_fuel _ 0%Z false t (set_grid_wf r c npc Hwf));
        [unfold search_fuel; lia | lia | exact Hpl]. }
  destruct (Hvalue r0 c0 Hin0) as (t0 & Hs0 & Hsign0).
  assert (Ht0 : (0 <= t0)%Z).
  { destruct (Z.lt_ge_cases t0 0) as [Hlt|Hge]; [|assumption].
    apply Hsign0 in Hlt. congruence. }
  destruct (@hard_move_plain npc player Hn Hp b Hwf) as (mv & Hh & _ & Hsome).
  destruct mv as [[r c]|]; [|exfalso; now apply Hsome].
  destruct (hard_move_first_best _ _ _ Hh)
    as (pre & post & v & Hsplit & Hblank & Hv & Hpre & Hpost).
  cbn [fst snd] in Hblank.
  assert (Hcell : In (r, c) cells_row_major)
    by (rewrite Hsplit; apply in_or_app; right; now left).
  destruct (cells_row_major_lt Hcell) as [Hr Hc]. cbn [fst snd] in Hr, Hc.
  assert (Hin : In (r, c) (available_moves b)) by now apply available_moves_in.
  assert (Hv0 : (t0 <= v)%Z).
  { assert (Hcell0 : In (r0, c0) cells_row_major).
    { rewrite available_moves_blank in Hin0. unfold blank_cells in Hin0.
      now apply filter_In in Hin0. }
    apply available_moves_in in Hin0. destruct Hin0 as (_ & _ & Hb0).
    rewrite Hsplit in Hcell0. apply in_app_or in Hcell0.
    destruct Hcell0 as [Hin0|[Heq|Hin0]].
    - destruct (Hpre _ Hin0 Hb0) as (v' & Hv' & Hlt).
      assert (v' = t0) by congruence. lia.
    - rewrite <- Heq in Hs0. assert (v = t0) by congruence. lia.
    - destruct (Hpost _ Hin0 Hb0) as (v' & Hv' & Hlt).
      assert (v' = t0) by congruence. lia. }
  destruct (Hvalue r c Hin) as (t & Hs & Hsign).
  assert (v = t) by congruence. subst v.
  exists r, c. split; [assumption|]. split; [assumption|]. split; [assumption|].
  split; [assumption|].
  unfold opponent_forces_win.
  pose proof (count_empty_set Hwf Hr Hc Hblank Hn) as Hset.
  assert (Hn' : count_empty (set_grid b r c npc) = n) by lia.
  rewrite Hn'.
  destruct (forces_win_within npc player n (set_grid b r c npc) false) eqn:Hforce;
    [|reflexivity].
  assert (t < 0)%Z by (apply Hsign; reflexivity). lia.
Qed.

End GameValueOfSearch.

Lemma turn_inv (g : TicTacToe) (row col : Z) (g' : TicTacToe) :
  turn g row col = Some g' ->
  Z.to_nat row < 3 /\ Z.to_nat col < 3
  /\ get (board g) (Z.to_nat row) (Z.to_nat col) = Blank
  /\ g' = after_move (set_cell g (Z.to_nat row) (Z.to_nat col) (current_player g)).
Proof.
  unfold turn. destruct (make_move g row col) as [[v|e] g1] eqn:Hm; [|discriminate].
  intros [= <-]. apply make_move_ok in Hm. destruct Hm as (_ & Hin & Hb & ->).
  repeat split; auto; lia.
Qed.

Lemma turn_cell (g : TicTacToe) (r c : nat) :
  r < 3 -> c < 3 -> get (board g) r c = Blank ->
  turn g (Z.of_nat r) (Z.of_nat c)
  = Some (after_move (set_cell g r c (current_player g))).
Proof.
  intros Hr Hc Hb. unfold turn, make_move.
  assert (Hin : ((0 <=? Z.of_nat r)%Z && (Z.of_nat r <? 3)%Z
                 && ((0 <=? Z.of_nat c)%Z && (Z.of_nat c <? 3)%Z)) = true)
    by (apply in_bounds_dec; lia).
  rewrite Hin, !Nat2Z.id, Hb. reflexivity.
Qed.

Lemma with_board_same (g : TicTacToe) : with_board g (board g) = g.
Proof. now destruct g. Qed.

Lemma after_move_fields (g : TicTacToe) :
  board (after_move g) = board g
  /\ npc_symbol (after_move g) = npc_symbol g
  /\ player_symbol (after_move g) = player_symbol g
  /\ (evaluate (board g) = InProgress ->
      current_player (after_move g)
      = if cell_eqb (current_player g) (player_symbol g)
        then npc_symbol g else player_symbol g).
Proof.
  unfold after_move.
  destruct (evaluate (board g)); repeat split; try reflexivity; discriminate.
Qed.

(** The invariant after a move of the side to move, given that the
    other side cannot force a win from the new board. *)
Lemma hard_invariant_move (g : TicTacToe) (r c : nat) :
  hard_invariant g -> evaluate (board g) = InProgress ->
  r < 3 -> c < 3 -> get (board g) r c = Blank ->
  opponent_forces_win (npc_symbol g) (player_symbol g)
    (set_grid (board g) r c (current_player g))
    (negb (cell_eqb (current_player g) (npc_symbol g))) = false ->
  hard_invariant (after_move (set_cell g r c (current_player g))).
Proof.
  intros (Hwf & Hroles & _ & Hin) Hprog Hr Hc Hblank Hsafe.
  destruct (Hin Hprog) as (Hto & _).
  pose proof (after_move_fields (set_cell g r c (current_player g)))
    as (Hboard & Hnpc & Hpl & Hnext).
  simpl in Hboard, Hnpc, Hpl.
  unfold hard_invariant. rewrite Hboard, Hnpc, Hpl.
  split; [now apply set_grid_wf|]. split; [assumption|].
  split; [eapply not_forced_not_won; unfold opponent_forces_win in Hsafe; exact Hsafe|].
  intros Hprog'.
  assert (Hcur : current_player (after_move (set_cell g r c (current_player g)))
                 = if cell_eqb (current_player g) (player_symbol g)
                   then npc_symbol g else player_symbol g).
  { apply Hnext. exact Hprog'. }
  rewrite Hcur.
  destruct Hroles as [[Hn Hp]|[Hn Hp]]; rewrite Hn, Hp in *;
    destruct (to_move_symbol _ _ Hto) as [Hs|Hs]; rewrite Hs in *; simpl in *;
    (split; [|exact Hsafe]).
  - apply (@to_move_next X O); auto. now right.
  - apply (@to_move_next O X); auto. now left.
  - apply (@to_move_next X O); auto. now right.
  - apply (@to_move_next O X); auto. now left.
Qed.

Lemma hard_invariant_npc_turn (g : TicTacToe) (r c : nat) (b' : grid) (g' : TicTacToe) :
  hard_invariant g -> evaluate (board g) = InProgress ->
  current_player g = npc_symbol g ->
  hard_move (npc_symbol g) (player_symbol g) (board g) = Some (Some (r, c), b') ->
  turn (with_board g b') (Z.of_nat r) (Z.of_nat c) = Some g' ->
  hard_invariant g'.
Proof.
  intros Hinv Hprog Hcur Hh Hturn.
  pose proof Hinv as (Hwf & Hroles & _ & Hin).
  destruct (Hin Hprog) as (Hto & Hsafe).
  rewrite Hcur, cell_eqb_refl in Hsafe.
  destruct (safe_step Hroles Hwf Hprog Hsafe) as (r0 & c0 & Hh0 & Hr & Hc & Hb & Hs).
  rewrite Hh0 in Hh. injection Hh as <- <- <-.
  rewrite with_board_same in Hturn.
  rewrite (turn_cell g Hr Hc Hb) in Hturn. injection Hturn as <-.
  apply hard_invariant_move; auto.
  now rewrite Hcur, cell_eqb_refl.
Qed.

Lemma hard_invariant_other_turn (g : TicTacToe) (row col : Z) (g' : TicTacToe) :
  hard_invariant g -> evaluate (board g) = InProgress ->
  current_player g <> npc_symbol g ->
  turn g row col = Some g' ->
  hard_invariant g'.
Proof.
  intros Hinv Hprog Hcur Hturn.
  pose proof Hinv as (Hwf & Hroles & _ & Hin).
  destruct (Hin Hprog) as (Hto & Hsafe).
  apply turn_inv in Hturn. destruct Hturn as (Hr & Hc & Hb & ->).
  apply hard_invariant_move; auto.
  assert (Hne : cell_eqb (current_player g) (npc_symbol g) = false)
    by now apply cell_eqb_neq.
  rewrite Hne in *. simpl.
  assert (Hpl : current_player g = player_symbol g).
  { destruct Hroles as [[Hn Hp]|[Hn Hp]]; rewrite Hn, Hp in *;
      destruct (to_move_symbol _ _ Hto); congruence. }
  assert (Hmark : player_symbol g <> Blank).
  { destruct Hroles as [[_ ->]|[_ ->]]; discriminate. }
  pose proof (count_empty_set Hwf Hr Hc Hb Hmark) as Hcount.
  unfold opponent_forces_win in *.
  rewrite <- Hcount, forces_win_within_S in Hsafe.
  apply evaluate_in_progress in Hprog. destruct Hprog as [Hw Hf].
  rewrite Hw, Hf in Hsafe.
  rewrite Hpl.
  apply (some_false _ _ (Z.to_nat row, Z.to_nat col) Hsafe).
  now apply available_moves_in.
Qed.

Lemma hard_play_invariant (g0 g : TicTacToe) :
  hard_invariant g0 -> hard_play g0 g -> hard_invariant g.
Proof.
  intros H0. induction 1 as [|g r c b' g' _ IH Hprog Hcur Hh Hturn
                                |g row col g' _ IH Hprog Hcur Hturn].
  - exact H0.
  - eapply hard_invariant_npc_turn; eassumption.
  - eapply hard_invariant_other_turn; eassumption.
Qed.

Lemma play_moves_legal (g0 : TicTacToe) (moves : list (Z * Z)) :
  forall g g', legal_play g0 g -> play_moves g moves = Some g' -> legal_play g0 g'.
Proof.
  induction moves as [|[row col] rest IH]; intros g g' Hg; simpl.
  - now intros [= <-].
  - destruct (evaluate (board g)) eqn:He; try discriminate.
    destruct (turn g row col) as [g1|] eqn:Ht; [|discriminate].
    apply IH. eapply legal_turn; eassumption.
Qed.

Lemma hard_vs_hard_draw (p : bool) (d : string) :
  let gd := mkTicTacToe [[X; X; O]; [O; O; X]; [X; O; X]] X p d X O in
  hard_vs_hard 9 (new_game p d) = Some gd /\ evaluate (board gd) = Draw.
Proof. split; vm_compute; reflexivity. Qed.

(** C1, from a board that is not already lost: in a game in progress on
    a 3x3 board with the counts of the side to move, from which the
    opposing side cannot force a win (the empty board is one, whoever
    moves first), if [hard_move] is played at every turn of its side
    then no position of the game is a win of the opposing symbol: the
    game is in progress, a draw or a win of the strategy, and while it
    is in progress at the strategy's turn [hard_move] returns a cell
    that is accepted.  When both sides play [hard_move] from the empty
    board the game ends in a draw. *)
Theorem hard_never_loses (g0 g : TicTacToe) :
  wf_grid (board g0) ->
  roles (npc_symbol g0) (player_symbol g0) ->
  evaluate (board g0) = InProgress ->
  to_move (current_player g0) (board g0) = true ->
  opponent_forces_win (npc_symbol g0) (player_symbol g0) (board g0)
    (cell_eqb (current_player g0) (npc_symbol g0)) = false ->
  hard_play g0 g ->
  check_winner (board g) <> Some (player_symbol g)
  /\ (evaluate (board g) = InProgress \/ evaluate (board g) = Draw
      \/ evaluate (board g) = Win (npc_symbol g))
  /\ (evaluate (board g) = InProgress -> current_player g = npc_symbol g ->
      exists r c g',
        hard_move (npc_symbol g) (player_symbol g) (board g) = Some (Some (r, c), board g)
        /\ turn g (Z.of_nat r) (Z.of_nat c) = Some g')
  /\ (forall p d, exists gd,
        hard_vs_hard 9 (new_game p d) = Some gd /\ evaluate (board gd) = Draw).
Proof.
  intros Hwf Hroles Hprog Hto Hsafe Hplay.
  assert (H0 : hard_invariant g0).
  { split; [assumption|]. split; [assumption|]. split; [|auto].
    apply evaluate_in_progress in Hprog. destruct Hprog as [-> _]. discriminate. }
  pose proof (hard_play_invariant H0 Hplay) as (Hwfg & Hrg & Hnot & Hin).
  split; [assumption|]. split; [|split].
  - unfold evaluate in *. destruct (check_winner (board g)) as [w|] eqn:Hw.
    + right. right. f_equal.
      pose proof (check_winner_symbol _ Hw) as Hmark.
      destruct Hrg as [[Hn Hp]|[Hn Hp]]; rewrite Hn, Hp in *; destruct w; congruence.
    + destruct (is_full (board g)); auto.
  - intros Hpg Hcur. destruct (Hin Hpg) as (Htg & Hsg).
    rewrite Hcur, cell_eqb_refl in Hsg.
    destruct (safe_step Hrg Hwfg Hpg Hsg) as (r & c & Hh & Hr & Hc & Hb & _).
    exists r, c. eexists. split; [exact Hh | now apply turn_cell].
  - intros p d. eexists. exact (hard_vs_hard_draw p d).
Qed.

(** From the empty board, with [X] (the other side) to move first. *)
Lemma hard_never_loses_witness :
  let g0 := new_game true "hard" in
  check_winner (board g0) <> Some (player_symbol g0)
  /\ (evaluate (board g0) = InProgress \/ evaluate (board g0) = Draw
      \/ evaluate (board g0) = Win (npc_symbol g0))
  /\ (evaluate (board g0) = InProgress -> current_player g0 = npc_symbol g0 ->
      exists r c g',
        hard_move (npc_symbol g0) (player_symbol g0) (board g0)
        = Some (Some (r, c), board g0)
        /\ turn g0 (Z.of_nat r) (Z.of_nat c) = Some g')
  /\ (forall p d, exists gd,
        hard_vs_hard 9 (new_game p d) = Some gd /\ evaluate (board gd) = Draw).
Proof.
  apply (@hard_never_loses (new_game true "hard") (new_game true "hard")).
  - apply shape_wf_grid.
  - left. split; reflexivity.
  - reflexivity.
  - reflexivity.
  - vm_compute. reflexivity.
  - apply hard_start.
Defined.

(** C1 as stated fails on a board of legal play that is already lost:
    after X (0,0), O (2,1), X (0,2), O (2,2), X (2,0) it is the turn of
    [O], which plays the cell of [hard_move], and [X] wins at (1,0). *)
Lemma hard_play_counterexample :
  let g0 := mkTicTacToe [[X; Blank; X]; [Blank; Blank; Blank]; [X; O; O]]
                        O true "hard" X O in
  legal_play (new_game true "hard") g0
  /\ current_player g0 = npc_symbol g0
  /\ evaluate (board g0) = InProgress
  /\ exists g, hard_play g0 g /\ check_winner (board g) = Some (player_symbol g).
Proof.
  split.
  { apply (@play_moves_legal (new_game true "hard")
             [(0, 0); (2, 1); (0, 2); (2, 2); (2, 0)]%Z (new_game true "hard"));
      [apply legal_start | reflexivity]. }
  split; [reflexivity|]. split; [reflexivity|].
  eexists. split.
  - eapply (@hard_other_turn _ _ 1%Z 0%Z).
    + eapply (@hard_npc_turn _ _ 0 1).
      * apply hard_start.
      * reflexivity.
      * reflexivity.
      * vm_compute. reflexivity.
      * reflexivity.
    + reflexivity.
    + discriminate.
    + reflexivity.
  - reflexivity.
Qed.

(* ================================================================== *)
(** ** Further properties of the board operations *)

(** X1: along accepted moves, each followed by [switch_player], a cell
    that is taken keeps its symbol: [make_move] never writes over a
    move. *)
Theorem occupied_cells_kept (g0 g : TicTacToe) (r c : nat) :
  reachable g0 g ->
  get (board g0) r c <> Blank ->
  get (board g) r c = get (board g0) r c.
Proof.
  intros Hreach Htaken.
  induction Hreach as [|g row col g' _ IH Hmove]; [reflexivity|].
  apply make_move_ok in Hmove. destruct Hmove as (_ & _ & Hblank & ->).
  simpl. rewrite <- IH. apply get_set_other.
  intros [= -> ->]. rewrite IH in Hblank. contradiction.
Qed.

Lemma occupied_cells_kept_witness :
  let g1 := switch_player (set_cell (new_game true "hard") 1 1 X) in
  let g2 := switch_player (set_cell g1 0 0 O) in
  reachable g1 g2 /\ get (board g2) 1 1 = get (board g1) 1 1.
Proof.
  assert (H : reachable (switch_player (set_cell (new_game true "hard") 1 1 X))
                (switch_player
                   (set_cell (switch_player (set_cell (new_game true "hard") 1 1 X))
                             0 0 O))).
  { apply (@reach_move _ (switch_player (set_cell (new_game true "hard") 1 1 X))
             0%Z 0%Z); [constructor | reflexivity]. }
  split; [exact H|].
  apply (occupied_cells_kept 1 1 H). discriminate.
Defined.

(* ================================================================== *)
(** ** A move can only win for its symbol *)

Lemma in_line_dec (rc : nat * nat) (l : list (nat * nat)) : {In rc l} + {~ In rc l}.
Proof. apply in_dec. decide equality; apply Nat.eq_dec. Qed.

Lemma line_coords_lt (k : nat) (rc : nat * nat) :
  In rc (nth k line_coords []) -> fst rc < 3 /\ snd rc < 3.
Proof.
  do 8 (destruct k as [|k];
        [simpl; intros H; repeat (destruct H as [<-|H]; [simpl; lia|]); destruct H|]).
  destruct k; intros [].
Qed.

(** On a board without a complete line, a line that is complete after a
    placement holds the symbol placed. *)
Lemma placement_lines (b : grid) (r c : nat) (s w : cell) (k : nat) :
  wf_grid b -> r < 3 -> c < 3 ->
  check_winner b = None -> k < 8 ->
  line_holds (set_grid b r c s) w (nth k line_coords []) -> w = s.
Proof.
  intros Hwf Hr Hc Hnone Hk [Hmark Hline].
  destruct (in_line_dec (r, c) (nth k line_coords [])) as [Hin|Hout].
  - specialize (Hline _ Hin). cbn [fst snd] in Hline.
    rewrite (get_set_same s Hwf Hr Hc) in Hline. congruence.
  - exfalso. apply (check_winner_none Hwf) in Hnone.
    apply (Hnone k w Hk). split; [assumption|].
    intros rc Hin. rewrite <- (Hline rc Hin). symmetry.
    apply get_set_other. intros Heq. apply Hout.
    destruct rc as [r' c']. cbn [fst snd] in Heq. now rewrite <- Heq.
Qed.

Lemma placement_winner (b : grid) (r c : nat) (s w : cell) :
  wf_grid b -> r < 3 -> c < 3 ->
  check_winner b = None ->
  check_winner (set_grid b r c s) = Some w -> w = s.
Proof.
  intros Hwf Hr Hc Hnone Hw.
  apply (check_winner_some w (set_grid_wf r c s Hwf)) in Hw.
  destruct Hw as (k & Hk & Hline & _).
  exact (@placement_lines b r c s w k Hwf Hr Hc Hnone Hk Hline).
Qed.

(** X2: in a game in progress on a 3x3 board, after an accepted move
    every complete line holds the symbol of the player who moved: the
    winner that [check_winner] reports, if any, is that player whatever
    the order of the lines, and the turn loop leaves that player
    current. *)
Theorem winner_is_mover (g : TicTacToe) (row col : Z) (g' : TicTacToe) :
  wf_grid (board g) ->
  evaluate (board g) = InProgress ->
  turn g row col = Some g' ->
  (forall k s, k < 8 -> line_holds (board g') s (nth k line_coords []) ->
     s = current_player g)
  /\ (forall w, check_winner (board g') = Some w ->
        w = current_player g /\ current_player g' = current_player g).
Proof.
  intros Hwf Hprog Hturn.
  apply turn_inv in Hturn. destruct Hturn as (Hr & Hc & Hblank & ->).
  apply evaluate_in_progress in Hprog. destruct Hprog as [Hnone _].
  destruct (after_move_fields (set_cell g (Z.to_nat row) (Z.to_nat col) (current_player g)))
    as (Hboard & _ & _ & _).
  rewrite Hboard. simpl. split.
  - intros k s Hk Hline.
    exact (@placement_lines _ _ _ _ _ _ Hwf Hr Hc Hnone Hk Hline).
  - intros w Hw.
    split; [exact (@placement_winner _ _ _ _ _ Hwf Hr Hc Hnone Hw)|].
    unfold after_move, evaluate. simpl. now rewrite Hw.
Qed.

Lemma winner_is_mover_witness :
  let g := mkTicTacToe [[X; X; Blank]; [O; O; Blank]; [Blank; Blank; Blank]]
                       X true "hard" X O in
  exists g', turn g 0 2 = Some g'
    /\ (forall k s, k < 8 -> line_holds (board g') s (nth k line_coords []) ->
          s = current_player g)
    /\ (forall w, check_winner (board g') = Some w ->
          w = current_player g /\ current_player g' = current_player g).
Proof.
  eexists. split; [reflexivity|].
  apply (@winner_is_mover
           (mkTicTacToe [[X; X; Blank]; [O; O; Blank]; [Blank; Blank; Blank]]
                        X true "hard" X O) 0%Z 2%Z);
    [apply shape_wf_grid | reflexivity | reflexivity].
Defined.

(* ================================================================== *)
(** ** [find_best_move] on every board *)

Lemma for_in_first_some (A St R : Type) (q : A -> option R) (xs : list A)
      (body : A -> St -> St * signal R) (s : St) :
  (forall x, body x s = (s, match q x with Some r => Returned r | None => Normal end)) ->
  for_in xs body s = (s, first_some q xs).
Proof.
  intros Hbody. induction xs as [|x xs IH]; [reflexivity|].
  simpl. rewrite Hbody. destruct (q x); [reflexivity | exact IH].
Qed.

Lemma first_some_cells (R : Type) (q : nat * nat -> option R) :
  first_some (fun row => first_some (fun col => q (row, col)) range3) range3
  = first_some q cells_row_major.
Proof.
  unfold range3, cells_row_major. simpl.
  repeat match goal with
         | |- context [match q ?rc with _ => _ end] => destruct (q rc); [reflexivity|]
         end.
  reflexivity.
Qed.

Lemma first_some_find (A : Type) (p : A -> bool) (xs : list A) :
  first_some (fun x => if p x then Some x else None) xs = find p xs.
Proof.
  induction xs as [|x xs IH]; [reflexivity|].
  simpl. destruct (p x); [reflexivity | exact IH].
Qed.

Lemma find_best_move_find (b : grid) (symbol : cell) :
  find_best_move b symbol = (b, find (winning_cell b symbol) cells_row_major).
Proof.
  unfold find_best_move.
  rewrite <- first_some_find,
    <- (first_some_cells (fun rc => if winning_cell b symbol rc then Some rc else None)).
  apply for_in_first_some. intros row.
  rewrite (@for_in_first_some nat grid (nat * nat)
             (fun col => if winning_cell b symbol (row, col) then Some (row, col) else None)).
  - destruct (first_some _ range3); reflexivity.
  - intros col. unfold winning_cell. cbn [fst snd].
    destruct (cell_eqb (get b row col) Blank) eqn:Hblank; [|reflexivity].
    apply cell_eqb_eq in Hblank. rewrite (@set_grid_undo b row col symbol Hblank).
    simpl. destruct (opt_cell_eqb _ _); reflexivity.
Qed.

(** X3: on every board [find_best_move] hands the board back and returns
    the first cell in row-major order that is empty and where placing
    [symbol] makes [check_winner] report [symbol]; it returns [None]
    exactly when no cell is such. *)
Theorem find_best_move_first_winning (b : grid) (symbol : cell) :
  (forall r c, find_best_move b symbol = (b, Some (r, c)) ->
     get b r c = Blank
     /\ check_winner (set_grid b r c symbol) = Some symbol
     /\ exists pre post,
          cells_row_major = pre ++ (r, c) :: post
          /\ forall rc, In rc pre -> winning_cell b symbol rc = false)
  /\ (find_best_move b symbol = (b, None) <->
      forall rc, In rc cells_row_major -> winning_cell b symbol rc = false)
  /\ fst (find_best_move b symbol) = b.
Proof.
  rewrite find_best_move_find. split; [|split; [|reflexivity]].
  - intros r c Hfb.
    assert (Hfind : find (winning_cell b symbol) cells_row_major = Some (r, c))
      by congruence.
    clear Hfb. pose proof (find_some _ _ Hfind) as [_ Hwin].
    unfold winning_cell in Hwin. cbn [fst snd] in Hwin.
    apply andb_true_iff in Hwin. destruct Hwin as [Hblank Hw].
    apply cell_eqb_eq in Hblank. split; [assumption|]. split.
    + destruct (check_winner (set_grid b r c symbol)) as [w|]; [|discriminate].
      simpl in Hw. apply cell_eqb_eq in Hw. now subst.
    + clear Hblank Hw. revert Hfind. generalize cells_row_major as cells.
      induction cells as [|rc cells IH]; [discriminate|].
      simpl. destruct (winning_cell b symbol rc) eqn:Hrc.
      * intros [= ->]. exists [], cells. split; [reflexivity | intros rc []].
      * intros Hfind. destruct (IH Hfind) as (pre & post & -> & Hpre).
        exists (rc :: pre), post. split; [reflexivity|].
        intros rc' [<-|Hin]; auto.
  - split.
    + intros Hfb rc Hin.
      assert (Hfind : find (winning_cell b symbol) cells_row_major = None)
        by congruence.
      exact (find_none _ _ Hfind rc Hin).
    + intros Hall. f_equal.
      destruct (find (winning_cell b symbol) cells_row_major) as [rc|] eqn:Hfind;
        [|reflexivity].
      pose proof (find_some _ _ Hfind) as [Hin Hwin].
      rewrite (Hall rc Hin) in Hwin. discriminate.
Qed.

Lemma find_best_move_first_winning_witness :
  let b := [[X; Blank; X]; [O; O; Blank]; [Blank; Blank; Blank]] in
  find_best_move b O = (b, Some (1, 2))
  /\ get b 1 2 = Blank
  /\ check_winner (set_grid b 1 2 O) = Some O.
Proof.
  assert (H : find_best_move [[X; Blank; X]; [O; O; Blank]; [Blank; Blank; Blank]] O
              = ([[X; Blank; X]; [O; O; Blank]; [Blank; Blank; Blank]], Some (1, 2)))
    by reflexivity.
  split; [exact H|].
  destruct (find_best_move_first_winning
              [[X; Blank; X]; [O; O; Blank]; [Blank; Blank; Blank]] O) as (Hsome & _ & _).
  destruct (Hsome 1 2 H) as (Hb & Hw & _). split; [exact Hb | exact Hw].
Defined.

(* ================================================================== *)
(** ** The strategies return empty cells *)




Lemma corners_sides_lt (rc : nat * nat) :
  In rc corners \/ In rc sides -> fst rc < 3 /\ snd rc < 3.
Proof.
  unfold corners, sides. simpl.
  intros [H|H]; repeat (destruct H as [<-|H]; [simpl; lia|]); destruct H.
Qed.

Lemma medium_move_available (npc player : cell) (rng : nat) (b : grid) :
  available_moves b <> [] ->
  exists r c, medium_move npc player rng b = (Ok (r, c), b)
              /\ In (r, c) (available_moves b).
Proof.
  intros Hav. unfold medium_move.
  assert (Hfind : forall s r c,
             find (winning_cell b s) cells_row_major = Some (r, c) ->
             In (r, c) (available_moves b)).
  { intros s r c Hf. apply find_some in Hf. destruct Hf as [Hin Hwin].
    apply cells_row_major_lt in Hin. cbn [fst snd] in Hin.
    unfold winning_cell in Hwin. apply andb_true_iff in Hwin.
    destruct Hwin as [Hblank _]. apply cell_eqb_eq in Hblank.
    apply available_moves_in. tauto. }
  assert (Hamong : forall cs x l,
             (forall rc, In rc cs -> fst rc < 3 /\ snd rc < 3) ->
             available_among b cs = x :: l ->
             exists r c, random_choice rng (x :: l) = Ok (r, c)
                         /\ In (r, c) (available_moves b)).
  { intros cs x l Hlt Hl.
    destruct (@random_choice_in _ rng (x :: l) ltac:(discriminate)) as ([r c] & Hrc & Hin).
    rewrite <- Hl in Hin. apply available_among_in in Hin. destruct Hin as [Hcs Hblank].
    exists r, c. split; [assumption|]. apply available_moves_in.
    destruct (Hlt _ Hcs). cbn [fst snd] in *. tauto. }
  rewrite find_best_move_find.
  destruct (find (winning_cell b npc) cells_row_major) as [[r c]|] eqn:H1;
    [exists r, c; split; [reflexivity | eapply Hfind; eassumption]|].
  rewrite find_best_move_find.
  destruct (find (winning_cell b player) cells_row_major) as [[r c]|] eqn:H2;
    [exists r, c; split; [reflexivity | eapply Hfind; eassumption]|].
  destruct (cell_eqb (get b 1 1) Blank) eqn:Hc.
  { exists 1, 1. split; [reflexivity|]. apply available_moves_in.
    apply cell_eqb_eq in Hc. repeat split; auto. }
  destruct (available_among b corners) as [|x l] eqn:Hcor.
  - destruct (available_among b sides) as [|y l'] eqn:Hsid.
    + destruct (random_choice_in rng Hav) as ([r c] & Hrc & Hin).
      exists r, c. unfold random_move. rewrite Hrc. auto.
    + destruct (Hamong sides y l') as (r & c & Hrc & Hin); auto.
      { intros rc Hin. apply corners_sides_lt. now right. }
      exists r, c. rewrite Hrc. auto.
  - destruct (Hamong corners x l) as (r & c & Hrc & Hin); auto.
    { intros rc Hin. apply corners_sides_lt. now left. }
    exists r, c. rewrite Hrc. auto.
Qed.

(** X5: on a 3x3 board with an empty cell every strategy, whatever the
    difficulty and the draw of the generator, returns an empty cell of
    the board and hands the board back, so the [make_move] that follows
    is accepted. *)
Theorem npc_move_accepted (g : TicTacToe) (diff : string) (rng : nat) :
  wf_grid (board g) ->
  npc_symbol g <> Blank -> player_symbol g <> Blank ->
  available_moves (board g) <> [] ->
  exists r c,
    npc_move (npc_symbol g) (player_symbol g) diff rng (board g)
    = Some (Ok (Some (r, c)), board g)
    /\ In (r, c) (available_moves (board g))
    /\ make_move g (Z.of_nat r) (Z.of_nat c)
       = (Ok true, set_cell g r c (current_player g)).
Proof.
  intros Hwf Hn Hp Hav.
  assert (Hmove : forall r c, In (r, c) (available_moves (board g)) ->
             make_move g (Z.of_nat r) (Z.of_nat c)
             = (Ok true, set_cell g r c (current_player g))).
  { intros r c Hin. apply available_moves_in in Hin. destruct Hin as (Hr & Hc & Hb).
    unfold make_move.
    assert (Hin : ((0 <=? Z.of_nat r)%Z && (Z.of_nat r <? 3)%Z
                   && ((0 <=? Z.of_nat c)%Z && (Z.of_nat c <? 3)%Z)) = true)
      by (apply in_bounds_dec; lia).
    rewrite Hin, !Nat2Z.id, Hb. reflexivity. }
  assert (Hrandom : exists r c,
             returned (random_move rng (board g)) = Ok (Some (r, c))
             /\ In (r, c) (available_moves (board g))).
  { destruct (random_choice_in rng Hav) as ([r c] & Hrc & Hin).
    exists r, c. unfold random_move. rewrite Hrc. auto. }
  unfold npc_move.
  destruct (String.eqb diff "easy").
  { destruct Hrandom as (r & c & -> & Hin). exists r, c. auto. }
  destruct (String.eqb diff "medium").
  { destruct (@medium_move_available (npc_symbol g) (player_symbol g) rng (board g) Hav)
      as (r & c & -> & Hin).
    exists r, c. auto. }
  destruct (String.eqb diff "hard").
  { destruct (@hard_move_plain (npc_symbol g) (player_symbol g) Hn Hp (board g) Hwf)
      as (mv & Hh & _ & Hsome).
    destruct mv as [[r c]|]; [|exfalso; now apply Hsome].
    destruct (hard_move_first_best _ _ _ Hh) as (pre & post & v & Hsplit & Hblank & _).
    cbn [fst snd] in Hblank.
    assert (Hcell : In (r, c) cells_row_major)
      by (rewrite Hsplit; apply in_or_app; right; now left).
    destruct (cells_row_major_lt Hcell) as [Hr Hc]. cbn [fst snd] in Hr, Hc.
    assert (Hin : In (r, c) (available_moves (board g))) by now apply available_moves_in.
    exists r, c. rewrite Hh. auto. }
  destruct Hrandom as (r & c & -> & Hin). exists r, c. auto.
Qed.

Lemma npc_move_accepted_witness :
  let g := switch_player (set_cell (new_game true "hard") 1 1 X) in
  exists r c,
    npc_move (npc_symbol g) (player_symbol g) "medium" 7 (board g)
    = Some (Ok (Some (r, c)), board g)
    /\ In (r, c) (available_moves (board g))
    /\ make_move g (Z.of_nat r) (Z.of_nat c)
       = (Ok true, set_cell g r c (current_player g)).
Proof.
  apply (@npc_move_accepted (switch_player (set_cell (new_game true "hard") 1 1 X))
           "medium" 7); [apply shape_wf_grid | discriminate | discriminate | discriminate].
Defined.

(* ================================================================== *)
(** ** [hard_move] takes a win that is one move away *)

Section ImmediateWin.

Variables npc player : cell.
Hypothesis npc_mark : npc <> Blank.
Hypothesis player_mark : player <> Blank.

(** A node at depth [depth] is worth at most [10 - depth]. *)
Lemma plain_upper (fuel : nat) :
  forall b depth m t,
    wf_grid b -> (depth + Z.of_nat fuel <= 11)%Z ->
    plain_minimax npc player fuel b depth m = Some t ->
    (t <= 10 - depth)%Z.
Proof.
  induction fuel as [|fuel IH]; intros b depth m t Hwf Hdepth; [discriminate|].
  rewrite plain_minimax_S.
  destruct (opt_cell_eqb (check_winner b) npc);
    [intros H; assert (t = 10 - depth)%Z by congruence; lia|].
  destruct (opt_cell_eqb (check_winner b) player);
    [intros H; assert (t = depth - 10)%Z by congruence; lia|].
  destruct (is_full b) eqn:Hfull; [intros H; assert (t = 0)%Z by congruence; lia|].
  pose proof (not_full_moves Hwf Hfull) as Hne.
  assert (Hchild : forall s m' rc e,
             plain_minimax npc player fuel (set_grid b (fst rc) (snd rc) s)
                           (depth + 1)%Z m' = Some e ->
             (e <= 10 - depth)%Z).
  { intros s m' rc e He.
    apply IH in He; [lia | now apply set_grid_wf | lia]. }
  destruct m; intros Hf.
  - pose proof (fold_max_scores _ _ _ Hf) as Hall.
    rewrite (@fold_max_spec _ _ (- maxsize)%Z Hall) in Hf.
    assert (Ht : fold_left Z.max
                     (map (value_of (fun rc => plain_minimax npc player fuel
                        (set_grid b (fst rc) (snd rc) npc) (depth + 1)%Z false))
                          (available_moves b)) (- maxsize)%Z = t) by congruence.
    rewrite <- Ht. apply fold_max_le. split; [unfold maxsize; lia|].
    intros x Hx. apply in_map_iff in Hx. destruct Hx as (rc & <- & Hin).
    destruct (Hall rc Hin) as (e & He). unfold value_of. rewrite He.
    exact (Hchild _ _ _ _ He).
  - pose proof (fold_min_scores _ _ _ Hf) as Hall.
    rewrite (@fold_min_spec _ _ maxsize Hall) in Hf.
    assert (Ht : fold_left Z.min
                     (map (value_of (fun rc => plain_minimax npc player fuel
                        (set_grid b (fst rc) (snd rc) player) (depth + 1)%Z true))
                          (available_moves b)) maxsize = t) by congruence.
    rewrite <- Ht. apply fold_min_le. right.
    destruct (available_moves b) as [|rc l] eqn:Hav; [congruence|].
    destruct (Hall rc (or_introl eq_refl)) as (e & He).
    exists e. split; [left; unfold value_of; now rewrite He|].
    exact (Hchild _ _ _ _ He).
Qed.

(** The score of an empty cell is 10 when placing [npc] there wins, and
    at most 9 otherwise. *)
Lemma score_of_win (b : grid) (rc : nat * nat) :
  wf_grid b -> In rc (available_moves b) ->
  exists t, candidate_score npc player b rc = Some t
            /\ (if winning_cell b npc rc then t = 10%Z else (t <= 9)%Z).
Proof.
  intros Hwf Hin.
  destruct (@root_score npc player npc_mark player_mark b rc Hwf Hin) as (t & Hm & Hpl & _).
  exists t. split.
  { unfold candidate_score, score_with. now rewrite Hm. }
  destruct rc as [r c]. cbn [fst snd] in *.
  apply available_moves_in in Hin. destruct Hin as (Hr & Hc & Hb).
  pose proof (set_grid_wf r c npc Hwf) as Hwf'.
  unfold winning_cell. cbn [fst snd]. rewrite Hb. cbn [cell_eqb andb].
  unfold search_fuel in Hpl. rewrite plain_minimax_S in Hpl.
  destruct (opt_cell_eqb (check_winner (set_grid b r c npc)) npc);
    [assert (t = 10 - 0)%Z by congruence; lia|].
  destruct (opt_cell_eqb (check_winner (set_grid b r c npc)) player);
    [assert (t = 0 - 10)%Z by congruence; lia|].
  destruct (is_full (set_grid b r c npc)) eqn:Hfull;
    [assert (t = 0)%Z by congruence; lia|].
  pose proof (not_full_moves Hwf' Hfull) as Hne.
  pose proof (fold_min_scores _ _ _ Hpl) as Hall.
  rewrite (@fold_min_spec _ _ maxsize Hall) in Hpl.
  assert (Ht : fold_left Z.min
                 (map (value_of (fun rc => plain_minimax npc player 9
                    (set_grid (set_grid b r c npc) (fst rc) (snd rc) player)
                    (0 + 1)%Z true))
                      (available_moves (set_grid b r c npc))) maxsize = t) by congruence.
  rewrite <- Ht. apply fold_min_le. right.
  destruct (available_moves (set_grid b r c npc)) as [|rc l] eqn:Hav; [congruence|].
  destruct (Hall rc (or_introl eq_refl)) as (e & He).
  exists e. split; [left; unfold value_of; now rewrite He|].
  apply plain_upper in He; [lia | now apply set_grid_wf | lia].
Qed.

End ImmediateWin.

Lemma find_first (A : Type) (p : A -> bool) (pre post : list A) (x y : A) :
  find p (pre ++ y :: post) = Some x ->
  p y = true -> (forall z, In z pre -> p z = false) -> x = y.
Proof.
  intros Hf Hy Hpre. induction pre as [|z pre IH]; simpl in Hf.
  - rewrite Hy in Hf. congruence.
  - rewrite (Hpre z (or_introl eq_refl)) in Hf. apply IH; [assumption|].
    intros z' Hin. apply Hpre. now right.
Qed.

(** X6: on every 3x3 board on which [find_best_move] finds a cell for
    the strategy's symbol, [hard_move] returns that same cell: a win one
    move away is taken, at the first such cell in row-major order. *)
Theorem hard_move_takes_win (npc player : cell) (b : grid) (rc : nat * nat) :
  wf_grid b -> npc <> Blank -> player <> Blank ->
  find_best_move b npc = (b, Some rc) ->
  hard_move npc player b = Some (Some rc, b)
  /\ check_winner (set_grid b (fst rc) (snd rc) npc) = Some npc.
Proof.
  intros Hwf Hn Hp Hfb.
  assert (Hfind : find (winning_cell b npc) cells_row_major = Some rc)
    by (rewrite find_best_move_find in Hfb; congruence).
  clear Hfb. pose proof (find_some _ _ Hfind) as [Hcell0 Hwin0].
  assert (Hwin0' := Hwin0). unfold winning_cell in Hwin0'.
  apply andb_true_iff in Hwin0'. destruct Hwin0' as [Hb0 Hw0].
  apply cell_eqb_eq in Hb0.
  split.
  2:{ destruct (check_winner _) as [w|]; [|discriminate].
      simpl in Hw0. apply cell_eqb_eq in Hw0. now subst. }
  assert (Hin0 : In rc (available_moves b)).
  { destruct rc as [r0 c0]. apply available_moves_in.
    destruct (cells_row_major_lt Hcell0). cbn [fst snd] in *. tauto. }
  assert (Hav : available_moves b <> []) by (intros E; rewrite E in Hin0; destruct Hin0).
  destruct (@hard_move_plain npc player Hn Hp b Hwf) as (mv & Hh & _ & Hsome).
  destruct mv as [[r c]|]; [|exfalso; now apply Hsome].
  destruct (hard_move_first_best _ _ _ Hh)
    as (pre & post & v & Hsplit & Hblank & Hv & Hpre & Hpost).
  cbn [fst snd] in Hblank.
  assert (Hcell : In (r, c) cells_row_major)
    by (rewrite Hsplit; apply in_or_app; right; now left).
  destruct (cells_row_major_lt Hcell) as [Hr Hc]. cbn [fst snd] in Hr, Hc.
  assert (Hin : In (r, c) (available_moves b)) by now apply available_moves_in.
  destruct (@score_of_win npc player Hn Hp b rc Hwf Hin0) as (t0 & Hs0 & Ht0).
  rewrite Hwin0 in Ht0. subst t0.
  (* the best score is at least 10 *)
  assert (Hv10 : (10 <= v)%Z).
  { rewrite Hsplit in Hcell0. apply in_app_or in Hcell0.
    destruct Hcell0 as [Hi|[Heq|Hi]].
    - destruct (Hpre _ Hi Hb0) as (v' & Hv' & Hlt).
      assert (v' = 10%Z) by congruence. lia.
    - rewrite <- Heq in Hs0. assert (v = 10%Z) by congruence. lia.
    - destruct (Hpost _ Hi Hb0) as (v' & Hv' & Hlt).
      assert (v' = 10%Z) by congruence. lia. }
  destruct (@score_of_win npc player Hn Hp b (r, c) Hwf Hin) as (t & Hs & Ht).
  assert (v = t) by congruence. subst v.
  destruct (winning_cell b npc (r, c)) eqn:Hwin; [|lia].
  assert (Heq : rc = (r, c)).
  { rewrite Hsplit in Hfind. apply (@find_first _ _ pre post rc (r, c) Hfind Hwin).
    intros z Hz. destruct (winning_cell b npc z) eqn:Hwz; [|reflexivity].
    assert (Hwz' := Hwz). unfold winning_cell in Hwz'.
    apply andb_true_iff in Hwz'. destruct Hwz' as [Hbz _]. apply cell_eqb_eq in Hbz.
    destruct (Hpre _ Hz Hbz) as (v' & Hv' & Hlt).
    assert (Hinz : In z (available_moves b)).
    { destruct z as [rz cz]. apply available_moves_in.
      assert (Hcz : In (rz, cz) cells_row_major)
        by (rewrite Hsplit; apply in_or_app; now left).
      destruct (cells_row_major_lt Hcz). cbn [fst snd] in *. tauto. }
    destruct (@score_of_win npc player Hn Hp b z Hwf Hinz) as (tz & Hsz & Htz).
    rewrite Hwz in Htz. assert (v' = tz) by congruence. lia. }
  now rewrite Heq.
Qed.

Lemma hard_move_takes_win_witness :
  let b := [[X; X; Blank]; [O; O; Blank]; [X; Blank; Blank]] in
  hard_move O X b = Some (Some (1, 2), b)
  /\ check_winner (set_grid b (fst (1, 2)) (snd (1, 2)) O) = Some O.
Proof.
  apply (@hard_move_takes_win O X [[X; X; Blank]; [O; O; Blank]; [X; Blank; Blank]] (1, 2));
    [apply shape_wf_grid | discriminate | discriminate | reflexivity].
Defined.

(* ================================================================== *)
(** ** [hard_move] converts a forced win *)

Lemma wins_within_S (npc player : cell) (n : nat) (b : grid) (t : bool) :
  wins_within npc player (S n) b t
  = match check_winner b with
    | Some w => cell_eqb w npc
    | None =>
        if is_full b then false
        else if t then
          some (fun rc => wins_within npc player n
                            (set_grid b (fst rc) (snd rc) npc) false)
               (available_moves b)
        else
          every (fun rc => wins_within npc player n
                             (set_grid b (fst rc) (snd rc) player) true)
                (available_moves b)
    end.
Proof. reflexivity. Qed.

Lemma wins_within_winner (npc player : cell) (n : nat) (b : grid) (t : bool) (w : cell) :
  check_winner b = Some w -> wins_within npc player n b t = cell_eqb w npc.
Proof. intros Hw. destruct n; simpl; now rewrite Hw. Qed.

Lemma wins_within_none (npc player : cell) (b : grid) (t : bool) :
  check_winner b = None -> wins_within npc player 0 b t = false.
Proof. intros Hw. simpl. now rewrite Hw. Qed.

Section WinningValue.

Variables npc player : cell.
Hypothesis symbols : roles npc player.

(** The plain value of a node is positive exactly when the strategy can
    force a win from it. *)
Lemma plain_positive (fuel : nat) :
  forall b depth m t,
    wf_grid b -> count_empty b < fuel ->
    (depth + Z.of_nat (count_empty b) <= 9)%Z ->
    plain_minimax npc player fuel b depth m = Some t ->
    ((0 < t)%Z <-> wins_within npc player (count_empty b) b m = true).
Proof.
  destruct (roles_marks symbols) as (Hn & Hp & Hnp).
  induction fuel as [|fuel IH]; intros b depth m t Hwf Hfuel Hdepth; [lia|].
  rewrite plain_minimax_S.
  destruct (check_winner b) as [w|] eqn:Hw.
  - rewrite (wins_within_winner npc player _ _ m Hw). cbn [opt_cell_eqb].
    destruct (cell_eqb w npc) eqn:E1.
    + intros H. assert (t = 10 - depth)%Z by congruence.
      split; [reflexivity | lia].
    + destruct (cell_eqb w player) eqn:E2.
      * intros H. assert (t = depth - 10)%Z by congruence.
        split; [lia | discriminate].
      * exfalso. apply cell_eqb_neq in E1. apply cell_eqb_neq in E2.
        pose proof (check_winner_symbol _ Hw) as Hmark.
        destruct symbols as [[-> ->]|[-> ->]]; destruct w; congruence.
  - cbn [opt_cell_eqb]. destruct (is_full b) eqn:Hfull.
    + intros H. assert (t = 0)%Z by congruence. subst t.
      pose proof (full_no_moves Hwf Hfull) as Hav.
      unfold count_empty. rewrite Hav. simpl. rewrite Hw.
      split; [lia | discriminate].
    + pose proof (not_full_moves Hwf Hfull) as Hav.
      destruct (count_empty b) as [|n] eqn:Hcount;
        [apply count_empty_zero in Hcount; contradiction|].
      rewrite wins_within_S, Hw, Hfull.
      assert (Hchild : forall s m' rc e,
                 s <> Blank -> In rc (available_moves b) ->
                 plain_minimax npc player fuel (set_grid b (fst rc) (snd rc) s)
                               (depth + 1)%Z m' = Some e ->
                 ((0 < e)%Z <->
                  wins_within npc player n (set_grid b (fst rc) (snd rc) s) m' = true)).
      { intros s m' [r c] e Hs Hin He. cbn [fst snd] in *.
        apply available_moves_in in Hin. destruct Hin as (Hr & Hc & Hb).
        pose proof (count_empty_set Hwf Hr Hc Hb Hs) as Hset.
        assert (Hn' : count_empty (set_grid b r c s) = n) by lia.
        rewrite <- Hn'. apply (IH _ (depth + 1)%Z); auto.
        - now apply set_grid_wf.
        - lia.
        - lia. }
      destruct m; intros Hf.
      * pose proof (fold_max_scores _ _ _ Hf) as Hall.
        rewrite (@fold_max_spec _ _ (- maxsize)%Z Hall) in Hf.
        assert (Ht : fold_left Z.max
                       (map (value_of (fun rc => plain_minimax npc player fuel
                          (set_grid b (fst rc) (snd rc) npc) (depth + 1)%Z false))
                            (available_moves b)) (- maxsize)%Z = t) by congruence.
        clear Hf. rewrite some_true.
        assert (Hiff : (0 < t)%Z <-> (1 <= t)%Z) by lia.
        rewrite Hiff, <- Ht, fold_max_ge. split.
        -- intros [Hmax|(x & Hx & Hle)]; [unfold maxsize in Hmax; lia|].
           apply in_map_iff in Hx. destruct Hx as (rc & <- & Hin).
           destruct (Hall rc Hin) as (e & He). unfold value_of in Hle. rewrite He in Hle.
           exists rc. split; [assumption|].
           apply (Hchild npc false rc e Hn Hin He). lia.
        -- intros (rc & Hin & Hforce). right.
           destruct (Hall rc Hin) as (e & He).
           exists e. split.
           ++ apply in_map_iff. exists rc. split; [|assumption].
              unfold value_of. now rewrite He.
           ++ pose proof (proj2 (Hchild npc false rc e Hn Hin He) Hforce). lia.
      * pose proof (fold_min_scores _ _ _ Hf) as Hall.
        rewrite (@fold_min_spec _ _ maxsize Hall) in Hf.
        assert (Ht : fold_left Z.min
                       (map (value_of (fun rc => plain_minimax npc player fuel
                          (set_grid b (fst rc) (snd rc) player) (depth + 1)%Z true))
                            (available_moves b)) maxsize = t) by congruence.
        clear Hf. rewrite every_true.
        assert (Hiff : (0 < t)%Z <-> (1 <= t)%Z) by lia.
        rewrite Hiff, <- Ht, fold_min_ge. split.
        -- intros [_ Hle] rc Hin. destruct (Hall rc Hin) as (e & He).
           apply (Hchild player true rc e Hp Hin He).
           assert (Hx : (1 <= value_of (fun rc => plain_minimax npc player fuel
                          (set_grid b (fst rc) (snd rc) player) (depth + 1)%Z true) rc)%Z)
             by (apply Hle; now apply in_map).
           unfold value_of in Hx. rewrite He in Hx. lia.
        -- intros Hevery. split; [unfold maxsize; lia|].
           intros x Hx. apply in_map_iff in Hx. destruct Hx as (rc & <- & Hin).
           destruct (Hall rc Hin) as (e & He). unfold value_of. rewrite He.
           pose proof (proj1 (Hchild player true rc e Hp Hin He)) as Hpos.
           pose proof (proj2 (Hchild player true rc e Hp Hin He) (Hevery rc Hin)). lia.
Qed.

(** On a board in progress from which the strategy can force a win,
    [hard_move] returns an empty cell after which it still can. *)
Lemma win_step (b : grid) :
  wf_grid b -> evaluate b = InProgress ->
  strategy_forces_win npc player b true = true ->
  exists r c, hard_move npc player b = Some (Some (r, c), b)
              /\ r < 3 /\ c < 3 /\ get b r c = Blank
              /\ strategy_forces_win npc player (set_grid b r c npc) false = true.
Proof.
  destruct (roles_marks symbols) as (Hn & Hp & Hnp).
  intros Hwf Hprog Hwin.
  apply evaluate_in_progress in Hprog. destruct Hprog as [Hw Hfull].
  pose proof (not_full_moves Hwf Hfull) as Hav.
  pose proof (count_empty_le b) as Hle9.
  unfold strategy_forces_win in Hwin.
  destruct (count_empty b) as [|n] eqn:Hcount;
    [apply count_empty_zero in Hcount; contradiction|].
  rewrite wins_within_S, Hw, Hfull in Hwin.
  apply some_true in Hwin. destruct Hwin as ([r0 c0] & Hin0 & Hf0).
  cbn [fst snd] in Hf0.
  assert (Hvalue : forall r c, In (r, c) (available_moves b) ->
            exists t, candidate_score npc player b (r, c) = Some t
                      /\ ((0 < t)%Z <->
                          wins_within npc player n (set_grid b r c npc) false = true)).
  { intros r c Hin. destruct (@root_score npc player Hn Hp b (r, c) Hwf Hin)
      as (t & Hm & Hpl & _). cbn [fst snd] in Hm, Hpl.
    exists t. split.
    - unfold candidate_score, score_with. cbn [fst snd]. now rewrite Hm.
    - apply available_moves_in in Hin. destruct Hin as (Hr & Hc & Hb).
      pose proof (count_empty_set Hwf Hr Hc Hb Hn) as Hset.
      assert (Hn' : count_empty (set_grid b r c npc) = n) by lia.
      rewrite <- Hn'.
      apply (@plain_positive search_fuel _ 0%Z false t (set_grid_wf r c npc Hwf));
        [unfold search_fuel; lia | lia | exact Hpl]. }
  destruct (Hvalue r0 c0 Hin0) as (t0 & Hs0 & Hsign0).
  assert (Ht0 : (0 < t0)%Z) by (apply Hsign0; exact Hf0).
  destruct (@hard_move_plain npc player Hn Hp b Hwf) as (mv & Hh & _ & Hsome).
  destruct mv as [[r c]|]; [|exfalso; now apply Hsome].
  destruct (hard_move_first_best _ _ _ Hh)
    as (pre & post & v & Hsplit & Hblank & Hv & Hpre & Hpost).
  cbn [fst snd] in Hblank.
  assert (Hcell : In (r, c) cells_row_major)
    by (rewrite Hsplit; apply in_or_app; right; now left).
  destruct (cells_row_major_lt Hcell) as [Hr Hc]. cbn [fst snd] in Hr, Hc.
  assert (Hin : In (r, c) (available_moves b)) by now apply available_moves_in.
  assert (Hv0 : (t0 <= v)%Z).
  { assert (Hcell0 : In (r0, c0) cells_row_major).
    { rewrite available_moves_blank in Hin0. unfold blank_cells in Hin0.
      now apply filter_In in Hin0. }
    apply available_moves_in in Hin0. destruct Hin0 as (_ & _ & Hb0).
    rewrite Hsplit in Hcell0. apply in_app_or in Hcell0.
    destruct Hcell0 as [Hin0|[Heq|Hin0]].
    - destruct (Hpre _ Hin0 Hb0) as (v' & Hv' & Hlt).
      assert (v' = t0) by congruence. lia.
    - rewrite <- Heq in Hs0. assert (v = t0) by congruence. lia.
    - destruct (Hpost _ Hin0 Hb0) as (v' & Hv' & Hlt).
      assert (v' = t0) by congruence. lia. }
  destruct (Hvalue r c Hin) as (t & Hs & Hsign).
  assert (v = t) by congruence. subst v.
  exists r, c. split; [assumption|]. split; [assumption|]. split; [assumption|].
  split; [assumption|].
  unfold strategy_forces_win.
  pose proof (count_empty_set Hwf Hr Hc Hblank Hn) as Hset.
  assert (Hn' : count_empty (set_grid b r c npc) = n) by lia.
  rewrite Hn'. apply Hsign. lia.
Qed.

End WinningValue.

(** The invariant after a move of the side to move, given that the
    strategy can still force a win from the new board. *)
Lemma winning_invariant_move (g : TicTacToe) (r c : nat) :
  winning_invariant g -> evaluate (board g) = InProgress ->
  r < 3 -> c < 3 -> get (board g) r c = Blank ->
  strategy_forces_win (npc_symbol g) (player_symbol g)
    (set_grid (board g) r c (current_player g))
    (negb (cell_eqb (current_player g) (npc_symbol g))) = true ->
  winning_invariant (after_move (set_cell g r c (current_player g))).
Proof.
  intros (Hwf & Hroles & Hin) Hprog Hr Hc Hblank Hwin.
  rewrite Hprog in Hin. destruct Hin as (Hto & _).
  pose proof (after_move_fields (set_cell g r c (current_player g)))
    as (Hboard & Hnpc & Hpl & Hnext).
  simpl in Hboard, Hnpc, Hpl.
  pose proof (set_grid_wf r c (current_player g) Hwf) as Hwf'.
  unfold winning_invariant. rewrite Hboard, Hnpc, Hpl.
  split; [assumption|]. split; [assumption|].
  unfold strategy_forces_win in Hwin.
  destruct (evaluate (set_grid (board g) r c (current_player g))) as [|w|] eqn:He.
  - assert (Hcur : current_player (after_move (set_cell g r c (current_player g)))
                   = if cell_eqb (current_player g) (player_symbol g)
                     then npc_symbol g else player_symbol g).
    { apply Hnext. exact He. }
    rewrite Hcur.
    destruct Hroles as [[Hn Hp]|[Hn Hp]]; rewrite Hn, Hp in *;
      destruct (to_move_symbol _ _ Hto) as [Hs|Hs]; rewrite Hs in *; simpl in *;
      (split; [|exact Hwin]).
    + apply (@to_move_next X O); auto. now right.
    + apply (@to_move_next O X); auto. now left.
    + apply (@to_move_next X O); auto. now right.
    + apply (@to_move_next O X); auto. now left.
  - unfold evaluate in He.
    destruct (check_winner (set_grid (board g) r c (current_player g))) as [w'|] eqn:Hw;
      [|destruct (is_full _); discriminate].
    assert (w' = w) by congruence. subst w'.
    rewrite (wins_within_winner _ _ _ _ _ Hw) in Hwin. now apply cell_eqb_eq.
  - unfold evaluate in He.
    destruct (check_winner (set_grid (board g) r c (current_player g))) eqn:Hw;
      [discriminate|].
    destruct (is_full (set_grid (board g) r c (current_player g))) eqn:Hfull;
      [|discriminate].
    pose proof (full_no_moves Hwf' Hfull) as Hav.
    unfold count_empty in Hwin. rewrite Hav in Hwin. simpl in Hwin.
    rewrite Hw in Hwin. discriminate.
Qed.

Lemma winning_invariant_npc_turn (g : TicTacToe) (r c : nat) (b' : grid) (g' : TicTacToe) :
  winning_invariant g -> evaluate (board g) = InProgress ->
  current_player g = npc_symbol g ->
  hard_move (npc_symbol g) (player_symbol g) (board g) = Some (Some (r, c), b') ->
  turn (with_board g b') (Z.of_nat r) (Z.of_nat c) = Some g' ->
  winning_invariant g'.
Proof.
  intros Hinv Hprog Hcur Hh Hturn.
  pose proof Hinv as (Hwf & Hroles & Hin).
  rewrite Hprog in Hin. destruct Hin as (Hto & Hwin).
  rewrite Hcur, cell_eqb_refl in Hwin.
  destruct (win_step Hroles Hwf Hprog Hwin) as (r0 & c0 & Hh0 & Hr & Hc & Hb & Hs).
  rewrite Hh0 in Hh. injection Hh as <- <- <-.
  rewrite with_board_same in Hturn.
  rewrite (turn_cell g Hr Hc Hb) in Hturn. injection Hturn as <-.
  apply winning_invariant_move; auto.
  now rewrite Hcur, cell_eqb_refl.
Qed.

Lemma winning_invariant_other_turn (g : TicTacToe) (row col : Z) (g' : TicTacToe) :
  winning_invariant g -> evaluate (board g) = InProgress ->
  current_player g <> npc_symbol g ->
  turn g row col = Some g' ->
  winning_invariant g'.
Proof.
  intros Hinv Hprog Hcur Hturn.
  pose proof Hinv as (Hwf & Hroles & Hin).
  rewrite Hprog in Hin. destruct Hin as (Hto & Hwin).
  apply turn_inv in Hturn. destruct Hturn as (Hr & Hc & Hb & ->).
  apply winning_invariant_move; auto.
  assert (Hne : cell_eqb (current_player g) (npc_symbol g) = false)
    by now apply cell_eqb_neq.
  rewrite Hne in *. simpl.
  assert (Hpl : current_player g = player_symbol g).
  { destruct Hroles as [[Hn Hp]|[Hn Hp]]; rewrite Hn, Hp in *;
      destruct (to_move_symbol _ _ Hto); congruence. }
  assert (Hmark : player_symbol g <> Blank).
  { destruct Hroles as [[_ ->]|[_ ->]]; discriminate. }
  pose proof (count_empty_set Hwf Hr Hc Hb Hmark) as Hcount.
  unfold strategy_forces_win in *.
  rewrite <- Hcount, wins_within_S in Hwin.
  apply evaluate_in_progress in Hprog. destruct Hprog as [Hw Hf].
  rewrite Hw, Hf in Hwin.
  rewrite Hpl.
  apply (proj1 (every_true _ _) Hwin (Z.to_nat row, Z.to_nat col)).
  now apply available_moves_in.
Qed.

Lemma winning_play_invariant (g0 g : TicTacToe) :
  winning_invariant g0 -> hard_play g0 g -> winning_invariant g.
Proof.
  intros H0. induction 1 as [|g r c b' g' _ IH Hprog Hcur Hh Hturn
                                |g row col g' _ IH Hprog Hcur Hturn].
  - exact H0.
  - eapply winning_invariant_npc_turn; eassumption.
  - eapply winning_invariant_other_turn; eassumption.
Qed.

(** X7: from a board in progress with the counts of the side to move
    and from which the strategy's symbol can force a win whatever the
    other side plays, a game in which [hard_move] is played at every
    turn of the strategy is never drawn and never lost: every position
    of it is in progress or a win of the strategy, a full board is a win
    of the strategy, and at each of its turns [hard_move] returns a cell
    that is accepted. *)
Theorem hard_converts_forced_win (g0 g : TicTacToe) :
  wf_grid (board g0) ->
  roles (npc_symbol g0) (player_symbol g0) ->
  evaluate (board g0) = InProgress ->
  to_move (current_player g0) (board g0) = true ->
  strategy_forces_win (npc_symbol g0) (player_symbol g0) (board g0)
    (cell_eqb (current_player g0) (npc_symbol g0)) = true ->
  hard_play g0 g ->
  (evaluate (board g) = InProgress \/ evaluate (board g) = Win (npc_symbol g))
  /\ (is_full (board g) = true -> check_winner (board g) = Some (npc_symbol g))
  /\ (evaluate (board g) = InProgress -> current_player g = npc_symbol g ->
      exists r c g',
        hard_move (npc_symbol g) (player_symbol g) (board g) = Some (Some (r, c), board g)
        /\ turn g (Z.of_nat r) (Z.of_nat c) = Some g').
Proof.
  intros Hwf Hroles Hprog Hto Hwin Hplay.
  assert (H0 : winning_invariant g0).
  { split; [assumption|]. split; [assumption|]. rewrite Hprog. auto. }
  pose proof (winning_play_invariant H0 Hplay) as (Hwfg & Hrg & Hin).
  assert (Hcases : evaluate (board g) = InProgress
                   \/ evaluate (board g) = Win (npc_symbol g)).
  { destruct (evaluate (board g)); [now left | right; now f_equal | destruct Hin]. }
  split; [exact Hcases|]. split.
  - intros Hfull. unfold evaluate in Hcases.
    destruct (check_winner (board g)) as [w|].
    + destruct Hcases as [Hc|Hc]; [discriminate | congruence].
    + rewrite Hfull in Hcases. destruct Hcases; discriminate.
  - intros Hpg Hcur. rewrite Hpg in Hin. destruct Hin as (Htg & Hsg).
    rewrite Hcur, cell_eqb_refl in Hsg.
    destruct (win_step Hrg Hwfg Hpg Hsg) as (r & c & Hh & Hr & Hc & Hb & _).
    exists r, c. eexists. split; [exact Hh | now apply turn_cell].
Qed.

(** The strategy [O] is to move with its first row one cell short. *)
Lemma hard_converts_forced_win_witness :
  let g0 := mkTicTacToe [[O; O; Blank]; [X; X; Blank]; [X; Blank; Blank]]
                        O true "hard" X O in
  (evaluate (board g0) = InProgress \/ evaluate (board g0) = Win (npc_symbol g0))
  /\ (is_full (board g0) = true -> check_winner (board g0) = Some (npc_symbol g0))
  /\ (evaluate (board g0) = InProgress -> current_player g0 = npc_symbol g0 ->
      exists r c g',
        hard_move (npc_symbol g0) (player_symbol g0) (board g0)
        = Some (Some (r, c), board g0)
        /\ turn g0 (Z.of_nat r) (Z.of_nat c) = Some g').
Proof.
  apply (@hard_converts_forced_win
           (mkTicTacToe [[O; O; Blank]; [X; X; Blank]; [X; Blank; Blank]]
                        O true "hard" X O)
           (mkTicTacToe [[O; O; Blank]; [X; X; Blank]; [X; Blank; Blank]]
                        O true "hard" X O)).
  - apply shape_wf_grid.
  - left. split; reflexivity.
  - reflexivity.
  - reflexivity.
  - reflexivity.
  - apply hard_start.
Defined.

(* ================================================================== *)
(** ** The length of a game *)

Lemma winner_three (b : grid) (w : cell) :
  wf_grid b -> check_winner b = Some w -> 3 <= count_cells b w.
Proof.
  intros Hwf Hw. apply (check_winner_some w Hwf) in Hw.
  destruct Hw as (k & Hk & [_ Hline] & _).
  open_grid b Hwf. unfold count_cells, count. simpl.
  do 8 (destruct k as [|k];
        [ pose proof (Hline _ (or_introl eq_refl)) as H1;
          pose proof (Hline _ (or_intror (or_introl eq_refl))) as H2;
          pose proof (Hline _ (or_intror (or_intror (or_introl eq_refl)))) as H3;
          unfold get in H1, H2, H3; simpl in H1, H2, H3;
          rewrite H1, H2, H3;
          repeat match goal with
                 | |- context [cell_eq_dec ?a ?b] => destruct (cell_eq_dec a b)
                 end; try congruence; lia |]).
  lia.
Qed.

Lemma div2_S (n : nat) :
  Nat.div2 (S n) = if Nat.even n then Nat.div2 n else S (Nat.div2 n).
Proof.
  assert (H : forall k,
             (Nat.div2 (S k) = if Nat.even k then Nat.div2 k else S (Nat.div2 k))
             /\ (Nat.div2 (S (S k))
                 = if Nat.even (S k) then Nat.div2 (S k) else S (Nat.div2 (S k)))).
  { induction k as [|k [IH1 IH2]]; [split; reflexivity|].
    split; [exact IH2|].
    change (Nat.div2 (S (S (S k)))) with (S (Nat.div2 (S k))).
    change (Nat.even (S (S k))) with (Nat.even k).
    change (Nat.div2 (S (S k))) with (S (Nat.div2 k)).
    rewrite IH1. destruct (Nat.even k); reflexivity. }
  apply H.
Qed.

Lemma moves_invariant_turn (n : nat) (g : TicTacToe) (row col : Z) (g' : TicTacToe) :
  moves_invariant n g -> evaluate (board g) = InProgress ->
  turn g row col = Some g' -> moves_invariant (S n) g'.
Proof.
  intros (Hwf & Hp & Hn & HX & HO & Hempty & Hcur) Hprog Hturn.
  specialize (Hcur Hprog).
  apply turn_inv in Hturn. destruct Hturn as (Hr & Hc & Hb & ->).
  destruct (after_move_fields (set_cell g (Z.to_nat row) (Z.to_nat col) (current_player g)))
    as (Hboard & Hnpc & Hpl & Hnext).
  simpl in Hboard, Hnpc, Hpl.
  pose proof (count_cells_set (current_player g) X Hwf Hr Hc Hb) as HsX.
  pose proof (count_cells_set (current_player g) O Hwf Hr Hc Hb) as HsO.
  assert (Hmark : current_player g <> Blank)
    by (rewrite Hcur; destruct (Nat.even n); discriminate).
  pose proof (count_empty_set Hwf Hr Hc Hb Hmark) as Hse.
  assert (Hnext' : evaluate (set_grid (board g) (Z.to_nat row) (Z.to_nat col)
                                      (current_player g)) = InProgress ->
                   current_player
                     (after_move (set_cell g (Z.to_nat row) (Z.to_nat col)
                                           (current_player g)))
                   = if cell_eqb (current_player g) X then O else X).
  { intros H. rewrite (Hnext H). simpl. now rewrite Hp, Hn. }
  clear Hnext.
  unfold moves_invariant. rewrite Hboard, Hnpc, Hpl.
  split; [now apply set_grid_wf|]. split; [assumption|]. split; [assumption|].
  change (Nat.div2 (S (S n))) with (S (Nat.div2 n)).
  rewrite (div2_S n) in HX |- *.
  rewrite Nat.even_succ. unfold Nat.odd.
  destruct (Nat.even n); rewrite Hcur in *; cbn [negb];
    unfold cell_eq_dec, cell_rec, cell_rect in HsX, HsO; cbn [cell_eqb] in Hnext';
    (split; [lia|]; split; [lia|]; split; [lia|]; exact Hnext').
Qed.

Lemma play_moves_invariant (moves : list (Z * Z)) :
  forall n g g',
    moves_invariant n g -> play_moves g moves = Some g' ->
    moves_invariant (n + length moves) g'
    /\ play_with_npc g' = play_with_npc g.
Proof.
  induction moves as [|[row col] rest IH]; intros n g g' Hinv; simpl.
  - intros [= <-]. now rewrite Nat.add_0_r.
  - destruct (evaluate (board g)) eqn:He; try discriminate.
    destruct (turn g row col) as [g1|] eqn:Ht; [|discriminate].
    intros Hplay. rewrite Nat.add_succ_r.
    destruct (IH (S n) g1 g' (@moves_invariant_turn n g row col g1 Hinv He Ht) Hplay) as [H1 H2].
    split; [exact H1|]. rewrite H2.
    apply turn_inv in Ht. destruct Ht as (_ & _ & _ & ->).
    unfold after_move.
    destruct (evaluate (board (set_cell g (Z.to_nat row) (Z.to_nat col)
                                        (current_player g)))); reflexivity.
Qed.

(** X8: after [n] turns of a game started by the constructor, the
    board holds [(n+1)/2] [X], [n/2] [O] and [9 - n] empty cells, so a
    game has at most nine turns; it cannot be over before the fifth
    turn and is over at the ninth; while it goes on, [X] moves at the
    even turns and [O] at the odd ones, and against the NPC the strategy
    is asked at exactly the odd turns. *)
Theorem game_length (p : bool) (d : string) (moves : list (Z * Z)) (g : TicTacToe) :
  play_moves (new_game p d) moves = Some g ->
  count_cells (board g) X = Nat.div2 (S (length moves))
  /\ count_cells (board g) O = Nat.div2 (length moves)
  /\ count_empty (board g) + length moves = 9
  /\ (length moves < 5 -> evaluate (board g) = InProgress)
  /\ (length moves = 9 -> evaluate (board g) <> InProgress)
  /\ (evaluate (board g) = InProgress ->
      current_player g = (if Nat.even (length moves) then X else O)
      /\ npc_to_move g = p && Nat.odd (length moves)).
Proof.
  intros Hplay.
  assert (H0 : moves_invariant 0 (new_game p d)).
  { unfold moves_invariant. simpl.
    split; [apply shape_wf_grid|]. repeat split; reflexivity. }
  destruct (@play_moves_invariant moves 0 (new_game p d) g H0 Hplay)
    as [(Hwf & Hp & Hn & HX & HO & Hempty & Hcur) Hnpc].
  cbn [Nat.add] in Hempty, HX, HO, Hcur. cbn [new_game play_with_npc] in Hnpc.
  split; [assumption|]. split; [assumption|]. split; [assumption|].
  split; [|split].
  - intros Hlt. unfold evaluate.
    destruct (check_winner (board g)) as [w|] eqn:Hw.
    + exfalso. pose proof (winner_three Hwf Hw) as H3.
      pose proof (check_winner_symbol _ Hw) as Hmark.
      assert (Hle : Nat.div2 (length moves) <= 2 /\ Nat.div2 (S (length moves)) <= 2).
      { destruct (length moves) as [|[|[|[|[|k]]]]]; simpl; lia. }
      destruct w; [congruence | lia | lia].
    + destruct (is_full (board g)) eqn:Hfull; [|reflexivity].
      exfalso. pose proof (full_no_moves Hwf Hfull) as Hav.
      unfold count_empty in Hempty. rewrite Hav in Hempty. simpl in Hempty. lia.
  - intros H9 Hprog. apply evaluate_in_progress in Hprog. destruct Hprog as [_ Hfull].
    apply (not_full_moves Hwf Hfull). apply count_empty_zero. lia.
  - intros Hprog. specialize (Hcur Hprog). split; [exact Hcur|].
    unfold npc_to_move. rewrite Hnpc, Hcur, Hn. simpl. unfold Nat.odd.
    destruct (Nat.even (length moves)); reflexivity.
Qed.

Lemma game_length_witness :
  let g := mkTicTacToe [[O; Blank; Blank]; [Blank; X; Blank]; [Blank; Blank; X]]
                       O true "hard" X O in
  play_moves (new_game true "hard") [(1, 1); (0, 0); (2, 2)]%Z = Some g
  /\ count_cells (board g) X = 2 /\ count_cells (board g) O = 1
  /\ count_empty (board g) + 3 = 9
  /\ current_player g = O /\ npc_to_move g = true.
Proof.
  assert (Hplay : play_moves (new_game true "hard") [(1, 1); (0, 0); (2, 2)]%Z
                  = Some (mkTicTacToe
                            [[O; Blank; Blank]; [Blank; X; Blank]; [Blank; Blank; X]]
                            O true "hard" X O)) by reflexivity.
  split; [exact Hplay|].
  destruct (game_length _ _ _ Hplay) as (HX & HO & He & Hlt & _ & Hcur).
  split; [exact HX|]. split; [exact HO|]. split; [exact He|].
  apply Hcur. reflexivity.
Defined.

(* ================================================================== *)
(** ** The end of the game *)

Lemma legal_play_symbols (g0 g : TicTacToe) :
  legal_play g0 g ->
  player_symbol g = player_symbol g0 /\ npc_symbol g = npc_symbol g0.
Proof.
  induction 1 as [|g row col g' _ [IHp IHn] _ Hturn]; [split; reflexivity|].
  apply turn_inv in Hturn. destruct Hturn as (_ & _ & _ & ->).
  destruct (after_move_fields (set_cell g (Z.to_nat row) (Z.to_nat col) (current_player g)))
    as (_ & Hnpc & Hpl & _).
  rewrite Hnpc, Hpl. simpl. now split.
Qed.

(** X9: in every game started by the constructor, with or without the
    NPC, a win of [X] is announced by [Congratulations! You win!] and a
    win of [O] by [NPC wins! Better luck next time.]; the third message,
    which names the winner, is never printed. *)
Theorem announce_winner (p : bool) (d : string) (g : TicTacToe) (w : cell) :
  legal_play (new_game p d) g ->
  check_winner (board g) = Some w ->
  (w = X /\ announce g = Some "Congratulations! You win!"%string)
  \/ (w = O /\ announce g = Some "NPC wins! Better luck next time."%string).
Proof.
  intros Hplay Hw.
  destruct (legal_play_symbols Hplay) as [Hp Hn]. simpl in Hp, Hn.
  pose proof (check_winner_symbol _ Hw) as Hmark.
  unfold announce. rewrite Hw, Hp, Hn.
  destruct w; [congruence | left | right]; split; reflexivity.
Qed.

Lemma announce_winner_witness :
  let g := mkTicTacToe [[X; X; Blank]; [O; O; O]; [Blank; Blank; X]]
                       O false "easy" X O in
  legal_play (new_game false "easy") g
  /\ check_winner (board g) = Some O
  /\ announce g = Some "NPC wins! Better luck next time."%string.
Proof.
  assert (Hlegal : legal_play (new_game false "easy")
                     (mkTicTacToe [[X; X; Blank]; [O; O; O]; [Blank; Blank; X]]
                                  O false "easy" X O)).
  { apply (@play_moves_legal (new_game false "easy")
             [(0, 0); (1, 0); (0, 1); (1, 1); (2, 2); (1, 2)]%Z
             (new_game false "easy"));
      [apply legal_start | reflexivity]. }
  assert (Hw : check_winner
                 (board (mkTicTacToe [[X; X; Blank]; [O; O; O]; [Blank; Blank; X]]
                                     O false "easy" X O)) = Some O) by reflexivity.
  split; [exact Hlegal|]. split; [exact Hw|].
  destruct (announce_winner Hlegal Hw) as [[E _]|[_ Ha]]; [discriminate | exact Ha].
Defined.

(* ================================================================== *)
(** ** The search between two bounds *)

(** X10: on every 3x3 board, at every depth and for both sides,
    [minimax] called with bounds [-maxsize <= alpha < beta <= maxsize]
    returns, hands the board back, and its result [v] stands to the
    value [t] of the search without cutoffs as follows: strictly between
    the bounds it is that value; at or below [alpha] the value is at
    most [alpha]; at or above [beta] the value is at least [beta]. *)
Theorem minimax_between_bounds (npc player : cell) (b : grid) (depth : Z) (m : bool)
        (alpha beta : Z) :
  wf_grid b -> npc <> Blank -> player <> Blank ->
  (- maxsize <= alpha)%Z -> (alpha < beta)%Z -> (beta <= maxsize)%Z ->
  exists v t,
    minimax npc player search_fuel b depth m alpha beta = Some (v, b)
    /\ plain_minimax npc player search_fuel b depth m = Some t
    /\ ((alpha < v < beta)%Z -> v = t)
    /\ ((v <= alpha)%Z -> (t <= alpha)%Z)
    /\ ((beta <= v)%Z -> (beta <= t)%Z).
Proof.
  intros Hwf Hn Hp Hlo Hab Hhi.
  assert (Hfuel : count_empty b < search_fuel)
    by (pose proof (count_empty_le b); unfold search_fuel; lia).
  destruct (@minimax_total npc player Hn Hp search_fuel b Hwf Hfuel depth m alpha beta)
    as (v & Hv).
  destruct (@plain_minimax_total npc player Hn Hp search_fuel b Hwf Hfuel depth m)
    as (t & Ht).
  exists v, t. split; [exact Hv|]. split; [exact Ht|].
  destruct (@minimax_window npc player Hn Hp search_fuel b Hwf Hfuel depth m alpha beta
              v b t Hlo Hhi Hab Hv Ht) as (H1 & H2 & H3).
  split; [exact H3|]. split; [exact H1 | exact H2].
Qed.

Lemma minimax_between_bounds_witness :
  let b := [[X; O; X]; [Blank; O; Blank]; [Blank; Blank; Blank]] in
  exists v t,
    minimax O X search_fuel b 2 true (-1) 1 = Some (v, b)
    /\ plain_minimax O X search_fuel b 2 true = Some t
    /\ ((-1 < v < 1)%Z -> v = t)
    /\ ((v <= -1)%Z -> (t <= -1)%Z)
    /\ ((1 <= v)%Z -> (1 <= t)%Z).
Proof.
  apply (@minimax_between_bounds O X
           [[X; O; X]; [Blank; O; Blank]; [Blank; Blank; Blank]] 2%Z true (-1)%Z 1%Z);
    [apply shape_wf_grid | discriminate | discriminate
    | unfold maxsize; lia | lia | unfold maxsize; lia].
Defined.

(* ================================================================== *)
(** ** The rendering of the board *)




